(** * chipool: a fixed-size object pool allocator (src/chipool.hpp)

    The development embeds the header-only allocator [chipool::Pool<T>]:
    the compile-time layout calculator of [detail::SubPool<T>], the chunk
    header and slot array as they lie in byte-addressed memory, and the two
    member functions [Pool::Allocate] and [Pool::Deallocate] together with
    the private helper [Pool::AllocSubPool].

    Conventions.
    - Memory is a total map from addresses to bytes, little endian.  A
      pointer is its address, the null pointer is address 0.
    - The operations are modelled for a 64-bit target ([uintptr_t] and
      pointers are 8 bytes wide).  The layout calculator is also given for
      the 32-bit targets the source distinguishes.
    - An object type [T] is known to the allocator by [sizeof(T)] and
      [alignof(T)] only. *)

From Stdlib Require Import ZArith List Lia Bool Permutation.
Import ListNotations.
Local Open Scope Z_scope.

(** ** Constants of namespace [detail] *)

Definition kPageSize : Z := 4096.

(** [uintptr_t] arithmetic wraps modulo [2^64]. *)
Definition uintptr_max : Z := 2 ^ 64.

(** [constexpr uintptr_t kPageMask = ~0xFFFull;] *)
Definition kPageMask : Z := Z.lnot 4095 mod uintptr_max.

(** [constexpr uint16_t kInvalidIdx = ~0;] *)
Definition kInvalidIdx : Z := Z.lnot 0 mod 2 ^ 16.

(** ** Layout calculator *)

(** What the allocator knows of its template parameter. *)
Record ObjType : Type := mkObjType {
  sizeT : Z;
  alignT : Z
}.

(** The build target: pointer width in bytes, and whether the macro test
    [defined(_WIN32) && !defined(_WIN64)] holds. *)
Record Target : Type := mkTarget {
  ptr_bytes : Z;
  win32_only : bool
}.

Definition x64 : Target := mkTarget 8 false.
Definition win32 : Target := mkTarget 4 true.
Definition ilp32 : Target := mkTarget 4 false.

Definition round_up (n a : Z) : Z := (n + a - 1) / a * a.

(** Size of a struct whose members, given as (size, alignment) pairs, are
    laid out in declaration order at their natural alignment. *)
Fixpoint struct_end (members : list (Z * Z)) (off : Z) : Z :=
  match members with
  | [] => off
  | (sz, al) :: rest => struct_end rest (round_up off al + sz)
  end.

Definition struct_align (members : list (Z * Z)) : Z :=
  fold_right (fun m acc => Z.max (snd m) acc) 1 members.

Definition struct_size (members : list (Z * Z)) : Z :=
  round_up (struct_end members 0) (struct_align members).

Definition u16 : Z * Z := (2, 2).
Definition u32 : Z * Z := (4, 4).
Definition pointer (tg : Target) : Z * Z := (ptr_bytes tg, ptr_bytes tg).

(** [struct HeaderNot1Byte]: free_idx, begin_idx, used_count, reserve,
    next_pool, and reserve2 on 32-bit Windows only. *)
Definition HeaderNot1Byte (tg : Target) : list (Z * Z) :=
  [u16; u16; u16; u16; pointer tg] ++ (if win32_only tg then [u32] else []).

(** [struct Header1Byte]: free_idx, begin_idx, used_count, reserve,
    next_pool. *)
Definition Header1Byte (tg : Target) : list (Z * Z) :=
  [u16; u16; u16; u16; pointer tg].

(** [using Header = std::conditional_t<sizeof(T) == 1, Header1Byte,
    HeaderNot1Byte>;] *)
Definition Header (tg : Target) (T : ObjType) : list (Z * Z) :=
  if sizeT T =? 1 then Header1Byte tg else HeaderNot1Byte tg.

Definition sizeof_Header (tg : Target) (T : ObjType) : Z :=
  struct_size (Header tg T).

(** Width in bytes of [Chip::next_idx]:
    [std::conditional_t<sizeof(T) == 1, uint8_t, uint16_t>]. *)
Definition link_bytes (T : ObjType) : nat :=
  if sizeT T =? 1 then 1%nat else 2%nat.

(** [union Chip { next_idx; T value; }]: as large as its largest member,
    rounded up to the stricter of the two alignments. *)
Definition alignof_Chip (T : ObjType) : Z :=
  Z.max (alignT T) (Z.of_nat (link_bytes T)).

Definition sizeof_Chip (T : ObjType) : Z :=
  round_up (Z.max (sizeT T) (Z.of_nat (link_bytes T))) (alignof_Chip T).

(** [kUsableSize = (sizeof(T) == 1 ? (kPageSize / 8) : kPageSize)
                   - sizeof(Header)] *)
Definition kUsableSize (tg : Target) (T : ObjType) : Z :=
  (if sizeT T =? 1 then kPageSize / 8 else kPageSize) - sizeof_Header tg T.

(** [kChipCount = kUsableSize / sizeof(Chip)] *)
Definition kChipCount (tg : Target) (T : ObjType) : Z :=
  kUsableSize tg T / sizeof_Chip T.

(** [is_valid_chip_v<T> = (SubPool<T>::kUsableSize % sizeof(T)) == 0] *)
Definition is_valid_chip_v (tg : Target) (T : ObjType) : bool :=
  kUsableSize tg T mod sizeT T =? 0.

(** Offset of the member [usable_mems] inside [SubPool<T>]. *)
Definition offsetof_usable_mems (tg : Target) (T : ObjType) : Z :=
  round_up (sizeof_Header tg T) (alignof_Chip T).

(** [sizeof(SubPool<T>)]: header, then [kChipCount] chips, padded to the
    alignment of the struct. *)
Definition sizeof_SubPool (tg : Target) (T : ObjType) : Z :=
  round_up (offsetof_usable_mems tg T + kChipCount tg T * sizeof_Chip T)
           (Z.max (struct_align (Header tg T)) (alignof_Chip T)).

(** Some object types. *)
Definition T_char : ObjType := mkObjType 1 1.
Definition T_u64 : ObjType := mkObjType 8 8.
Definition T_blob2040 : ObjType := mkObjType 2040 8.

(** ** Byte-addressed memory *)

Definition Mem : Type := Z -> Z.

Definition upd (m : Mem) (a v : Z) : Mem :=
  fun x => if x =? a then v else m x.

(** Little-endian load and store of an [n]-byte unsigned integer.  A store
    keeps the low [8 * n] bits of the value, as a conversion to the
    unsigned type of that width does. *)
Fixpoint load (n : nat) (m : Mem) (a : Z) : Z :=
  match n with
  | O => 0
  | S k => m a mod 256 + 256 * load k m (a + 1)
  end.

Fixpoint store (n : nat) (m : Mem) (a v : Z) : Mem :=
  match n with
  | O => m
  | S k => store k (upd m a (v mod 256)) (a + 1) (v / 256)
  end.

(** ** The injected strategy and the Pool object *)

(** A call the Pool makes on its injected strategy pair. *)
Inductive StrategyCall : Type :=
| CallAllocate (size : Z)
| CallDeallocate (ptr : Z).

(** The strategy's [allocate_] callable: the address it returns may depend
    on every call made on the strategy before, and on the requested size. *)
Definition AllocFunc : Type := list StrategyCall -> Z -> Z.

(** The Pool: its [cur_pool_] member, the memory its chunks live in, and
    the calls made on the strategy so far.  The members [deallocate_] and
    [used_chip_count_] are set by the constructor and not used by any
    member function; [allocate_] is a parameter of the operations. *)
Record Pool : Type := mkPool {
  cur_pool_ : Z;
  mem : Mem;
  calls : list StrategyCall
}.

(** The constructor: [cur_pool_(nullptr)], nothing called yet. *)
Definition Pool_new (m : Mem) : Pool := mkPool 0 m [].

Module Chipool.
Section PoolOps.

Variable T : ObjType.
Variable allocate_ : AllocFunc.

(** Layout constants of [SubPool<T>] on the 64-bit target. *)
Definition chip_count : Z := kChipCount x64 T.
Definition chip_size : Z := sizeof_Chip T.
Definition subpool_size : Z := sizeof_SubPool x64 T.

(** Header fields of the chunk at address [p]. *)
Definition free_idx (m : Mem) (p : Z) : Z := load 2 m p.
Definition begin_idx (m : Mem) (p : Z) : Z := load 2 m (p + 2).
Definition used_count (m : Mem) (p : Z) : Z := load 2 m (p + 4).
Definition next_pool (m : Mem) (p : Z) : Z := load 8 m (p + 8).

Definition set_free_idx (m : Mem) (p v : Z) : Mem := store 2 m p v.
Definition set_begin_idx (m : Mem) (p v : Z) : Mem := store 2 m (p + 2) v.
Definition set_used_count (m : Mem) (p v : Z) : Mem := store 2 m (p + 4) v.
Definition set_next_pool (m : Mem) (p v : Z) : Mem := store 8 m (p + 8) v.

(** Address of [usable_mems[i]] of the chunk at [p]. *)
Definition usable_mems (p i : Z) : Z :=
  p + offsetof_usable_mems x64 T + i * chip_size.

(** The link a chip holds while it is on the free list. *)
Definition next_idx (m : Mem) (chip : Z) : Z := load (link_bytes T) m chip.
Definition set_next_idx (m : Mem) (chip v : Z) : Mem :=
  store (link_bytes T) m chip v.

Definition IsFreeIdxValid (m : Mem) (p : Z) : bool :=
  negb (free_idx m p =? kInvalidIdx).
Definition IsNotBeginInEnd (m : Mem) (p : Z) : bool :=
  negb (begin_idx m p =? chip_count).
Definition FreeMem (m : Mem) (p : Z) : Z := usable_mems p (free_idx m p).
Definition BeginMem (m : Mem) (p : Z) : Z := usable_mems p (begin_idx m p).
Definition IsFull (m : Mem) (p : Z) : bool := used_count m p =? chip_count.
Definition IsEmpty (m : Mem) (p : Z) : bool := used_count m p =? 0.

(** The loop of [AllocSubPool] for one-byte objects: [n] more iterations,
    [tmp] the chunk being initialised.  Returns the last [tmp]. *)
Fixpoint chain_pools (n : nat) (m : Mem) (tmp : Z) : Mem * Z :=
  match n with
  | O => (m, tmp)
  | S k =>
      let m1 := set_free_idx m tmp kInvalidIdx in
      let m2 := set_next_pool m1 tmp (tmp + subpool_size) in
      chain_pools k m2 (tmp + subpool_size)
  end.

(** [Pool::AllocSubPool]: the address of the new chunk and the Pool
    after the call. *)
Definition AllocSubPool (s : Pool) : Z * Pool :=
  let pool := allocate_ (calls s) kPageSize in
  let log := calls s ++ [CallAllocate kPageSize] in
  if sizeT T =? 1 then
    let pool_num := kPageSize / subpool_size in
    let '(m, tmp) := chain_pools (Z.to_nat (pool_num - 1)) (mem s) pool in
    (pool, mkPool (cur_pool_ s) (set_free_idx m tmp kInvalidIdx) log)
  else
    (pool, mkPool (cur_pool_ s) (set_free_idx (mem s) pool kInvalidIdx) log).

Definition set_cur (s : Pool) (p : Z) : Pool := mkPool p (mem s) (calls s).

(** The first two statements of [Pool::Allocate]: make sure there is a
    current chunk, and leave it if it is full. *)
Definition ensure_current (s : Pool) : Pool :=
  if cur_pool_ s =? 0 then
    let '(p, s') := AllocSubPool s in set_cur s' p
  else s.

Definition advance_if_full (s : Pool) : Pool :=
  if IsFull (mem s) (cur_pool_ s) then
    let succ := next_pool (mem s) (cur_pool_ s) in
    if succ =? 0 then
      let '(p, s') := AllocSubPool s in set_cur s' p
    else set_cur s succ
  else s.

(** [Pool::Allocate]: the returned slot pointer and the Pool after. *)
Definition Allocate (s : Pool) : Z * Pool :=
  let s1 := ensure_current s in
  let s2 := advance_if_full s1 in
  let c := cur_pool_ s2 in
  let m := set_used_count (mem s2) c (used_count (mem s2) c + 1) in
  if IsFreeIdxValid m c then
    let res := FreeMem m c in
    (res, mkPool c (set_free_idx m c (next_idx m res)) (calls s2))
  else
    let res := BeginMem m c in
    (res, mkPool c (set_begin_idx m c (begin_idx m c + 1)) (calls s2)).

(** The chunk [Pool::Deallocate] recovers from a slot pointer, and the
    index it computes for the slot. *)
Definition pool_of (ptr : Z) : Z := Z.land ptr kPageMask.
Definition idx_of (ptr : Z) : Z :=
  ((ptr - usable_mems (pool_of ptr) 0) mod uintptr_max) / chip_size.

(** The rotation step of [Pool::Deallocate]: a chunk that is full when
    one of its slots is released becomes the current chunk, and is linked
    in front of the old current chunk unless that one is full. *)
Definition splice_if_full (s : Pool) (pool : Z) : Pool :=
  if IsFull (mem s) pool then
    let m := if negb (IsFull (mem s) (cur_pool_ s))
             then set_next_pool (mem s) pool (cur_pool_ s)
             else mem s in
    mkPool pool m (calls s)
  else s.

(** The remaining statements of [Pool::Deallocate]: count the slot out,
    then reset the chunk if it is empty, else push the slot on the free
    list. *)
Definition release_chip (s : Pool) (pool chip idx : Z) : Pool :=
  let m := set_used_count (mem s) pool (used_count (mem s) pool - 1) in
  if IsEmpty m pool then
    let m1 := set_free_idx m pool kInvalidIdx in
    mkPool (cur_pool_ s) (set_begin_idx m1 pool 0) (calls s)
  else
    let m1 := set_next_idx m chip (free_idx m pool) in
    mkPool (cur_pool_ s) (set_free_idx m1 pool idx) (calls s).

(** [Pool::Deallocate]. *)
Definition Deallocate (s : Pool) (ptr : Z) : Pool :=
  let pool := pool_of ptr in
  let chip := ptr in
  let idx := idx_of ptr in
  release_chip (splice_if_full s pool) pool chip idx.

(** [Pool::~Pool() {}]: the destructor has an empty body. *)
Definition Destroy (s : Pool) : Pool := s.

(** What a client can do with a Pool. *)
Inductive Op : Type :=
| OpAllocate
| OpDeallocate (ptr : Z)
| OpDestroy.

Definition step (s : Pool) (o : Op) : Pool :=
  match o with
  | OpAllocate => snd (Allocate s)
  | OpDeallocate p => Deallocate s p
  | OpDestroy => Destroy s
  end.

Definition run (ops : list Op) (s : Pool) : Pool := fold_left step ops s.

(** [n] calls of [Allocate] in a row: the pointers in the order they were
    returned, and the Pool after the last call. *)
Fixpoint allocate_n (n : nat) (s : Pool) : list Z * Pool :=
  match n with
  | O => ([], s)
  | S k =>
      let '(p, s1) := Allocate s in
      let '(ps, s2) := allocate_n k s1 in
      (p :: ps, s2)
  end.

(** [Deallocate] on each pointer of a list, in order. *)
Definition deallocate_all (ps : list Z) (s : Pool) : Pool :=
  fold_left Deallocate ps s.

End PoolOps.
End Chipool.

Import Chipool.

(** ** Side conditions used by the statements below *)

(** What [SubPool<T>] must satisfy for the slot array of a chunk to lie
    inside the memory acquired for it and for slot indices to fit the
    16-bit header fields.  [layout_ok_of_valid_chip] shows that every type
    accepted by the constraint [is_valid_chip_v<T>] satisfies it. *)
Definition layout_ok (T : ObjType) : bool :=
  (offsetof_usable_mems x64 T =? 16)
  && (1 <=? chip_count T) && (chip_count T <? kInvalidIdx)
  && (Z.of_nat (link_bytes T) <=? chip_size T)
  && (16 + chip_count T * chip_size T <=? subpool_size T)
  && (subpool_size T <=? kPageSize).

(** A C++ object type: positive size, a power-of-two alignment, and a
    size that is a multiple of the alignment. *)
Definition cxx_type (T : ObjType) : Prop :=
  0 < sizeT T /\ (exists k, 0 <= k /\ alignT T = 2 ^ k) /\
  sizeT T mod alignT T = 0.

(** Addresses at which a page of [kPageSize] bytes can start. *)
Definition page_aligned (p : Z) : Prop :=
  0 < p /\ p mod kPageSize = 0 /\ p + kPageSize <= uintptr_max.

(** All bytes of the page at [p] are zero in [m]. *)
Definition zero_page (m : Mem) (p : Z) : Prop :=
  forall x, p <= x < p + kPageSize -> m x = 0.

(** [ptr] is the address of slot [i] of the chunk at [p]. *)
Definition slot_at (T : ObjType) (p i ptr : Z) : Prop :=
  0 <= i < chip_count T /\ ptr = usable_mems T p i.

(** [ptr] is the address of some slot of the chunk at [p]. *)
Definition slot_of (T : ObjType) (p ptr : Z) : Prop :=
  exists i, slot_at T p i ptr.

(** Every call the Pool has made on its strategy is an acquisition of one
    page. *)
Definition only_acquires (log : list StrategyCall) : Prop :=
  Forall (fun c => c = CallAllocate kPageSize) log.

(** The addresses of [n] consecutive slots of the chunk at [p], from slot
    [i] on. *)
Fixpoint slot_range (T : ObjType) (p i : Z) (n : nat) : list Z :=
  match n with
  | O => []
  | S k => usable_mems T p i :: slot_range T p (i + 1) k
  end.

(** Number of chunks [AllocSubPool] sets up in the page it acquires. *)
Definition chunks_per_page (T : ObjType) : Z :=
  if sizeT T =? 1 then kPageSize / subpool_size T else 1.

(** [x] is a byte of the [free_idx] field of one of the chunks of the page
    at [p], or, for one-byte objects, of the [next_pool] field of one of
    them other than the last. *)
Definition header_link_byte (T : ObjType) (p x : Z) : Prop :=
  exists k, 0 <= k < chunks_per_page T /\
    (p + k * subpool_size T <= x < p + k * subpool_size T + 2 \/
     (sizeT T = 1 /\ k + 1 < chunks_per_page T /\
      p + k * subpool_size T + 8 <= x < p + k * subpool_size T + 16)).

(** An object type of odd size and alignment 1: its chip is one byte
    larger than the object. *)
Definition T_odd17 : ObjType := mkObjType 17 1.

(** The slots of [n] chunks that lie one behind the other from address
    [p] on, chunk by chunk. *)
Fixpoint page_slots (T : ObjType) (p : Z) (n : nat) : list Z :=
  match n with
  | O => []
  | S k =>
      slot_range T p 0 (Z.to_nat (chip_count T))
      ++ page_slots T (p + subpool_size T) k
  end.

(** The [j] chunks that follow the chunk at [c] in memory are linked one
    behind the other from [c] on and untouched: empty free list, nothing
    bumped, nothing counted. *)
Fixpoint fresh_chain (T : ObjType) (m : Mem) (c : Z) (j : nat) : Prop :=
  match j with
  | O => True
  | S k =>
      next_pool m c = c + subpool_size T /\
      free_idx m (c + subpool_size T) = kInvalidIdx /\
      begin_idx m (c + subpool_size T) = 0 /\
      used_count m (c + subpool_size T) = 0 /\
      fresh_chain T m (c + subpool_size T) k
  end.

(** ** A chunk seen as a bump frontier and a stack of free slots *)

(** The bookkeeping of one chunk, by slot index: the bump frontier, the
    free slots with the one released last in front, and the slots the
    client holds. *)
Record ChunkModel : Type := mkChunkModel {
  c_frontier : Z;
  c_free : list Z;
  c_live : list Z
}.

(** Allocation in the model: the head of the free slots if there is one,
    else the slot at the frontier. *)
Definition model_alloc (a : ChunkModel) : Z * ChunkModel :=
  match c_free a with
  | i :: rest => (i, mkChunkModel (c_frontier a) rest (i :: c_live a))
  | [] =>
      (c_frontier a,
       mkChunkModel (c_frontier a + 1) [] (c_frontier a :: c_live a))
  end.

(** Release in the model: the last live slot resets the chunk, any other
    goes in front of the free slots. *)
Definition model_release (a : ChunkModel) (i : Z) : ChunkModel :=
  if (length (c_live a) =? 1)%nat then mkChunkModel 0 [] []
  else mkChunkModel (c_frontier a) (i :: c_free a)
         (remove Z.eq_dec i (c_live a)).

(** The free list in memory: from the head [f], the links stored in the
    slots run through the indices [l] and end with the sentinel. *)
Fixpoint linked (T : ObjType) (m : Mem) (X f : Z) (l : list Z) : Prop :=
  match l with
  | [] => f = kInvalidIdx
  | i :: rest =>
      f = i /\ linked T m X (next_idx T m (usable_mems T X i)) rest
  end.

(** A model is consistent: every slot below the frontier is free or live,
    none is both or listed twice, and the frontier is inside the chunk. *)
Definition model_wf (T : ObjType) (a : ChunkModel) : Prop :=
  c_frontier a = Z.of_nat (length (c_free a) + length (c_live a)) /\
  c_frontier a <= chip_count T /\
  NoDup (c_free a ++ c_live a) /\
  forall i, In i (c_free a ++ c_live a) -> 0 <= i < c_frontier a.

(** The chunk at [X] of the Pool [s] is current and holds the model. *)
Definition represents (T : ObjType) (X : Z) (s : Pool) (a : ChunkModel)
    : Prop :=
  cur_pool_ s = X /\
  begin_idx (mem s) X = c_frontier a /\
  used_count (mem s) X = Z.of_nat (length (c_live a)) /\
  linked T (mem s) X (free_idx (mem s) X) (c_free a).

(** The client stores a byte at an address. *)
Definition client_write (s : Pool) (addr v : Z) : Pool :=
  mkPool (cur_pool_ s) (upd (mem s) addr v) (calls s).

(** The states a client reaches from a new Pool on memory [m0] when it
    never holds more than [chip_count] objects, releases only slots it
    holds, and writes only into slots it holds; each with the model of
    the first chunk that the run gives. *)
Inductive reach (T : ObjType) (allocate_ : AllocFunc) (m0 : Mem)
    : Pool -> ChunkModel -> Prop :=
| reach_first :
    reach T allocate_ m0
      (snd (Allocate T allocate_ (Pool_new m0)))
      (mkChunkModel 1 [] [0])
| reach_alloc s a :
    reach T allocate_ m0 s a ->
    Z.of_nat (length (c_live a)) < chip_count T ->
    reach T allocate_ m0
      (snd (Allocate T allocate_ s)) (snd (model_alloc a))
| reach_release s a i :
    reach T allocate_ m0 s a -> In i (c_live a) ->
    reach T allocate_ m0
      (Deallocate T s (usable_mems T (allocate_ [] kPageSize) i))
      (model_release a i)
| reach_write s a i off v :
    reach T allocate_ m0 s a -> In i (c_live a) ->
    0 <= off < chip_size T ->
    reach T allocate_ m0
      (client_write s (usable_mems T (allocate_ [] kPageSize) i + off) v)
      a.

(** ** Concrete inputs *)

(** A strategy that hands out consecutive pages starting at 0x10000, and a
    memory that is zero everywhere. *)
Definition pages : AllocFunc :=
  fun log _ => 65536 + kPageSize * Z.of_nat (length log).
Definition zero_mem : Mem := fun _ => 0.

(** A memory that is not zeroed: every byte is 1, so every 16-bit field
    reads 257. *)
Definition ones_mem : Mem := fun _ => 1.

(** The first two pages [pages] returns. *)
Definition page0 : Z := 65536.
Definition page1 : Z := 65536 + 4096.

(** ** Client runs *)

(** The pointers a client receives from the [Allocate] calls of a run,
    oldest first. *)
Fixpoint returned (T : ObjType) (allocate_ : AllocFunc)
    (ops : list Op) (s : Pool) : list Z :=
  match ops with
  | [] => []
  | OpAllocate :: rest =>
      let '(p, s') := Allocate T allocate_ s in
      p :: returned T allocate_ rest s'
  | o :: rest => returned T allocate_ rest (step T allocate_ s o)
  end.

(** Whether a run respects the precondition of [Deallocate]: each pointer
    it releases was returned by an earlier [Allocate] of the run and has
    not been released since, and nothing follows the destruction of the
    Pool.  [live] lists the pointers the client holds. *)
Fixpoint respects (T : ObjType) (allocate_ : AllocFunc)
    (ops : list Op) (s : Pool) (live : list Z) : bool :=
  match ops with
  | [] => true
  | OpAllocate :: rest =>
      let '(p, s') := Allocate T allocate_ s in
      respects T allocate_ rest s' (p :: live)
  | OpDeallocate p :: rest =>
      existsb (Z.eqb p) live
      && respects T allocate_ rest (Deallocate T s p)
           (filter (fun q => negb (q =? p)) live)
  | OpDestroy :: rest =>
      match rest with [] => true | _ => false end
  end.

(** Fill a first chunk of [n] slots and start a second one; release and
    take back the slot [a0] of the first chunk, which links the second
    chunk behind the first; fill the second chunk; release and take back
    [a0] once more.  Both chunks are then full and the first is current. *)
Definition overfill (n : nat) (a0 : Z) : list Op :=
  repeat OpAllocate (S n) ++ [OpDeallocate a0; OpAllocate]
  ++ repeat OpAllocate (n - 1) ++ [OpDeallocate a0; OpAllocate].

(** The second chunk of the first page of a Pool of one-byte objects. *)
Definition page0_chunk1 : Z := page0 + 512.

(** The third chunk of that page. *)
Definition page0_chunk2 : Z := page0 + 1024.

(** A Pool of one-byte objects after 992 allocations: the first two
    chunks of its first page are full. *)
Definition two_full_char_chunks : list Z * Pool :=
  allocate_n T_char pages 992 (Pool_new zero_mem).

(** The same Pool after one more allocation: the third chunk holds one
    object and is current. *)
Definition two_full_char_chunks_and_one : list Z * Pool :=
  allocate_n T_char pages 993 (Pool_new zero_mem).

(** Take 301 one-byte objects, all from the first chunk of the first
    page, then release slot 300 and after it slot 10. *)
Definition release_300_then_10 : list Op :=
  repeat OpAllocate 301
  ++ [OpDeallocate (usable_mems T_char page0 300);
      OpDeallocate (usable_mems T_char page0 10)].

(** The run [overfill] on chunks of two slots, one more allocation, which
    moves to the second chunk, and the release of slot 0 of that chunk. *)
Definition overfill_then_release : list Op :=
  overfill 2 (usable_mems T_blob2040 page0 0)
  ++ [OpAllocate; OpDeallocate (usable_mems T_blob2040 page1 0)].

(** * Properties *)

(** ** Loads and stores *)

Lemma upd_same (m : Mem) (a v : Z) : upd m a v a = v.
Proof. unfold upd. now rewrite Z.eqb_refl. Qed.

Lemma upd_other (m : Mem) (a v x : Z) : x <> a -> upd m a v x = m x.
Proof. unfold upd. intros H. apply Z.eqb_neq in H. now rewrite H. Qed.

Lemma load_S (k : nat) (m : Mem) (a : Z) :
  load (S k) m a = m a mod 256 + 256 * load k m (a + 1).
Proof. reflexivity. Qed.

Lemma store_S (k : nat) (m : Mem) (a v : Z) :
  store (S k) m a v = store k (upd m a (v mod 256)) (a + 1) (v / 256).
Proof. reflexivity. Qed.

Lemma store_outside (n : nat) : forall (m : Mem) (a v x : Z),
  x < a \/ a + Z.of_nat n <= x -> store n m a v x = m x.
Proof.
  induction n as [|k IH]; intros m a v x H; [reflexivity|]; rewrite store_S.
  rewrite IH by lia. apply upd_other. lia.
Qed.

Lemma load_ext (n : nat) : forall (m1 m2 : Mem) (a : Z),
  (forall x, a <= x < a + Z.of_nat n -> m1 x = m2 x) ->
  load n m1 a = load n m2 a.
Proof.
  induction n as [|k IH]; intros m1 m2 a H; [reflexivity|]; rewrite !load_S.
  rewrite (H a) by lia. rewrite (IH m1 m2 (a + 1)); [reflexivity|].
  intros x Hx. apply H. lia.
Qed.

Lemma load_store_other (k n : nat) (m : Mem) (a b v : Z) :
  b + Z.of_nat k <= a \/ a + Z.of_nat n <= b ->
  load k (store n m a v) b = load k m b.
Proof.
  intros H. apply load_ext. intros x Hx. apply store_outside. lia.
Qed.

Lemma load_range (n : nat) : forall (m : Mem) (a : Z),
  0 <= load n m a < 256 ^ Z.of_nat n.
Proof.
  induction n as [|k IH]; intros m a.
  - simpl. lia.
  - rewrite load_S. rewrite Nat2Z.inj_succ, Z.pow_succ_r by lia.
    specialize (IH m (a + 1)).
    pose proof (Z.mod_pos_bound (m a) 256 ltac:(lia)). lia.
Qed.

Lemma load_store_same (n : nat) : forall (m : Mem) (a v : Z),
  load n (store n m a v) a = v mod 256 ^ Z.of_nat n.
Proof.
  induction n as [|k IH]; intros m a v.
  - simpl. now rewrite Z.mod_1_r.
  - rewrite load_S, store_S.
    rewrite store_outside by lia. rewrite upd_same, IH.
    rewrite Nat2Z.inj_succ, Z.pow_succ_r by lia.
    rewrite Z.mod_mod by lia.
    rewrite (Z.rem_mul_r v 256 (256 ^ Z.of_nat k)); lia.
Qed.

Lemma load2_store2_same (m : Mem) (a v : Z) :
  load 2 (store 2 m a v) a = v mod 65536.
Proof. apply (load_store_same 2). Qed.

Lemma load8_store8_same (m : Mem) (a v : Z) :
  load 8 (store 8 m a v) a = v mod uintptr_max.
Proof. apply (load_store_same 8). Qed.

Lemma load2_range (m : Mem) (a : Z) : 0 <= load 2 m a < 65536.
Proof. apply (load_range 2). Qed.

Lemma kInvalidIdx_eq : kInvalidIdx = 65535.
Proof. reflexivity. Qed.

Lemma kPageSize_eq : kPageSize = 4096.
Proof. reflexivity. Qed.

Lemma uintptr_max_eq : uintptr_max = 18446744073709551616.
Proof. reflexivity. Qed.

Lemma link_bytes_range (T : ObjType) : 1 <= Z.of_nat (link_bytes T) <= 2.
Proof. unfold link_bytes. destruct (sizeT T =? 1); simpl; lia. Qed.

(** Unfold the header accessors to loads and stores, then resolve every
    load of a store whose address is the same or provably apart. *)
Ltac fields :=
  unfold IsFull, IsEmpty, IsFreeIdxValid, FreeMem, BeginMem,
    free_idx, begin_idx, used_count, next_pool, next_idx,
    set_free_idx, set_begin_idx, set_used_count, set_next_pool, set_next_idx
    in *.

Ltac mem_simp :=
  repeat first
    [ rewrite load2_store2_same
    | rewrite load8_store8_same
    | rewrite load_store_other by lia ].

(** ** Recovering a chunk from a slot pointer *)

Lemma pool_of_eq (p : Z) :
  0 <= p < uintptr_max -> pool_of p = kPageSize * (p / kPageSize).
Proof.
  intros Hp. unfold pool_of, kPageMask.
  change uintptr_max with (2 ^ 64) in *.
  rewrite <- (Z.land_ones (Z.lnot 4095) 64) by lia.
  rewrite (Z.land_comm (Z.lnot 4095)), Z.land_assoc.
  rewrite (Z.land_ones p 64) by lia.
  rewrite Z.mod_small by lia.
  rewrite <- Z.ldiff_land.
  change 4095 with (Z.ones 12).
  rewrite Z.ldiff_ones_r by lia.
  rewrite Z.shiftl_mul_pow2, Z.shiftr_div_pow2 by lia.
  change (2 ^ 12) with kPageSize. lia.
Qed.

(** Masking an address inside the page at [p] gives [p]. *)
Lemma pool_of_in_page (p off : Z) :
  page_aligned p -> 0 <= off < kPageSize -> pool_of (p + off) = p.
Proof.
  intros (Hpos & Hal & Hmax) Hoff.
  rewrite pool_of_eq by (rewrite kPageSize_eq in *; lia).
  rewrite kPageSize_eq in *.
  pose proof (Z.div_mod p 4096 ltac:(lia)) as Hdm.
  rewrite Hal in Hdm.
  assert (Hq : (p + off) / 4096 = p / 4096).
  { symmetry. apply (Z.div_unique (p + off) 4096 (p / 4096) off); lia. }
  rewrite Hq. lia.
Qed.

(** ** Single steps of [Allocate] and [Deallocate] *)

Section Steps.

Variable T : ObjType.
Variable allocate_ : AllocFunc.
Hypothesis HT : layout_ok T = true.

Local Abbreviation cc := (chip_count T).
Local Abbreviation cs := (chip_size T).

Lemma layout_facts :
  offsetof_usable_mems x64 T = 16 /\ 1 <= cc < 65535 /\
  Z.of_nat (link_bytes T) <= cs /\
  16 + cc * cs <= subpool_size T /\ subpool_size T <= 4096.
Proof.
  unfold layout_ok in HT.
  repeat (apply andb_prop in HT; destruct HT as [HT ?]).
  rewrite kInvalidIdx_eq in *. rewrite kPageSize_eq in *.
  repeat split; lia.
Qed.

Lemma usable_mems_eq (p i : Z) : usable_mems T p i = p + 16 + i * cs.
Proof.
  unfold usable_mems. destruct layout_facts as (-> & _). reflexivity.
Qed.

Lemma chip_size_pos : 1 <= cs.
Proof.
  destruct layout_facts as (_ & _ & H & _).
  pose proof (link_bytes_range T). lia.
Qed.

(** A slot lies behind the header of its chunk and inside its page. *)
Lemma slot_bounds (p i : Z) :
  0 <= i < cc ->
  p + 16 <= usable_mems T p i /\
  usable_mems T p i + Z.of_nat (link_bytes T) <= p + 4096.
Proof.
  intros Hi. rewrite usable_mems_eq.
  destruct layout_facts as (_ & _ & Hl & Hs & Hp).
  pose proof chip_size_pos. nia.
Qed.

Lemma slot_lower (p i : Z) : 0 <= i -> p + 16 <= usable_mems T p i.
Proof.
  intros Hi. rewrite usable_mems_eq. pose proof chip_size_pos. nia.
Qed.

Lemma pool_of_slot (p i ptr : Z) :
  page_aligned p -> slot_at T p i ptr -> pool_of ptr = p.
Proof.
  intros Hp (Hi & ->).
  pose proof (slot_bounds p i Hi) as (Hlo & Hhi).
  pose proof (link_bytes_range T).
  replace (usable_mems T p i) with (p + (usable_mems T p i - p)) by lia.
  apply pool_of_in_page; [assumption|]. rewrite kPageSize_eq. lia.
Qed.

Lemma idx_of_slot (p i ptr : Z) :
  page_aligned p -> slot_at T p i ptr -> idx_of T ptr = i.
Proof.
  intros Hp Hs. unfold idx_of. rewrite (pool_of_slot p i ptr Hp Hs).
  destruct Hs as (Hi & ->).
  pose proof (slot_bounds p i Hi) as (Hlo & Hhi).
  pose proof (link_bytes_range T). pose proof chip_size_pos.
  rewrite !usable_mems_eq in *.
  replace (p + 16 + i * cs - (p + 16 + 0 * cs)) with (i * cs) by lia.
  rewrite Z.mod_small by (rewrite uintptr_max_eq; nia).
  apply Z.div_mul. lia.
Qed.

Lemma advance_if_full_not_full (s : Pool) :
  used_count (mem s) (cur_pool_ s) <> cc ->
  advance_if_full T allocate_ s = s.
Proof.
  intros Hu. unfold advance_if_full, IsFull.
  apply Z.eqb_neq in Hu. now rewrite Hu.
Qed.

(** [Allocate] on a Pool whose current chunk exists and is not full. *)
Lemma Allocate_ready (s : Pool) :
  cur_pool_ s <> 0 ->
  used_count (mem s) (cur_pool_ s) <> cc ->
  advance_if_full T allocate_ (ensure_current T allocate_ s) = s.
Proof.
  intros Hc Hu. unfold ensure_current.
  apply Z.eqb_neq in Hc. rewrite Hc.
  unfold advance_if_full, IsFull.
  apply Z.eqb_neq in Hu. now rewrite Hu.
Qed.

(** The bump path. *)
Lemma Allocate_bump (s : Pool) :
  cur_pool_ s <> 0 ->
  used_count (mem s) (cur_pool_ s) <> cc ->
  free_idx (mem s) (cur_pool_ s) = kInvalidIdx ->
  Allocate T allocate_ s =
    (usable_mems T (cur_pool_ s) (begin_idx (mem s) (cur_pool_ s)),
     mkPool (cur_pool_ s)
       (set_begin_idx
          (set_used_count (mem s) (cur_pool_ s)
             (used_count (mem s) (cur_pool_ s) + 1))
          (cur_pool_ s) (begin_idx (mem s) (cur_pool_ s) + 1))
       (calls s)).
Proof.
  intros Hc Hu Hf. unfold Allocate.
  rewrite (Allocate_ready s Hc Hu).
  set (c := cur_pool_ s) in *.
  assert (Hv : IsFreeIdxValid
                 (set_used_count (mem s) c (used_count (mem s) c + 1)) c
               = false).
  { fields. mem_simp. rewrite Hf. reflexivity. }
  rewrite Hv. unfold BeginMem.
  assert (Hb : begin_idx
                 (set_used_count (mem s) c (used_count (mem s) c + 1)) c
               = begin_idx (mem s) c).
  { fields. mem_simp. reflexivity. }
  rewrite Hb. reflexivity.
Qed.

(** The free-list path. *)
Lemma Allocate_pop (s : Pool) :
  cur_pool_ s <> 0 ->
  used_count (mem s) (cur_pool_ s) <> cc ->
  free_idx (mem s) (cur_pool_ s) <> kInvalidIdx ->
  Allocate T allocate_ s =
    (usable_mems T (cur_pool_ s) (free_idx (mem s) (cur_pool_ s)),
     mkPool (cur_pool_ s)
       (set_free_idx
          (set_used_count (mem s) (cur_pool_ s)
             (used_count (mem s) (cur_pool_ s) + 1))
          (cur_pool_ s)
          (next_idx T (mem s)
             (usable_mems T (cur_pool_ s) (free_idx (mem s) (cur_pool_ s)))))
       (calls s)).
Proof.
  intros Hc Hu Hf. unfold Allocate.
  rewrite (Allocate_ready s Hc Hu).
  set (c := cur_pool_ s) in *.
  set (m := set_used_count (mem s) c (used_count (mem s) c + 1)).
  assert (Hfm : free_idx m c = free_idx (mem s) c).
  { subst m. fields. mem_simp. reflexivity. }
  assert (Hv : IsFreeIdxValid m c = true).
  { unfold IsFreeIdxValid. rewrite Hfm.
    apply Z.eqb_neq in Hf. now rewrite Hf. }
  rewrite Hv. unfold FreeMem. rewrite Hfm.
  assert (Hl : next_idx T m (usable_mems T c (free_idx (mem s) c))
               = next_idx T (mem s) (usable_mems T c (free_idx (mem s) c))).
  { subst m.
    pose proof (slot_lower c (free_idx (mem s) c)
                  (proj1 (load2_range _ _))).
    fields. mem_simp. reflexivity. }
  rewrite Hl. reflexivity.
Qed.

(** What the bump path leaves behind. *)
Lemma Allocate_bump_fields (s : Pool) (c u b : Z) :
  cur_pool_ s = c -> c <> 0 ->
  used_count (mem s) c = u -> u <> cc ->
  begin_idx (mem s) c = b ->
  free_idx (mem s) c = kInvalidIdx ->
  let s' := snd (Allocate T allocate_ s) in
  fst (Allocate T allocate_ s) = usable_mems T c b /\
  cur_pool_ s' = c /\ calls s' = calls s /\
  used_count (mem s') c = (u + 1) mod 65536 /\
  begin_idx (mem s') c = (b + 1) mod 65536 /\
  free_idx (mem s') c = kInvalidIdx /\
  (forall x, x < c + 2 \/ c + 6 <= x -> mem s' x = mem s x).
Proof.
  intros Hc Hnz Hu Hnf Hb Hf s'. subst s'.
  rewrite Allocate_bump by (rewrite ?Hc, ?Hu; assumption).
  rewrite Hc, Hu, Hb. cbn [fst snd cur_pool_ mem calls].
  repeat split.
  - fields. mem_simp. reflexivity.
  - fields. mem_simp. reflexivity.
  - fields. mem_simp. assumption.
  - intros x Hx. fields. rewrite !store_outside by lia. reflexivity.
Qed.

(** [k] bump allocations in a row from a chunk with room for them. *)
Lemma bump_run (k : nat) : forall (s : Pool) (c u b : Z),
  cur_pool_ s = c -> c <> 0 ->
  used_count (mem s) c = u -> begin_idx (mem s) c = b ->
  free_idx (mem s) c = kInvalidIdx ->
  u + Z.of_nat k <= cc -> b + Z.of_nat k <= 65535 ->
  let s' := snd (allocate_n T allocate_ k s) in
  fst (allocate_n T allocate_ k s) = slot_range T c b k /\
  cur_pool_ s' = c /\ calls s' = calls s /\
  used_count (mem s') c = u + Z.of_nat k /\
  begin_idx (mem s') c = b + Z.of_nat k /\
  free_idx (mem s') c = kInvalidIdx /\
  (forall x, x < c + 2 \/ c + 6 <= x -> mem s' x = mem s x).
Proof.
  induction k as [|k IH]; intros s c u b Hc Hnz Hu Hb Hf Hku Hkb.
  - cbn [allocate_n fst snd slot_range Z.of_nat]. rewrite !Z.add_0_r.
    repeat split; assumption || reflexivity.
  - cbn [allocate_n].
    destruct (Allocate_bump_fields s c u b Hc Hnz Hu ltac:(lia) Hb Hf)
      as (Hp & Hc1 & Hl1 & Hu1 & Hb1 & Hf1 & Hfr1).
    destruct (Allocate T allocate_ s) as [p s1] eqn:E1.
    cbn [fst snd] in *.
    pose proof (load2_range (mem s) (c + 4)) as Ru. fold (used_count (mem s) c) in Ru.
    pose proof (load2_range (mem s) (c + 2)) as Rb. fold (begin_idx (mem s) c) in Rb.
    destruct layout_facts as (_ & Hcc & _).
    rewrite Z.mod_small in Hu1 by lia. rewrite Z.mod_small in Hb1 by lia.
    specialize (IH s1 c (u + 1) (b + 1) Hc1 Hnz Hu1 Hb1 Hf1
                  ltac:(lia) ltac:(lia)).
    destruct (allocate_n T allocate_ k s1) as [ps s2] eqn:E2.
    cbn [fst snd] in *.
    destruct IH as (Hps & Hc2 & Hl2 & Hu2 & Hb2 & Hf2 & Hfr2).
    repeat split.
    + cbn [slot_range]. now rewrite Hp, Hps.
    + assumption.
    + congruence.
    + lia.
    + lia.
    + assumption.
    + intros x Hx. rewrite Hfr2, Hfr1 by assumption. reflexivity.
Qed.

(** The rotation step touches only the [next_pool] field of the chunk. *)
Lemma splice_fields (s : Pool) (X : Z) :
  let s1 := splice_if_full T s X in
  cur_pool_ s1 = (if used_count (mem s) X =? cc then X else cur_pool_ s) /\
  calls s1 = calls s /\
  (forall x, x < X + 8 \/ X + 16 <= x -> mem s1 x = mem s x).
Proof.
  unfold splice_if_full, IsFull.
  destruct (used_count (mem s) X =? cc); cbn [cur_pool_ mem calls].
  - repeat split.
    destruct (negb (used_count (mem s) (cur_pool_ s) =? cc)); [|reflexivity].
    intros x Hx. fields. now rewrite store_outside by lia.
  - repeat split.
Qed.

(** Releasing the last live slot of a chunk resets the chunk. *)
Lemma release_last (s : Pool) (X p i : Z) :
  used_count (mem s) X = 1 ->
  let s' := release_chip T s X p i in
  cur_pool_ s' = cur_pool_ s /\ calls s' = calls s /\
  used_count (mem s') X = 0 /\
  free_idx (mem s') X = kInvalidIdx /\
  begin_idx (mem s') X = 0 /\
  (forall x, x < X \/ X + 6 <= x -> mem s' x = mem s x).
Proof.
  intros Hu. unfold release_chip.
  assert (HE : IsEmpty (set_used_count (mem s) X (used_count (mem s) X - 1)) X
               = true).
  { rewrite Hu. fields. mem_simp. reflexivity. }
  rewrite HE, Hu. cbn [cur_pool_ mem calls].
  repeat split.
  - fields. mem_simp. reflexivity.
  - fields. mem_simp. reflexivity.
  - fields. mem_simp. reflexivity.
  - intros x Hx. fields. now rewrite !store_outside by lia.
Qed.

(** Releasing a slot of a chunk that stays in use pushes the slot. *)
Lemma release_push (s : Pool) (X p i u : Z) :
  X + 16 <= p ->
  used_count (mem s) X = u -> 2 <= u ->
  0 <= i < 65536 ->
  let s' := release_chip T s X p i in
  cur_pool_ s' = cur_pool_ s /\ calls s' = calls s /\
  used_count (mem s') X = u - 1 /\
  free_idx (mem s') X = i /\
  begin_idx (mem s') X = begin_idx (mem s) X /\
  next_idx T (mem s') p
    = free_idx (mem s) X mod 256 ^ Z.of_nat (link_bytes T) /\
  (forall x, x < X \/ X + 6 <= x ->
             x < p \/ p + Z.of_nat (link_bytes T) <= x ->
             mem s' x = mem s x).
Proof.
  intros Hp Hu Hu2 Hi. unfold release_chip.
  pose proof (load2_range (mem s) (X + 4)) as Ru.
  fold (used_count (mem s) X) in Ru. rewrite Hu in Ru.
  pose proof (link_bytes_range T) as Hl.
  assert (HE : IsEmpty (set_used_count (mem s) X (used_count (mem s) X - 1)) X
               = false).
  { rewrite Hu. fields. mem_simp. rewrite Z.mod_small by lia.
    apply Z.eqb_neq. lia. }
  rewrite HE, Hu. cbn [cur_pool_ mem calls].
  repeat split.
  - fields. mem_simp. apply Z.mod_small. lia.
  - fields. mem_simp. apply Z.mod_small. lia.
  - fields. mem_simp. reflexivity.
  - fields. mem_simp. rewrite load_store_same. mem_simp. reflexivity.
  - intros x Hx Hx'. fields. now rewrite !store_outside by lia.
Qed.

(** [Deallocate] on a slot of the chunk at a page boundary. *)
Lemma Deallocate_slot (s : Pool) (X i p : Z) :
  page_aligned X -> slot_at T X i p ->
  Deallocate T s p = release_chip T (splice_if_full T s X) X p i.
Proof.
  intros HX Hs. unfold Deallocate.
  now rewrite (pool_of_slot X i p HX Hs), (idx_of_slot X i p HX Hs).
Qed.

(** *** Acquiring a chunk *)

Local Abbreviation ss := (subpool_size T).

Lemma subpool_size_range : 17 <= ss <= 4096.
Proof.
  destruct layout_facts as (_ & Hcc & _ & Hs & Hp).
  pose proof chip_size_pos. nia.
Qed.

Lemma chain_pools_last (n : nat) : forall (m : Mem) (tmp : Z),
  snd (chain_pools T n m tmp) = tmp + Z.of_nat n * ss.
Proof.
  induction n as [|n IH]; intros m tmp.
  - cbn [chain_pools snd Z.of_nat]. lia.
  - cbn [chain_pools]. rewrite IH. lia.
Qed.

(** The loop writes the [free_idx] and [next_pool] fields of the chunks it
    walks over, and nothing else. *)
Lemma chain_pools_frame (n : nat) : forall (m : Mem) (tmp x : Z),
  (forall k, 0 <= k < Z.of_nat n ->
     ~ (tmp + k * ss <= x < tmp + k * ss + 2 \/
        tmp + k * ss + 8 <= x < tmp + k * ss + 16)) ->
  fst (chain_pools T n m tmp) x = m x.
Proof.
  induction n as [|n IH]; intros m tmp x H.
  - reflexivity.
  - cbn [chain_pools]. rewrite IH.
    + specialize (H 0 ltac:(lia)). fields.
      rewrite !store_outside by lia. reflexivity.
    + intros k Hk. specialize (H (k + 1) ltac:(lia)).
      replace (tmp + ss + k * ss) with (tmp + (k + 1) * ss) by lia.
      exact H.
Qed.

Lemma chain_pools_free_idx (n : nat) : forall (m : Mem) (tmp k : Z),
  0 <= k < Z.of_nat n ->
  free_idx (fst (chain_pools T n m tmp)) (tmp + k * ss) = kInvalidIdx.
Proof.
  pose proof subpool_size_range as Hss.
  induction n as [|n IH]; intros m tmp k Hk; [lia|].
  cbn [chain_pools].
  destruct (Z.eq_dec k 0) as [->|Hk0].
  - replace (tmp + 0 * ss) with tmp by lia.
    unfold free_idx.
    rewrite (load_ext 2 _
               (set_next_pool (set_free_idx m tmp kInvalidIdx) tmp (tmp + ss))).
    + fields. mem_simp. reflexivity.
    + intros x Hx. apply chain_pools_frame. intros j Hj. nia.
  - replace (tmp + k * ss) with (tmp + ss + (k - 1) * ss) by lia.
    apply IH. lia.
Qed.

Lemma chunks_per_page_range : 1 <= chunks_per_page T /\
  chunks_per_page T * ss <= 4096.
Proof.
  pose proof subpool_size_range as Hss.
  unfold chunks_per_page. rewrite kPageSize_eq.
  destruct (sizeT T =? 1); [|lia].
  pose proof (Z.mul_div_le 4096 ss ltac:(lia)).
  assert (1 <= 4096 / ss) by (apply Z.div_le_lower_bound; lia).
  lia.
Qed.

Lemma chunks_per_page_one_byte :
  sizeT T = 1 -> chunks_per_page T = kPageSize / ss.
Proof.
  intros H. unfold chunks_per_page. apply Z.eqb_eq in H. now rewrite H.
Qed.

Lemma chunks_per_page_other : sizeT T <> 1 -> chunks_per_page T = 1.
Proof.
  intros H. unfold chunks_per_page. apply Z.eqb_neq in H. now rewrite H.
Qed.

(** The memory [AllocSubPool] leaves behind. *)
Lemma AllocSubPool_mem (s : Pool) :
  mem (snd (AllocSubPool T allocate_ s))
  = if sizeT T =? 1 then
      set_free_idx
        (fst (chain_pools T (Z.to_nat (chunks_per_page T - 1)) (mem s)
                (allocate_ (calls s) kPageSize)))
        (allocate_ (calls s) kPageSize + (chunks_per_page T - 1) * ss)
        kInvalidIdx
    else set_free_idx (mem s) (allocate_ (calls s) kPageSize) kInvalidIdx.
Proof.
  pose proof chunks_per_page_range as Hn.
  unfold AllocSubPool.
  destruct (sizeT T =? 1) eqn:E1; [|reflexivity].
  apply Z.eqb_eq in E1. rewrite <- (chunks_per_page_one_byte E1).
  rewrite (surjective_pairing
             (chain_pools T (Z.to_nat (chunks_per_page T - 1)) (mem s)
                (allocate_ (calls s) kPageSize))).
  rewrite chain_pools_last. rewrite Z2Nat.id by lia. reflexivity.
Qed.

Lemma AllocSubPool_rest (s : Pool) :
  fst (AllocSubPool T allocate_ s) = allocate_ (calls s) kPageSize /\
  cur_pool_ (snd (AllocSubPool T allocate_ s)) = cur_pool_ s /\
  calls (snd (AllocSubPool T allocate_ s))
  = calls s ++ [CallAllocate kPageSize].
Proof.
  unfold AllocSubPool.
  destruct (sizeT T =? 1); [|repeat split].
  destruct (chain_pools T _ (mem s) _). repeat split.
Qed.

(** [AllocSubPool] asks the strategy for one page, marks the free list of
    each chunk it sets up in the page as empty, and writes nothing but
    [free_idx] and [next_pool] fields. *)
Lemma AllocSubPool_spec (s : Pool) :
  let p := allocate_ (calls s) kPageSize in
  let s' := snd (AllocSubPool T allocate_ s) in
  fst (AllocSubPool T allocate_ s) = p /\
  cur_pool_ s' = cur_pool_ s /\
  calls s' = calls s ++ [CallAllocate kPageSize] /\
  (forall x, ~ header_link_byte T p x -> mem s' x = mem s x) /\
  (forall k, 0 <= k < chunks_per_page T ->
     free_idx (mem s') (p + k * ss) = kInvalidIdx).
Proof.
  intros p s'. subst s'.
  destruct (AllocSubPool_rest s) as (H1 & H2 & H3).
  split; [exact H1|]. split; [exact H2|]. split; [exact H3|].
  rewrite AllocSubPool_mem. fold p.
  pose proof subpool_size_range as Hss.
  pose proof chunks_per_page_range as Hn.
  destruct (Z.eq_dec (sizeT T) 1) as [E1|E1].
  - rewrite (proj2 (Z.eqb_eq _ _) E1).
    set (n := chunks_per_page T) in *.
    split.
    + intros x Hx. unfold set_free_idx. rewrite store_outside.
      * apply chain_pools_frame. intros k Hk Hin.
        rewrite Z2Nat.id in Hk by lia.
        apply Hx. exists k. split; [fold n; lia|].
        destruct Hin as [Hin|Hin]; [left; exact Hin|].
        right. fold n. repeat split; lia.
      * assert (Hnx : ~ (p + (n - 1) * ss <= x < p + (n - 1) * ss + 2)).
        { intros Hin. apply Hx. exists (n - 1). split; [fold n; lia|].
          now left. }
        change (Z.of_nat 2) with 2. lia.
    + intros k Hk.
      destruct (Z.eq_dec k (n - 1)) as [->|Hne].
      * unfold free_idx, set_free_idx. apply load2_store2_same.
      * unfold free_idx at 1. unfold set_free_idx.
        rewrite load_store_other by (change (Z.of_nat 2) with 2; nia).
        apply chain_pools_free_idx. rewrite Z2Nat.id by lia. lia.
  - rewrite (proj2 (Z.eqb_neq _ _) E1).
    rewrite (chunks_per_page_other E1) in *.
    split.
    + intros x Hx. unfold set_free_idx. apply store_outside.
      assert (Hnx : ~ (p + 0 * ss <= x < p + 0 * ss + 2)).
      { intros Hin. apply Hx. exists 0.
        rewrite (chunks_per_page_other E1). split; [lia|]. now left. }
      change (Z.of_nat 2) with 2. lia.
    + intros k Hk. replace k with 0 by lia.
      replace (p + 0 * ss) with p by lia.
      unfold free_idx, set_free_idx. apply load2_store2_same.
Qed.

(** The [begin_idx] and [used_count] bytes of a chunk of the page are not
    among the bytes [AllocSubPool] writes. *)
Lemma counters_not_link_bytes (p k x : Z) :
  0 <= k < chunks_per_page T ->
  p + k * ss + 2 <= x < p + k * ss + 6 ->
  ~ header_link_byte T p x.
Proof.
  intros Hk Hx (j & Hj & Hin).
  pose proof subpool_size_range as Hss.
  destruct (Z.lt_trichotomy j k) as [Hlt|[->|Hgt]].
  - assert (j * ss + ss <= k * ss) by nia. lia.
  - lia.
  - assert (k * ss + ss <= j * ss) by nia. lia.
Qed.

Lemma link_byte_in_page (p x : Z) :
  header_link_byte T p x -> p <= x < p + 4096.
Proof.
  intros (k & Hk & Hin).
  pose proof subpool_size_range as Hss.
  pose proof chunks_per_page_range as Hn.
  assert (k * ss + ss <= chunks_per_page T * ss) by nia.
  lia.
Qed.

Lemma link_byte_first_chunk (p x : Z) :
  sizeT T <> 1 -> header_link_byte T p x -> p <= x < p + 2.
Proof.
  intros Hne (k & Hk & Hin). unfold chunks_per_page in Hk.
  apply Z.eqb_neq in Hne. rewrite Hne in Hk.
  apply Z.eqb_neq in Hne.
  assert (k = 0) by lia. subst k. lia.
Qed.

(** [Allocate] depends on the Pool only through what its first two
    statements make of it. *)
Lemma Allocate_prefix (s s2 : Pool) :
  advance_if_full T allocate_ (ensure_current T allocate_ s) = s2 ->
  cur_pool_ s2 <> 0 ->
  used_count (mem s2) (cur_pool_ s2) <> cc ->
  Allocate T allocate_ s = Allocate T allocate_ s2.
Proof.
  intros H Hc Hu. unfold Allocate.
  rewrite H, (Allocate_ready s2 Hc Hu). reflexivity.
Qed.

(** A Pool without a current chunk acquires one. *)
Lemma ensure_current_fresh (s : Pool) :
  cur_pool_ s = 0 ->
  let p := allocate_ (calls s) kPageSize in
  let s1 := ensure_current T allocate_ s in
  cur_pool_ s1 = p /\
  calls s1 = calls s ++ [CallAllocate kPageSize] /\
  free_idx (mem s1) p = kInvalidIdx /\
  begin_idx (mem s1) p = begin_idx (mem s) p /\
  used_count (mem s1) p = used_count (mem s) p /\
  (forall x, ~ header_link_byte T p x -> mem s1 x = mem s x).
Proof.
  intros Hc p s1. subst s1. unfold ensure_current.
  rewrite Hc. cbn [Z.eqb].
  destruct (AllocSubPool_spec s) as (Hp & _ & Hl & Hfr & Hfree).
  fold p in Hp, Hfr, Hfree.
  destruct (AllocSubPool T allocate_ s) as [q s'] eqn:E.
  cbn [fst snd] in *. subst q. unfold set_cur. cbn [cur_pool_ mem calls].
  pose proof chunks_per_page_range as Hn.
  repeat split; try assumption.
  - specialize (Hfree 0 ltac:(lia)).
    now replace (p + 0 * ss) with p in Hfree by lia.
  - unfold begin_idx. apply load_ext. intros x Hx. apply Hfr.
    apply (counters_not_link_bytes p 0 x); simpl Z.of_nat in *; lia.
  - unfold used_count. apply load_ext. intros x Hx. apply Hfr.
    apply (counters_not_link_bytes p 0 x); simpl Z.of_nat in *; lia.
Qed.

(** The first [k] allocations of a Pool that has no chunk yet: all come
    from the chunk acquired by the first of them. *)
Lemma fill_fresh (s : Pool) (k : nat) :
  cur_pool_ s = 0 ->
  let p := allocate_ (calls s) kPageSize in
  page_aligned p ->
  begin_idx (mem s) p = 0 -> used_count (mem s) p = 0 ->
  (1 <= k)%nat -> Z.of_nat k <= cc ->
  let r := allocate_n T allocate_ k s in
  fst r = slot_range T p 0 k /\
  cur_pool_ (snd r) = p /\
  calls (snd r) = calls s ++ [CallAllocate kPageSize] /\
  used_count (mem (snd r)) p = Z.of_nat k /\
  begin_idx (mem (snd r)) p = Z.of_nat k /\
  free_idx (mem (snd r)) p = kInvalidIdx /\
  (forall x, ~ (p <= x < p + 4096) -> mem (snd r) x = mem s x) /\
  (sizeT T <> 1 -> next_pool (mem (snd r)) p = next_pool (mem s) p).
Proof.
  intros Hc p Hp Hb Hu Hk1 Hk r. subst r.
  destruct (ensure_current_fresh s Hc) as (Hc1 & Hl1 & Hf1 & Hb1 & Hu1 & Hfr1).
  fold p in Hc1, Hf1, Hb1, Hu1, Hfr1.
  set (s1 := ensure_current T allocate_ s) in *.
  destruct layout_facts as (_ & Hcc & _).
  assert (Hpz : p <> 0) by (destruct Hp; lia).
  assert (Hsame : allocate_n T allocate_ k s = allocate_n T allocate_ k s1).
  { destruct k as [|k]; [lia|]. cbn [allocate_n].
    rewrite (Allocate_prefix s s1); [reflexivity| | |].
    - apply advance_if_full_not_full. fold s1. rewrite Hc1, Hu1, Hu. lia.
    - now rewrite Hc1.
    - rewrite Hc1, Hu1, Hu. lia. }
  rewrite Hsame.
  destruct (bump_run k s1 p 0 0 Hc1 Hpz ltac:(congruence) ltac:(congruence)
              Hf1 ltac:(lia) ltac:(lia))
    as (Hps & Hc2 & Hl2 & Hu2 & Hb2 & Hf2 & Hfr2).
  repeat split; try assumption.
  - congruence.
  - intros x Hx. rewrite Hfr2 by lia. apply Hfr1.
    intros Hin. apply link_byte_in_page in Hin. lia.
  - intros Hne. unfold next_pool. apply load_ext. intros x Hx.
    rewrite Hfr2 by lia. apply Hfr1.
    intros Hin. apply (link_byte_first_chunk p x Hne) in Hin.
    simpl Z.of_nat in Hx. lia.
Qed.

(** A full current chunk without successor makes [Allocate] acquire a new
    chunk and bump its first slot. *)
Lemma Allocate_new_chunk (s : Pool) (c : Z) :
  cur_pool_ s = c -> c <> 0 ->
  used_count (mem s) c = cc -> next_pool (mem s) c = 0 ->
  let p := allocate_ (calls s) kPageSize in
  page_aligned p ->
  begin_idx (mem s) p = 0 -> used_count (mem s) p = 0 ->
  let r := Allocate T allocate_ s in
  fst r = usable_mems T p 0 /\
  cur_pool_ (snd r) = p /\
  calls (snd r) = calls s ++ [CallAllocate kPageSize] /\
  used_count (mem (snd r)) p = 1 /\
  begin_idx (mem (snd r)) p = 1 /\
  free_idx (mem (snd r)) p = kInvalidIdx /\
  (forall x, ~ (p <= x < p + 4096) -> mem (snd r) x = mem s x).
Proof.
  intros Hc Hcz Hu Hn p Hp Hb0 Hu0 r. subst r.
  destruct (ensure_current_fresh (mkPool 0 (mem s) (calls s)) eq_refl)
    as (Hc1 & Hl1 & Hf1 & Hb1 & Hu1 & Hfr1).
  cbn [mem calls] in *. fold p in Hc1, Hf1, Hb1, Hu1, Hfr1.
  set (s1 := ensure_current T allocate_ (mkPool 0 (mem s) (calls s))) in *.
  destruct layout_facts as (_ & Hcc & _).
  assert (Hpz : p <> 0) by (destruct Hp; lia).
  assert (Hadv : advance_if_full T allocate_ (ensure_current T allocate_ s)
                 = s1).
  { unfold ensure_current at 1. apply Z.eqb_neq in Hcz.
    rewrite Hc, Hcz. unfold advance_if_full, IsFull.
    rewrite Hc, Hu, Z.eqb_refl, Hn. cbn [Z.eqb].
    subst s1. unfold ensure_current. cbn [cur_pool_ Z.eqb].
    unfold AllocSubPool. cbn [cur_pool_ mem calls].
    destruct (sizeT T =? 1); [|reflexivity].
    destruct (chain_pools T _ (mem s) _); reflexivity. }
  rewrite (Allocate_prefix s s1 Hadv)
    by (rewrite ?Hc1, ?Hu1, ?Hu0; lia).
  destruct (Allocate_bump_fields s1 p 0 0 Hc1 Hpz ltac:(congruence)
              ltac:(lia) ltac:(congruence) Hf1)
    as (Hr & Hc2 & Hl2 & Hu2 & Hb2 & Hf2 & Hfr2).
  repeat split; try assumption.
  - congruence.
  - intros x Hx. rewrite Hfr2 by lia. apply Hfr1.
    intros Hin. apply link_byte_in_page in Hin. lia.
Qed.

(** *** Free-list reuse *)

(** The free-list path of [Allocate], stated on the chunk that is current
    once the first two statements have run. *)
Lemma Allocate_pops_head (s : Pool) :
  let s2 := advance_if_full T allocate_ (ensure_current T allocate_ s) in
  let c := cur_pool_ s2 in
  free_idx (mem s2) c <> kInvalidIdx ->
  fst (Allocate T allocate_ s) = usable_mems T c (free_idx (mem s2) c) /\
  cur_pool_ (snd (Allocate T allocate_ s)) = c /\
  free_idx (mem (snd (Allocate T allocate_ s))) c
    = next_idx T (mem s2) (usable_mems T c (free_idx (mem s2) c)).
Proof.
  intros s2 c Hf. unfold Allocate. fold s2. fold c.
  set (m := set_used_count (mem s2) c (used_count (mem s2) c + 1)).
  assert (Hfm : free_idx m c = free_idx (mem s2) c).
  { subst m. fields. mem_simp. reflexivity. }
  assert (Hv : IsFreeIdxValid m c = true).
  { unfold IsFreeIdxValid. rewrite Hfm.
    apply Z.eqb_neq in Hf. now rewrite Hf. }
  rewrite Hv. unfold FreeMem. rewrite Hfm. cbn [fst snd cur_pool_ mem].
  repeat split.
  pose proof (slot_lower c (free_idx (mem s2) c) (proj1 (load2_range _ _)))
    as Hlo.
  pose proof (link_bytes_range T) as Hl.
  set (a := usable_mems T c (free_idx (mem s2) c)) in *.
  assert (Hlink : next_idx T m a = next_idx T (mem s2) a).
  { subst m. fields. mem_simp. reflexivity. }
  rewrite Hlink.
  pose proof (load_range (link_bytes T) (mem s2) a) as Hr.
  fold (next_idx T (mem s2) a) in Hr.
  assert (256 ^ Z.of_nat (link_bytes T) <= 65536).
  { change 65536 with (256 ^ 2). apply Z.pow_le_mono_r; lia. }
  unfold free_idx at 1, set_free_idx. mem_simp.
  apply Z.mod_small. lia.
Qed.

(** A slot released into a chunk that [Allocate] draws from next is the
    slot the next [Allocate] returns. *)
Lemma Deallocate_then_Allocate (s : Pool) (X i p : Z) :
  page_aligned X -> slot_at T X i p ->
  2 <= used_count (mem s) X <= cc ->
  used_count (mem s) X = cc \/ cur_pool_ s = X ->
  fst (Allocate T allocate_ (Deallocate T s p)) = p.
Proof.
  intros HX Hs Hu Hcur.
  rewrite (Deallocate_slot s X i p HX Hs).
  destruct (splice_fields s X) as (Hc1 & Hl1 & Hfr1).
  set (s1 := splice_if_full T s X) in *.
  assert (Hu1 : used_count (mem s1) X = used_count (mem s) X).
  { unfold used_count. apply load_ext. intros x Hx. apply Hfr1.
    simpl Z.of_nat in Hx. lia. }
  assert (HcX : cur_pool_ s1 = X).
  { rewrite Hc1. destruct (used_count (mem s) X =? cc) eqn:E; [reflexivity|].
    apply Z.eqb_neq in E. destruct Hcur; [contradiction|assumption]. }
  destruct Hs as (Hi & Hpa).
  pose proof (slot_bounds X i Hi) as (Hlo & Hhi). rewrite <- Hpa in Hlo, Hhi.
  destruct layout_facts as (_ & Hcc & _).
  destruct (release_push s1 X p i (used_count (mem s) X) Hlo Hu1
              ltac:(lia) ltac:(lia))
    as (Hc2 & Hl2 & Hu2 & Hf2 & _).
  set (s2 := release_chip T s1 X p i) in *.
  assert (HX0 : X <> 0) by (destruct HX; lia).
  rewrite Allocate_pop.
  - cbn [fst]. rewrite Hc2, HcX, Hf2. now rewrite Hpa.
  - rewrite Hc2, HcX. assumption.
  - rewrite Hc2, HcX, Hu2. lia.
  - rewrite Hc2, HcX, Hf2, kInvalidIdx_eq. lia.
Qed.

(** *** Releasing every slot of a chunk *)

Lemma deallocate_all_cons (p : Z) (ps : list Z) (s : Pool) :
  deallocate_all T (p :: ps) s = deallocate_all T ps (Deallocate T s p).
Proof. reflexivity. Qed.

(** Releasing, in any order, as many slots of the chunk at [X] as it has
    live objects leaves the chunk reset, and current when it was full or
    current before. *)
Lemma free_all_run (ps : list Z) : forall (s : Pool) (X : Z),
  page_aligned X ->
  (forall p, In p ps -> slot_of T X p) ->
  used_count (mem s) X = Z.of_nat (length ps) ->
  (1 <= length ps)%nat -> Z.of_nat (length ps) <= cc ->
  used_count (mem s) X = cc \/ cur_pool_ s = X ->
  let s' := deallocate_all T ps s in
  cur_pool_ s' = X /\ calls s' = calls s /\
  used_count (mem s') X = 0 /\
  free_idx (mem s') X = kInvalidIdx /\
  begin_idx (mem s') X = 0 /\
  (forall x, ~ (X <= x < X + 4096) -> mem s' x = mem s x).
Proof.
  induction ps as [|p ps IH]; intros s X HX Hin Hu Hlen Hcc Hcur;
    [cbn in Hlen; lia|].
  rewrite deallocate_all_cons.
  destruct (Hin p (or_introl eq_refl)) as (i & Hs).
  rewrite (Deallocate_slot s X i p HX Hs).
  destruct (splice_fields s X) as (Hc1 & Hl1 & Hfr1).
  set (s1 := splice_if_full T s X) in *.
  assert (Hu1 : used_count (mem s1) X = used_count (mem s) X).
  { unfold used_count. apply load_ext. intros x Hx. apply Hfr1.
    simpl Z.of_nat in Hx. lia. }
  assert (HcX : cur_pool_ s1 = X).
  { rewrite Hc1. destruct (used_count (mem s) X =? cc) eqn:E; [reflexivity|].
    apply Z.eqb_neq in E. destruct Hcur; [contradiction|assumption]. }
  destruct Hs as (Hi & Hpa).
  pose proof (slot_bounds X i Hi) as (Hlo & Hhi). rewrite <- Hpa in Hlo, Hhi.
  pose proof (link_bytes_range T) as Hlb.
  destruct layout_facts as (_ & Hccr & _).
  destruct ps as [|q ps].
  - cbn [length] in Hu. unfold deallocate_all. cbn [fold_left].
    destruct (release_last s1 X p i ltac:(rewrite Hu1, Hu; reflexivity))
      as (Hc2 & Hl2 & Hu2 & Hf2 & Hb2 & Hfr2).
    repeat split; try assumption; try congruence.
    intros x Hx. rewrite Hfr2, Hfr1 by lia. reflexivity.
  - cbn [length] in Hu, Hcc.
    destruct (release_push s1 X p i (used_count (mem s) X) Hlo Hu1
                ltac:(lia) ltac:(lia))
      as (Hc2 & Hl2 & Hu2 & Hf2 & Hb2 & _ & Hfr2).
    set (s2 := release_chip T s1 X p i) in *.
    assert (Hu2' : used_count (mem s2) X = Z.of_nat (length (q :: ps))).
    { rewrite Hu2, Hu. cbn [length]. lia. }
    assert (Hcur2 : used_count (mem s2) X = cc \/ cur_pool_ s2 = X).
    { right. congruence. }
    destruct (IH s2 X HX (fun r Hr => Hin r (or_intror Hr)) Hu2'
                ltac:(cbn [length]; lia) ltac:(cbn [length]; lia) Hcur2)
      as (Hc3 & Hl3 & Hu3 & Hf3 & Hb3 & Hfr3).
    repeat split; try assumption; try congruence.
    intros x Hx. rewrite Hfr3, Hfr2, Hfr1 by lia. reflexivity.
Qed.

(** After such a reset the next [Allocate] bumps slot 0 of the chunk. *)
Lemma Allocate_after_reset (s : Pool) (X : Z) :
  cur_pool_ s = X -> X <> 0 ->
  used_count (mem s) X = 0 -> begin_idx (mem s) X = 0 ->
  free_idx (mem s) X = kInvalidIdx ->
  fst (Allocate T allocate_ s) = usable_mems T X 0 /\
  cur_pool_ (snd (Allocate T allocate_ s)) = X /\
  begin_idx (mem (snd (Allocate T allocate_ s))) X = 1 /\
  used_count (mem (snd (Allocate T allocate_ s))) X = 1 /\
  free_idx (mem (snd (Allocate T allocate_ s))) X = kInvalidIdx.
Proof.
  intros Hc HX Hu Hb Hf.
  destruct layout_facts as (_ & Hcc & _).
  destruct (Allocate_bump_fields s X 0 0 Hc HX Hu ltac:(lia) Hb Hf)
    as (Hr & Hc1 & _ & Hu1 & Hb1 & Hf1 & _).
  repeat split; assumption.
Qed.

(** The slots [slot_range] lists are slots of the chunk. *)
Lemma slot_range_slots (n : nat) : forall (X i p : Z),
  0 <= i -> i + Z.of_nat n <= cc ->
  In p (slot_range T X i n) -> slot_of T X p.
Proof.
  induction n as [|n IH]; intros X i p Hi Hn Hin; [destruct Hin|].
  cbn [slot_range] in Hin. destruct Hin as [<-|Hin].
  - exists i. split; [lia|reflexivity].
  - apply (IH X (i + 1) p); [lia|lia|assumption].
Qed.

Lemma slot_range_length (n : nat) : forall (X i : Z),
  length (slot_range T X i n) = n.
Proof.
  induction n as [|n IH]; intros X i; cbn [slot_range length];
    [reflexivity|]. now rewrite IH.
Qed.

End Steps.

(** ** Where masking a slot pointer leads *)

(** For a chunk at a page boundary, masking any of its slot pointers gives
    the chunk back.  This covers every chunk of a Pool whose objects are
    larger than one byte, and the first chunk of each page otherwise. *)
Lemma mask_recovers_page_chunk (T : ObjType) (X p : Z) :
  layout_ok T = true -> page_aligned X -> slot_of T X p -> pool_of p = X.
Proof.
  intros HT HX (i & Hs). exact (pool_of_slot T HT X i p HX Hs).
Qed.

(** C1 (the code departs from the claim for one-byte objects).  A Pool of
    one-byte objects packs eight chunks of 512 bytes into each page.  Its
    497th allocation is served by the second chunk of the first page, and
    clearing the low twelve bits of the returned pointer yields the first
    chunk of the page, not the chunk that produced the slot. *)
Theorem one_byte_slot_masks_to_other_chunk :
  subpool_size T_char = 512 /\ chunks_per_page T_char = 8 /\
  chip_count T_char = 496 /\
  let '(ps, s) := allocate_n T_char pages 496 (Pool_new zero_mem) in
  let '(p, s') := Allocate T_char pages s in
  ps = slot_range T_char page0 0 496 /\
  cur_pool_ s = page0 /\ cur_pool_ s' = page0_chunk1 /\
  p = usable_mems T_char page0_chunk1 0 /\
  used_count (mem s) page0_chunk1 = 0 /\
  used_count (mem s') page0_chunk1 = 1 /\
  used_count (mem s') page0 = used_count (mem s) page0 /\
  pool_of p = page0 /\
  pool_of p <> page0_chunk1.
Proof.
  vm_compute. repeat split; discriminate.
Qed.

(** ** A full successor chunk *)

(** The step behind the two runs below, in any state: when the current
    chunk is full, [Allocate] adopts its successor as it is, and a
    successor that is full as well is counted up past [chip_count]. *)
Lemma Allocate_overfills_full_successor (T : ObjType)
    (allocate_ : AllocFunc) (s : Pool) (n : Z) :
  layout_ok T = true ->
  cur_pool_ s <> 0 ->
  used_count (mem s) (cur_pool_ s) = chip_count T ->
  next_pool (mem s) (cur_pool_ s) = n -> n <> 0 ->
  used_count (mem s) n = chip_count T ->
  cur_pool_ (snd (Allocate T allocate_ s)) = n /\
  used_count (mem (snd (Allocate T allocate_ s))) n = chip_count T + 1.
Proof.
  intros HT Hc Hu Hn Hn0 Hun.
  destruct (layout_facts T HT) as (_ & Hcc & _).
  unfold Allocate.
  assert (H1 : ensure_current T allocate_ s = s).
  { unfold ensure_current. apply Z.eqb_neq in Hc. now rewrite Hc. }
  assert (H2 : advance_if_full T allocate_ s = set_cur s n).
  { unfold advance_if_full, IsFull. rewrite Hu, Z.eqb_refl, Hn.
    apply Z.eqb_neq in Hn0. now rewrite Hn0. }
  rewrite H1, H2. cbn [set_cur cur_pool_ mem calls]. rewrite Hun.
  destruct (IsFreeIdxValid _ _); cbn [snd cur_pool_ mem];
    (split; [reflexivity|]); fields; mem_simp; apply Z.mod_small; lia.
Qed.

(** C2 (the code departs from the claim).  With objects of 2040 bytes a
    chunk has two slots.  In the run [overfill], which only releases
    pointers the client holds, both chunks end up full with the second
    linked behind the first; the next [Allocate] moves to the second chunk
    without looking at its count, takes the bump path with [begin_idx]
    equal to [chip_count], and returns the address one past the slot
    array, which is the first byte after the chunk's page. *)
Theorem Allocate_bumps_past_last_slot :
  let a0 := usable_mems T_blob2040 page0 0 in
  let ops := overfill 2 a0 in
  let s := run T_blob2040 pages ops (Pool_new zero_mem) in
  let '(p, s') := Allocate T_blob2040 pages s in
  layout_ok T_blob2040 = true /\ is_valid_chip_v x64 T_blob2040 = true /\
  chip_count T_blob2040 = 2 /\
  respects T_blob2040 pages (ops ++ [OpAllocate]) (Pool_new zero_mem) []
    = true /\
  returned T_blob2040 pages ops (Pool_new zero_mem)
    = [a0; usable_mems T_blob2040 page0 1;
       usable_mems T_blob2040 page1 0; a0;
       usable_mems T_blob2040 page1 1; a0] /\
  cur_pool_ s = page0 /\ IsFull T_blob2040 (mem s) page0 = true /\
  next_pool (mem s) page0 = page1 /\
  IsFull T_blob2040 (mem s) page1 = true /\
  IsFreeIdxValid (mem s) page1 = false /\
  IsNotBeginInEnd T_blob2040 (mem s) page1 = false /\
  cur_pool_ s' = page1 /\
  p = usable_mems T_blob2040 page1 (chip_count T_blob2040) /\
  p = page1 + kPageSize /\
  calls s' = calls s.
Proof.
  vm_compute. repeat split.
Qed.

(** C3 (the code departs from the claim).  The same run for 8-byte
    objects, whose chunks have 510 slots: after it the next [Allocate]
    raises the [used_count] of the second chunk from [chip_count] to
    [chip_count + 1], and its [begin_idx] likewise. *)
Theorem Allocate_counts_past_chip_count :
  let a0 := usable_mems T_u64 page0 0 in
  let ops := overfill 510 a0 in
  let s := run T_u64 pages ops (Pool_new zero_mem) in
  let s' := snd (Allocate T_u64 pages s) in
  layout_ok T_u64 = true /\ is_valid_chip_v x64 T_u64 = true /\
  chip_count T_u64 = 510 /\
  respects T_u64 pages (ops ++ [OpAllocate]) (Pool_new zero_mem) [] = true /\
  cur_pool_ s = page0 /\ used_count (mem s) page0 = 510 /\
  next_pool (mem s) page0 = page1 /\
  used_count (mem s) page1 = 510 /\
  cur_pool_ s' = page1 /\
  used_count (mem s') page1 = 511 /\
  begin_idx (mem s') page1 = 511 /\
  chip_count T_u64 < used_count (mem s') page1.
Proof.
  vm_compute. repeat split.
Qed.

(** ** Capacity of a chunk of 8-byte objects *)

Lemma load_zero (n : nat) : forall (m : Mem) (a : Z),
  (forall x, a <= x < a + Z.of_nat n -> m x = 0) -> load n m a = 0.
Proof.
  induction n as [|n IH]; intros m a H; [reflexivity|].
  rewrite load_S. rewrite (H a) by lia.
  rewrite IH; [reflexivity|].
  intros x Hx. apply H. lia.
Qed.

(** The header fields of a chunk at the start of a zeroed page. *)
Lemma zero_page_header (m : Mem) (p : Z) :
  zero_page m p ->
  free_idx m p = 0 /\ begin_idx m p = 0 /\ used_count m p = 0 /\
  next_pool m p = 0.
Proof.
  intros Hz. unfold zero_page in Hz. rewrite kPageSize_eq in Hz.
  fields. repeat split; apply load_zero; intros x Hx; apply Hz;
    simpl Z.of_nat in Hx; lia.
Qed.

(** Two distinct pages do not overlap. *)
Lemma pages_apart (p q : Z) :
  page_aligned p -> page_aligned q -> p <> q ->
  p + 4096 <= q \/ q + 4096 <= p.
Proof.
  intros (_ & Hp & _) (_ & Hq & _) Hne. rewrite kPageSize_eq in *.
  pose proof (Z.div_mod p 4096 ltac:(lia)).
  pose proof (Z.div_mod q 4096 ltac:(lia)). lia.
Qed.

(** On each of the targets the source distinguishes, the header has 12 or
    16 bytes and a chunk of 8-byte objects has 510 slots. *)
Lemma chip_count_u64_every_target :
  (sizeof_Header x64 T_u64, kChipCount x64 T_u64) = (16, 510) /\
  (sizeof_Header win32 T_u64, kChipCount win32 T_u64) = (16, 510) /\
  (sizeof_Header ilp32 T_u64, kChipCount ilp32 T_u64) = (12, 510).
Proof. repeat split. Qed.

(** C4, as the spec states it, fails: the header of a chunk of 8-byte
    objects is 16 bytes, not 24, and the chunk has 510 slots, not 509.
    After 509 allocations the chunk is not full, and the 510th allocation
    is served by the same chunk. *)
Lemma chip_count_u64_is_not_509 :
  sizeof_Header x64 T_u64 <> 24 /\ kChipCount x64 T_u64 <> 509 /\
  let '(ps, s) := allocate_n T_u64 pages 509 (Pool_new zero_mem) in
  let '(p, s') := Allocate T_u64 pages s in
  ps = slot_range T_u64 page0 0 509 /\
  IsFull T_u64 (mem s) page0 = false /\
  p = usable_mems T_u64 page0 509 /\ pool_of p = page0 /\
  cur_pool_ s' = page0.
Proof.
  vm_compute. repeat split; discriminate.
Qed.

(** C4 (amended).  For 8-byte objects the header is 16 bytes, the usable
    payload 4080 bytes and [chip_count] is 510.  Starting from a Pool
    without chunks, whose strategy returns distinct zeroed pages, the 1st
    through 510th [Allocate] return the slots 0 to 509 of one chunk, that
    chunk is full after the 510th call and not before, and the 511th call
    returns a slot of a different chunk. *)
Theorem capacity_u64 (allocate_ : AllocFunc) (m0 : Mem) :
  let P0 := allocate_ [] kPageSize in
  let P1 := allocate_ [CallAllocate kPageSize] kPageSize in
  page_aligned P0 -> page_aligned P1 -> P0 <> P1 ->
  zero_page m0 P0 -> zero_page m0 P1 ->
  sizeof_Header x64 T_u64 = 16 /\ kUsableSize x64 T_u64 = 4080 /\
  kChipCount x64 T_u64 = 510 /\
  (forall k : nat, (1 <= k <= 510)%nat ->
     let r := allocate_n T_u64 allocate_ k (Pool_new m0) in
     fst r = slot_range T_u64 P0 0 k /\
     (forall p, In p (fst r) -> pool_of p = P0) /\
     cur_pool_ (snd r) = P0 /\
     used_count (mem (snd r)) P0 = Z.of_nat k /\
     IsFull T_u64 (mem (snd r)) P0 = (k =? 510)%nat) /\
  (let s := snd (allocate_n T_u64 allocate_ 510 (Pool_new m0)) in
   let r := Allocate T_u64 allocate_ s in
   fst r = usable_mems T_u64 P1 0 /\
   pool_of (fst r) = P1 /\ pool_of (fst r) <> P0 /\
   cur_pool_ (snd r) = P1).
Proof.
  intros P0 P1 HP0 HP1 Hne Hz0 Hz1.
  assert (HT : layout_ok T_u64 = true) by reflexivity.
  assert (Hcc : chip_count T_u64 = 510) by reflexivity.
  destruct (zero_page_header m0 P0 Hz0) as (_ & Hb0 & Hu0 & Hn0).
  destruct (zero_page_header m0 P1 Hz1) as (_ & Hb1 & Hu1 & _).
  pose proof (pages_apart P0 P1 HP0 HP1 Hne) as Hapart.
  assert (Hfill : forall k : nat, (1 <= k <= 510)%nat ->
            let r := allocate_n T_u64 allocate_ k (Pool_new m0) in
            fst r = slot_range T_u64 P0 0 k /\
            cur_pool_ (snd r) = P0 /\
            calls (snd r) = [CallAllocate kPageSize] /\
            used_count (mem (snd r)) P0 = Z.of_nat k /\
            (forall x, ~ (P0 <= x < P0 + 4096) -> mem (snd r) x = m0 x) /\
            next_pool (mem (snd r)) P0 = 0).
  { intros k Hk.
    destruct (fill_fresh T_u64 allocate_ HT (Pool_new m0) k eq_refl HP0
                Hb0 Hu0 ltac:(lia) ltac:(rewrite Hcc; lia))
      as (Hps & Hc & Hl & Hu & _ & _ & Hfr & Hnx).
    specialize (Hnx ltac:(discriminate)).
    cbn [calls Pool_new mem app] in Hps, Hc, Hl, Hu, Hfr, Hnx.
    fold P0 in Hps, Hc, Hu, Hfr, Hnx.
    cbv zeta. split; [exact Hps|]. split; [exact Hc|]. split; [exact Hl|].
    split; [exact Hu|]. split; [exact Hfr|]. rewrite Hnx. exact Hn0. }
  split; [reflexivity|]. split; [reflexivity|]. split; [reflexivity|].
  split.
  - intros k Hk. destruct (Hfill k Hk) as (Hps & Hc & _ & Hu & _).
    cbv zeta. split; [exact Hps|]. split; [|split; [exact Hc|split; [exact Hu|]]].
    + intros p Hin. rewrite Hps in Hin.
      apply (mask_recovers_page_chunk T_u64 P0 p HT HP0).
      apply (slot_range_slots T_u64 k P0 0 p); [lia|rewrite Hcc; lia|exact Hin].
    + unfold IsFull. rewrite Hu, Hcc.
      destruct (Nat.eqb_spec k 510) as [->|Hk'].
      * reflexivity.
      * apply Z.eqb_neq. lia.
  - destruct (Hfill 510%nat ltac:(lia)) as (_ & Hc & Hl & Hu & Hfr & Hnx).
    set (s := snd (allocate_n T_u64 allocate_ 510 (Pool_new m0))) in *.
    cbv zeta.
    assert (Hp1 : allocate_ (calls s) kPageSize = P1) by (rewrite Hl; reflexivity).
    assert (HP0z : P0 <> 0) by (destruct HP0; lia).
    assert (Hb1' : begin_idx (mem s) P1 = 0).
    { rewrite <- Hb1. unfold begin_idx. apply load_ext. intros x Hx.
      apply Hfr. simpl Z.of_nat in Hx. lia. }
    assert (Hu1' : used_count (mem s) P1 = 0).
    { rewrite <- Hu1. unfold used_count. apply load_ext. intros x Hx.
      apply Hfr. simpl Z.of_nat in Hx. lia. }
    destruct (Allocate_new_chunk T_u64 allocate_ HT s P0 Hc HP0z
                ltac:(rewrite Hu; reflexivity) Hnx
                ltac:(rewrite Hp1; exact HP1)
                ltac:(rewrite Hp1; exact Hb1')
                ltac:(rewrite Hp1; exact Hu1'))
      as (Hr & Hc' & _).
    rewrite Hp1 in Hr, Hc'.
    assert (Hmask : pool_of (usable_mems T_u64 P1 0) = P1).
    { apply (mask_recovers_page_chunk T_u64 P1 _ HT HP1).
      exists 0. split; [rewrite Hcc; lia|reflexivity]. }
    rewrite Hr. repeat split; try assumption.
    rewrite Hmask. congruence.
Qed.

(** Witness for C4 (amended): the strategy [pages] on zeroed memory. *)
Lemma capacity_u64_witness :
  (page_aligned page0 /\ page_aligned page1 /\ page0 <> page1 /\
   zero_page zero_mem page0 /\ zero_page zero_mem page1) /\
  pool_of
    (fst (Allocate T_u64 pages
            (snd (allocate_n T_u64 pages 510 (Pool_new zero_mem)))))
  = page1.
Proof.
  assert (H0 : page_aligned page0) by (repeat split; vm_compute; congruence).
  assert (H1 : page_aligned page1) by (repeat split; vm_compute; congruence).
  assert (Hne : page0 <> page1) by discriminate.
  assert (Hz0 : zero_page zero_mem page0) by (intros x _; reflexivity).
  assert (Hz1 : zero_page zero_mem page1) by (intros x _; reflexivity).
  split; [exact (conj H0 (conj H1 (conj Hne (conj Hz0 Hz1))))|].
  exact (proj1 (proj2 (proj2 (proj2 (proj2 (proj2
           (capacity_u64 pages zero_mem H0 H1 Hne Hz0 Hz1))))))).
Defined.

(** ** The free-list head *)

(** C5 (the code departs from the claim for one-byte objects).  The link
    field of a one-byte chip is 8 bits wide while chunks have 496 slots
    and the sentinel is 16 bits wide: the sentinel stored through the link
    field reads back as 255.  After two allocations, one release and one
    more allocation the free list is empty, yet [free_idx] is 255 and
    passes for a slot; the next allocations hand out slot 255 and then
    slot 0, which the client still holds.  And releasing a slot of the
    second chunk of a page stores, in the header of the first chunk, an
    index that is neither below [chip_count] nor the sentinel. *)
Theorem one_byte_free_idx_neither_slot_nor_sentinel :
  chip_count T_char = 496 /\ link_bytes T_char = 1%nat /\
  (forall (m : Mem) (chip : Z),
     next_idx T_char (set_next_idx T_char m chip kInvalidIdx) chip = 255) /\
  (let a := usable_mems T_char page0 0 in
   let ops := [OpAllocate; OpAllocate; OpDeallocate a; OpAllocate] in
   let s := run T_char pages ops (Pool_new zero_mem) in
   respects T_char pages (ops ++ [OpAllocate; OpAllocate])
     (Pool_new zero_mem) [] = true /\
   returned T_char pages ops (Pool_new zero_mem)
     = [a; usable_mems T_char page0 1; a] /\
   free_idx (mem s) page0 = 255 /\ IsFreeIdxValid (mem s) page0 = true /\
   returned T_char pages [OpAllocate; OpAllocate] s
     = [usable_mems T_char page0 255; a]) /\
  (let '(ps, s) := allocate_n T_char pages 497 (Pool_new zero_mem) in
   let p := nth 496 ps 0 in
   let s' := Deallocate T_char s p in
   p = usable_mems T_char page0_chunk1 0 /\
   free_idx (mem s) page0 = kInvalidIdx /\
   free_idx (mem s') page0 = 512 /\
   chip_count T_char <= free_idx (mem s') page0 /\
   free_idx (mem s') page0 <> kInvalidIdx).
Proof.
  split; [reflexivity|]. split; [reflexivity|]. split.
  - intros m chip. unfold next_idx, set_next_idx.
    rewrite load_store_same. reflexivity.
  - vm_compute. repeat split; discriminate.
Qed.

(** C6 (the code departs from the claim).  Recycling is not last-in
    first-out.  For one-byte objects the link of a free slot is 8 bits
    wide while a chunk has 496 slots, so the index 300 stored through it
    reads back as 44.  After 301 allocations and the release of slot 300
    and then of slot 10, the free list is 10, 300; [Allocate] returns
    slot 10 and makes 44 the free-list head; the next [Allocate] returns
    slot 44, which the client still holds, and not slot 300; the one after
    returns slot 0, held as well, and slot 300 is never handed out again
    by these calls.  And after the run [overfill], one more allocation and
    the release of slot 0 of the current chunk, that chunk has the slot at
    the head of its free list and counts as full: the next [Allocate]
    leaves it, acquires a new page and returns a slot of that page, not
    the slot just released. *)
Theorem free_list_not_last_in_first_out :
  chip_count T_char = 496 /\ link_bytes T_char = 1%nat /\
  (forall (m : Mem) (chip : Z),
     next_idx T_char (set_next_idx T_char m chip 300) chip = 44) /\
  (let slot := usable_mems T_char page0 in
   let ops := release_300_then_10 in
   let s := run T_char pages ops (Pool_new zero_mem) in
   respects T_char pages (ops ++ [OpAllocate; OpAllocate; OpAllocate])
     (Pool_new zero_mem) [] = true /\
   returned T_char pages ops (Pool_new zero_mem)
     = slot_range T_char page0 0 301 /\
   cur_pool_ s = page0 /\ IsFull T_char (mem s) page0 = false /\
   used_count (mem s) page0 = 299 /\
   free_idx (mem s) page0 = 10 /\
   next_idx T_char (mem s) (slot 10) = 44 /\
   returned T_char pages [OpAllocate; OpAllocate; OpAllocate] s
     = [slot 10; slot 44; slot 0] /\
   slot 44 <> slot 300 /\
   existsb (Z.eqb (slot 44))
     (filter (fun q => negb (q =? slot 300) && negb (q =? slot 10))
        (returned T_char pages ops (Pool_new zero_mem))) = true) /\
  (let b0 := usable_mems T_blob2040 page1 0 in
   let ops := overfill_then_release in
   let s := run T_blob2040 pages ops (Pool_new zero_mem) in
   let '(p, s') := Allocate T_blob2040 pages s in
   respects T_blob2040 pages (ops ++ [OpAllocate]) (Pool_new zero_mem) []
     = true /\
   cur_pool_ s = page1 /\
   free_idx (mem s) page1 = 0 /\ IsFreeIdxValid (mem s) page1 = true /\
   FreeMem T_blob2040 (mem s) page1 = b0 /\
   IsFull T_blob2040 (mem s) page1 = true /\
   next_pool (mem s) page1 = 0 /\
   calls s' = calls s ++ [CallAllocate kPageSize] /\
   cur_pool_ s' = page1 + kPageSize /\
   p = usable_mems T_blob2040 (page1 + kPageSize) 0 /\
   p <> b0).
Proof.
  split; [reflexivity|]. split; [reflexivity|]. split.
  - intros m chip. unfold next_idx, set_next_idx.
    rewrite load_store_same. reflexivity.
  - vm_compute. repeat split; discriminate.
Qed.

(** The scenario of three allocations A, B, C and the release of B, in
    the second chunk of a fresh page of one-byte objects.  The first chunk
    of the page is full, so the release is booked on it with index 513 and
    makes it current, and the next [Allocate] pops that index from the
    first chunk's header: the address it returns is B. *)
Example lifo_reuse_one_byte_second_chunk :
  let '(ps, s) := allocate_n T_char pages 499 (Pool_new zero_mem) in
  let B := usable_mems T_char page0_chunk1 1 in
  let s' := Deallocate T_char s B in
  skipn 496 ps = slot_range T_char page0_chunk1 0 3 /\
  cur_pool_ s = page0_chunk1 /\
  cur_pool_ s' = page0 /\ free_idx (mem s') page0 = 513 /\
  free_idx (mem s') page0_chunk1 = kInvalidIdx /\
  fst (Allocate T_char pages s') = B.
Proof.
  vm_compute. repeat split.
Qed.

(** ** Emptying a chunk *)

(** The reset of [Deallocate]: when the call takes the count of the chunk
    it recovers from 1 to 0, it leaves that chunk with an empty free list
    and its bump frontier at slot 0. *)
Lemma Deallocate_resets_empty_chunk (T : ObjType) (s : Pool) (p : Z) :
  used_count (mem s) (pool_of p) = 1 ->
  let s' := Deallocate T s p in
  used_count (mem s') (pool_of p) = 0 /\
  free_idx (mem s') (pool_of p) = kInvalidIdx /\
  begin_idx (mem s') (pool_of p) = 0.
Proof.
  intros Hu s'. subst s'. unfold Deallocate.
  set (X := pool_of p) in *.
  destruct (splice_fields T s X) as (_ & _ & Hfr).
  assert (Hu1 : used_count (mem (splice_if_full T s X)) X = 1).
  { rewrite <- Hu. unfold used_count. apply load_ext. intros x Hx.
    apply Hfr. simpl Z.of_nat in Hx. lia. }
  destruct (release_last T (splice_if_full T s X) X p (idx_of T p) Hu1)
    as (_ & _ & H1 & H2 & H3 & _).
  repeat split; assumption.
Qed.

(** Filling the first chunk of a Pool and releasing all its slots, in any
    order, resets the chunk, and the next [Allocate] bumps its slot 0. *)
Lemma fill_then_free_all (T : ObjType) (allocate_ : AllocFunc) (m0 : Mem)
    (ps : list Z) :
  layout_ok T = true ->
  let P := allocate_ [] kPageSize in
  let n := Z.to_nat (chip_count T) in
  let r := allocate_n T allocate_ n (Pool_new m0) in
  page_aligned P -> zero_page m0 P ->
  (forall p, In p ps <-> In p (fst r)) -> length ps = n ->
  let s' := deallocate_all T ps (snd r) in
  fst r = slot_range T P 0 n /\
  used_count (mem (snd r)) P = chip_count T /\
  used_count (mem s') P = 0 /\ free_idx (mem s') P = kInvalidIdx /\
  begin_idx (mem s') P = 0 /\ cur_pool_ s' = P /\
  fst (Allocate T allocate_ s') = usable_mems T P 0 /\
  begin_idx (mem (snd (Allocate T allocate_ s'))) P = 1.
Proof.
  intros HT P n r HP Hz Hin Hlen s'.
  destruct (layout_facts T HT) as (_ & Hcc & _).
  destruct (zero_page_header m0 P Hz) as (_ & Hb0 & Hu0 & _).
  assert (Hn : Z.of_nat n = chip_count T) by (subst n; lia).
  destruct (fill_fresh T allocate_ HT (Pool_new m0) n eq_refl HP Hb0 Hu0
              ltac:(lia) ltac:(lia))
    as (Hps & Hc & _ & Hu & _).
  fold r in Hps, Hc, Hu. cbn [calls Pool_new] in Hps, Hc, Hu.
  fold P in Hps, Hc, Hu.
  assert (Hslots : forall p, In p ps -> slot_of T P p).
  { intros p Hp. apply Hin in Hp. rewrite Hps in Hp.
    apply (slot_range_slots T n P 0 p); [lia|lia|exact Hp]. }
  destruct (free_all_run T HT ps (snd r) P HP Hslots
              ltac:(rewrite Hu, Hlen; reflexivity) ltac:(lia) ltac:(lia)
              ltac:(right; exact Hc))
    as (Hc' & _ & Hu' & Hf' & Hb' & _).
  fold s' in Hc', Hu', Hf', Hb'.
  assert (HP0 : P <> 0) by (destruct HP; lia).
  destruct (Allocate_after_reset T allocate_ HT s' P Hc' HP0 Hu' Hb' Hf')
    as (Hr & _ & Hb1 & _).
  rewrite Hu, Hn. repeat split; assumption.
Qed.

(** C7 (the code departs from the claim for one-byte objects).  Fill the
    first two chunks of a page of one-byte objects and release all 496
    slots of the second chunk.  Each release is booked on the first chunk
    of the page: in the end it is the first chunk that is reset, while the
    second still counts 496 live objects with its bump frontier at 496,
    and the next [Allocate] returns slot 0 of the first chunk, which the
    client still holds. *)
Theorem one_byte_second_chunk_never_reset :
  let '(ps, s) := two_full_char_chunks in
  let X := page0_chunk1 in
  let slots := slot_range T_char X 0 496 in
  let s' := deallocate_all T_char slots s in
  ps = slot_range T_char page0 0 496 ++ slots /\
  used_count (mem s) X = chip_count T_char /\
  used_count (mem s) page0 = chip_count T_char /\
  used_count (mem s') X = 496 /\ begin_idx (mem s') X = 496 /\
  used_count (mem s') page0 = 0 /\ begin_idx (mem s') page0 = 0 /\
  cur_pool_ s' = page0 /\
  fst (Allocate T_char pages s') = usable_mems T_char page0 0 /\
  fst (Allocate T_char pages s') <> usable_mems T_char X 0.
Proof.
  vm_compute. repeat split; discriminate.
Qed.

(** ** Rotation *)

(** Releasing a slot of a full chunk at a page boundary makes that chunk
    current, leaves every byte outside the chunk's page as it was, and
    the next [Allocate] returns the released slot. *)
Lemma free_from_full_rotates (T : ObjType) (allocate_ : AllocFunc)
    (s : Pool) (X i p : Z) :
  layout_ok T = true ->
  page_aligned X -> slot_at T X i p ->
  used_count (mem s) X = chip_count T ->
  let s' := Deallocate T s p in
  cur_pool_ s' = X /\
  used_count (mem s') X = chip_count T - 1 /\
  (forall x, ~ (X <= x < X + 4096) -> mem s' x = mem s x) /\
  fst (Allocate T allocate_ s') = p.
Proof.
  intros HT HX Hs Hu s'.
  destruct (layout_facts T HT) as (_ & Hcc & _).
  assert (HX0 : X <> 0) by (destruct HX; lia).
  pose proof (link_bytes_range T) as Hlb.
  assert (Hs' := Hs). destruct Hs' as (Hi & Hpa).
  pose proof (slot_bounds T HT X i Hi) as (Hlo & Hhi).
  rewrite <- Hpa in Hlo, Hhi.
  destruct (splice_fields T s X) as (Hc1 & _ & Hfr1).
  rewrite Hu, Z.eqb_refl in Hc1.
  assert (Hu1 : used_count (mem (splice_if_full T s X)) X = chip_count T).
  { rewrite <- Hu. unfold used_count. apply load_ext. intros x Hx.
    apply Hfr1. simpl Z.of_nat in Hx. lia. }
  assert (Hd : s' = release_chip T (splice_if_full T s X) X p i).
  { subst s'. apply (Deallocate_slot T HT s X i p HX Hs). }
  destruct (Z.eq_dec (chip_count T) 1) as [E|E].
  - destruct (release_last T (splice_if_full T s X) X p i
                ltac:(rewrite Hu1; exact E))
      as (Hc2 & _ & Hu2 & Hf2 & Hb2 & Hfr2).
    rewrite <- Hd in Hc2, Hu2, Hf2, Hb2, Hfr2.
    split; [congruence|]. split; [lia|]. split.
    + intros x Hx. rewrite Hfr2, Hfr1 by lia. reflexivity.
    + destruct (Allocate_after_reset T allocate_ HT s' X
                  ltac:(congruence) HX0 Hu2 Hb2 Hf2) as (Hr & _).
      rewrite Hr, Hpa. replace i with 0 by lia. reflexivity.
  - destruct (release_push T (splice_if_full T s X) X p i (chip_count T)
                Hlo Hu1 ltac:(lia) ltac:(lia))
      as (Hc2 & _ & Hu2 & _ & _ & _ & Hfr2).
    rewrite <- Hd in Hc2, Hu2, Hfr2.
    split; [congruence|]. split; [exact Hu2|]. split.
    + intros x Hx. rewrite Hfr2, Hfr1 by lia. reflexivity.
    + subst s'.
      apply (Deallocate_then_Allocate T allocate_ HT s X i p HX Hs);
        [lia|left; exact Hu].
Qed.

(** C8 (the code departs from the claim for one-byte objects).  In a
    page of one-byte objects let the first chunk and the second chunk X be
    full and the third chunk Y be current with one object.  Releasing
    slot 0 of X recovers the first chunk of the page instead of X: the
    first chunk becomes current and its [used_count], [free_idx] and
    [next_pool] change, while X is neither made current nor counted
    down. *)
Theorem one_byte_release_rotates_other_chunk :
  let '(ps, s) := two_full_char_chunks_and_one in
  let X := page0_chunk1 in
  let Y := page0_chunk2 in
  let p := usable_mems T_char X 0 in
  let s' := Deallocate T_char s p in
  nth 496 ps 0 = p /\ cur_pool_ s = Y /\
  IsFull T_char (mem s) X = true /\ IsFull T_char (mem s) Y = false /\
  (used_count (mem s) page0, free_idx (mem s) page0, next_pool (mem s) page0)
    = (496, kInvalidIdx, X) /\
  cur_pool_ s' = page0 /\ cur_pool_ s' <> X /\
  (used_count (mem s') page0, free_idx (mem s') page0,
   next_pool (mem s') page0)
    = (495, 512, Y) /\
  IsFull T_char (mem s') X = true.
Proof.
  vm_compute. repeat split; discriminate.
Qed.

(** ** Calls on the strategy *)

Lemma only_acquires_app (l1 l2 : list StrategyCall) :
  only_acquires l1 -> only_acquires l2 -> only_acquires (l1 ++ l2).
Proof. unfold only_acquires. intros H1 H2. apply Forall_app. now split. Qed.

Lemma only_acquires_one : only_acquires [CallAllocate kPageSize].
Proof. repeat constructor. Qed.

Section StrategyCalls.

Variable T : ObjType.
Variable allocate_ : AllocFunc.

Lemma AllocSubPool_acquires (s : Pool) :
  only_acquires (calls s) ->
  only_acquires (calls (snd (AllocSubPool T allocate_ s))).
Proof.
  intros H. destruct (AllocSubPool_rest T allocate_ s) as (_ & _ & ->).
  apply only_acquires_app; [exact H|exact only_acquires_one].
Qed.

Lemma ensure_current_acquires (s : Pool) :
  only_acquires (calls s) ->
  only_acquires (calls (ensure_current T allocate_ s)).
Proof.
  intros H. unfold ensure_current.
  destruct (cur_pool_ s =? 0); [|exact H].
  pose proof (AllocSubPool_acquires s H) as H'.
  destruct (AllocSubPool T allocate_ s) as [p s']. exact H'.
Qed.

Lemma advance_if_full_acquires (s : Pool) :
  only_acquires (calls s) ->
  only_acquires (calls (advance_if_full T allocate_ s)).
Proof.
  intros H. unfold advance_if_full.
  destruct (IsFull T (mem s) (cur_pool_ s)); [|exact H].
  destruct (next_pool (mem s) (cur_pool_ s) =? 0); [|exact H].
  pose proof (AllocSubPool_acquires s H) as H'.
  destruct (AllocSubPool T allocate_ s) as [p s']. exact H'.
Qed.

Lemma Allocate_acquires (s : Pool) :
  only_acquires (calls s) ->
  only_acquires (calls (snd (Allocate T allocate_ s))).
Proof.
  intros H. unfold Allocate.
  pose proof (advance_if_full_acquires _ (ensure_current_acquires s H)) as H'.
  destruct (IsFreeIdxValid _ _); exact H'.
Qed.

Lemma Deallocate_calls (s : Pool) (p : Z) :
  calls (Deallocate T s p) = calls s.
Proof.
  unfold Deallocate, release_chip, splice_if_full.
  destruct (IsFull T (mem s) (pool_of p));
    cbn [mem calls cur_pool_]; destruct (IsEmpty _ _); reflexivity.
Qed.

Lemma step_acquires (s : Pool) (o : Op) :
  only_acquires (calls s) -> only_acquires (calls (step T allocate_ s o)).
Proof.
  intros H. destruct o as [|p|]; cbn [step].
  - exact (Allocate_acquires s H).
  - now rewrite Deallocate_calls.
  - exact H.
Qed.

Lemma run_acquires (ops : list Op) : forall s : Pool,
  only_acquires (calls s) -> only_acquires (calls (run T allocate_ ops s)).
Proof.
  induction ops as [|o ops IH]; intros s H; [exact H|].
  apply (IH (step T allocate_ s o)). now apply step_acquires.
Qed.

End StrategyCalls.

(** C9.  Whatever a client does with a Pool, allocating, releasing any
    pointer, or destroying it, every call the Pool has made on its
    strategy is an acquisition of one page: it never calls the release
    operation. *)
Theorem never_releases (T : ObjType) (allocate_ : AllocFunc)
    (m : Mem) (ops : list Op) :
  only_acquires (calls (run T allocate_ ops (Pool_new m))) /\
  forall ptr, ~ In (CallDeallocate ptr)
                   (calls (run T allocate_ ops (Pool_new m))).
Proof.
  assert (H : only_acquires (calls (run T allocate_ ops (Pool_new m)))).
  { apply run_acquires. constructor. }
  split; [exact H|].
  intros ptr Hin. unfold only_acquires in H.
  rewrite Forall_forall in H. specialize (H _ Hin). discriminate H.
Qed.

(** ** What acquiring a chunk initialises *)

(** C10.  [AllocSubPool] writes only bytes of [free_idx] fields and, for
    one-byte objects, of the [next_pool] fields that chain the chunks of
    the page.  It leaves [begin_idx] and [used_count] of each chunk as the
    strategy's memory had them, so the new chunk has both at 0 exactly when
    the memory did, and the first slot a Pool hands out is the one the
    [begin_idx] found in that memory names. *)
Theorem AllocSubPool_writes_links_only (T : ObjType) (allocate_ : AllocFunc)
    (s : Pool) :
  layout_ok T = true ->
  let p := allocate_ (calls s) kPageSize in
  let s' := snd (AllocSubPool T allocate_ s) in
  fst (AllocSubPool T allocate_ s) = p /\
  (forall x, ~ header_link_byte T p x -> mem s' x = mem s x) /\
  (forall k, 0 <= k < chunks_per_page T ->
     let q := p + k * subpool_size T in
     free_idx (mem s') q = kInvalidIdx /\
     begin_idx (mem s') q = begin_idx (mem s) q /\
     used_count (mem s') q = used_count (mem s) q) /\
  (begin_idx (mem s') p = 0 /\ used_count (mem s') p = 0 <->
   begin_idx (mem s) p = 0 /\ used_count (mem s) p = 0) /\
  (cur_pool_ s = 0 -> used_count (mem s) p <> chip_count T ->
   fst (Allocate T allocate_ s) = usable_mems T p (begin_idx (mem s) p)) /\
  chunks_per_page T_char = 8.
Proof.
  intros HT p s'.
  destruct (AllocSubPool_spec T allocate_ HT s) as (Hp & _ & _ & Hfr & Hfree).
  fold p in Hp, Hfr, Hfree. fold s' in Hfr, Hfree.
  assert (Hcnt : forall k, 0 <= k < chunks_per_page T ->
            begin_idx (mem s') (p + k * subpool_size T)
              = begin_idx (mem s) (p + k * subpool_size T) /\
            used_count (mem s') (p + k * subpool_size T)
              = used_count (mem s) (p + k * subpool_size T)).
  { intros k Hk. split.
    - unfold begin_idx. apply load_ext. intros x Hx. apply Hfr.
      apply (counters_not_link_bytes T HT p k x Hk).
      simpl Z.of_nat in Hx. lia.
    - unfold used_count. apply load_ext. intros x Hx. apply Hfr.
      apply (counters_not_link_bytes T HT p k x Hk).
      simpl Z.of_nat in Hx. lia. }
  pose proof (chunks_per_page_range T HT) as Hn.
  destruct (Hcnt 0 ltac:(lia)) as (Hb0 & Hu0).
  replace (p + 0 * subpool_size T) with p in Hb0, Hu0 by lia.
  split; [exact Hp|]. split; [exact Hfr|]. split; [|split; [|split]].
  - intros k Hk q. subst q. destruct (Hcnt k Hk) as (Hb & Hu).
    split; [exact (Hfree k Hk)|]. split; assumption.
  - rewrite Hb0, Hu0. reflexivity.
  - intros Hc Hu.
    destruct (ensure_current_fresh T allocate_ HT s Hc)
      as (Hc1 & _ & Hf1 & Hb1 & Hu1 & _).
    fold p in Hc1, Hf1, Hb1, Hu1.
    set (s1 := ensure_current T allocate_ s) in *.
    assert (Hp0 : used_count (mem s1) (cur_pool_ s1) <> chip_count T)
      by (rewrite Hc1, Hu1; exact Hu).
    destruct (Z.eq_dec p 0) as [Hz|Hnz].
    + unfold Allocate. fold s1.
      rewrite (advance_if_full_not_full T allocate_ s1 Hp0).
      rewrite Hc1.
      assert (Hv : IsFreeIdxValid
                     (set_used_count (mem s1) p (used_count (mem s1) p + 1)) p
                   = false).
      { fields. mem_simp. rewrite Hf1. reflexivity. }
      rewrite Hv. cbn [fst]. unfold BeginMem. f_equal.
      rewrite <- Hb1. fields. mem_simp. reflexivity.
    + rewrite (Allocate_prefix T allocate_ s s1
                 (advance_if_full_not_full T allocate_ s1 Hp0)
                 ltac:(rewrite Hc1; exact Hnz) Hp0).
      rewrite (Allocate_bump T allocate_ s1 ltac:(rewrite Hc1; exact Hnz) Hp0
                 ltac:(rewrite Hc1; exact Hf1)).
      cbn [fst]. rewrite Hc1, Hb1. reflexivity.
  - reflexivity.
Qed.

(** Witness for C10.  A Pool of 8-byte objects on memory that is not
    zeroed: the chunk it acquires keeps the [begin_idx] it finds, 257, and
    the first slot handed out is slot 257. *)
Lemma AllocSubPool_writes_links_only_witness :
  (layout_ok T_u64 = true /\ cur_pool_ (Pool_new ones_mem) = 0 /\
   used_count ones_mem page0 <> chip_count T_u64) /\
  fst (Allocate T_u64 pages (Pool_new ones_mem))
  = usable_mems T_u64 page0 257.
Proof.
  assert (HT : layout_ok T_u64 = true) by reflexivity.
  assert (Hc : cur_pool_ (Pool_new ones_mem) = 0) by reflexivity.
  assert (Hu : used_count ones_mem page0 <> chip_count T_u64)
    by (vm_compute; congruence).
  split; [exact (conj HT (conj Hc Hu))|].
  exact (proj1 (proj2 (proj2 (proj2 (proj2
           (AllocSubPool_writes_links_only T_u64 pages (Pool_new ones_mem)
              HT))))) Hc Hu).
Defined.

(** ** Types the constraint accepts *)

Lemma round_up_bounds (n a : Z) : 0 < a -> n <= round_up n a < n + a.
Proof.
  intros Ha. unfold round_up.
  pose proof (Z.div_mod (n + a - 1) a ltac:(lia)) as Hdm.
  pose proof (Z.mod_pos_bound (n + a - 1) a Ha) as Hm.
  lia.
Qed.

Lemma round_up_multiple (n a : Z) :
  0 < a -> n mod a = 0 -> round_up n a = n.
Proof.
  intros Ha Hn. unfold round_up.
  pose proof (Z.div_mod n a ltac:(lia)) as Hdm. rewrite Hn in Hdm.
  assert (Hq : (n + a - 1) / a = n / a).
  { symmetry. apply (Z.div_unique (n + a - 1) a (n / a) (a - 1)); lia. }
  rewrite Hq. lia.
Qed.

Lemma round_up_le_multiple (n a m : Z) :
  0 < a -> n <= m -> m mod a = 0 -> round_up n a <= m.
Proof.
  intros Ha Hnm Hm. unfold round_up.
  pose proof (Z.div_mod m a ltac:(lia)) as Hdm. rewrite Hm in Hdm.
  assert (Hq : (n + a - 1) / a <= m / a).
  { replace (m / a) with ((m + (a - 1)) / a).
    - apply Z.div_le_mono; lia.
    - symmetry. apply (Z.div_unique (m + (a - 1)) a (m / a) (a - 1)); lia. }
  nia.
Qed.

Lemma sizeof_Header_x64 (T : ObjType) : sizeof_Header x64 T = 16.
Proof.
  unfold sizeof_Header, Header. destruct (sizeT T =? 1); reflexivity.
Qed.

Lemma struct_align_Header_x64 (T : ObjType) :
  struct_align (Header x64 T) = 8.
Proof. unfold Header. destruct (sizeT T =? 1); reflexivity. Qed.

(** A power of two that divides 4080 is at most 16. *)
Lemma pow2_divides_4080 (k : Z) :
  0 <= k -> (2 ^ k | 4080) -> k = 0 \/ k = 1 \/ k = 2 \/ k = 3 \/ k = 4.
Proof.
  intros Hk Hd.
  destruct (Z_lt_le_dec k 5) as [Hlt|Hge]; [lia|].
  exfalso.
  assert (H32 : (32 | 4080)).
  { apply Z.divide_trans with (2 ^ k); [|exact Hd].
    exists (2 ^ (k - 5)). change 32 with (2 ^ 5).
    rewrite <- Z.pow_add_r by lia. f_equal. lia. }
  destruct H32 as (q & Hq). lia.
Qed.

(** Every C++ object type that satisfies [is_valid_chip_v] on the 64-bit
    target has a layout that keeps the slot array inside the chunk. *)
Lemma layout_ok_of_valid_chip (T : ObjType) :
  cxx_type T -> is_valid_chip_v x64 T = true -> layout_ok T = true.
Proof.
  intros (Hsz & (k & Hk & Hal) & Hmul) Hv.
  destruct (Z.eq_dec (sizeT T) 1) as [E1|E1].
  - destruct T as [sz al]. cbn [sizeT alignT] in *. subst sz.
    assert (al = 1).
    { assert (0 < al) by (rewrite Hal; apply Z.pow_pos_nonneg; lia).
      destruct (Z.eq_dec al 1) as [|Hne]; [assumption|].
      rewrite Z.mod_1_l in Hmul by lia. discriminate. }
    clear Hal Hmul Hv. subst al. reflexivity.
  - unfold is_valid_chip_v, kUsableSize in Hv.
    rewrite sizeof_Header_x64 in Hv.
    rewrite (proj2 (Z.eqb_neq _ _) E1) in Hv.
    apply Z.eqb_eq in Hv. change (kPageSize - 16) with 4080 in Hv.
    assert (Hd1 : (sizeT T | 4080)) by (apply Z.mod_divide; lia).
    assert (Hal0 : 0 < alignT T)
      by (rewrite Hal; apply Z.pow_pos_nonneg; lia).
    assert (Hd2 : (alignT T | sizeT T)) by (apply Z.mod_divide; lia).
    assert (Hsz' : 2 <= sizeT T <= 4080).
    { split; [lia|]. apply Z.divide_pos_le; [lia|exact Hd1]. }
    assert (Hks : k = 0 \/ k = 1 \/ k = 2 \/ k = 3 \/ k = 4).
    { apply pow2_divides_4080; [exact Hk|]. rewrite <- Hal.
      apply Z.divide_trans with (sizeT T); assumption. }
    assert (Hlb : link_bytes T = 2%nat).
    { unfold link_bytes. now rewrite (proj2 (Z.eqb_neq _ _) E1). }
    set (A := alignof_Chip T).
    assert (HA : (A = 2 \/ A = 4 \/ A = 8 \/ A = 16) /\
                 (sizeof_Chip T = round_up (sizeT T) A)).
    { subst A. unfold sizeof_Chip, alignof_Chip. rewrite Hlb, Hal.
      rewrite (Z.max_l (sizeT T)) by (simpl Z.of_nat; lia).
      split; [|reflexivity].
      destruct Hks as [-> | [-> | [-> | [-> | ->]]]]; cbn; lia. }
    destruct HA as (HA & Hcs).
    assert (HA0 : 0 < A) by lia.
    assert (H16 : 16 mod A = 0)
      by (destruct HA as [-> | [-> | [-> | ->]]]; reflexivity).
    assert (H4080 : 4080 mod A = 0)
      by (destruct HA as [-> | [-> | [-> | ->]]]; reflexivity).
    pose proof (round_up_bounds (sizeT T) A HA0) as Hcsb.
    pose proof (round_up_le_multiple (sizeT T) A 4080 HA0 ltac:(lia) H4080)
      as Hcsu.
    rewrite <- Hcs in Hcsb, Hcsu.
    assert (Hoff : offsetof_usable_mems x64 T = 16).
    { unfold offsetof_usable_mems. rewrite sizeof_Header_x64.
      fold A. apply round_up_multiple; assumption. }
    assert (Hcc : chip_count T = 4080 / sizeof_Chip T).
    { unfold chip_count, kChipCount, kUsableSize.
      rewrite sizeof_Header_x64, (proj2 (Z.eqb_neq _ _) E1). reflexivity. }
    pose proof (Z.mul_div_le 4080 (sizeof_Chip T) ltac:(lia)) as Hmd.
    rewrite <- Hcc in Hmd.
    assert (Hcc1 : 1 <= chip_count T).
    { rewrite Hcc. apply Z.div_le_lower_bound; lia. }
    set (B := Z.max (struct_align (Header x64 T)) (alignof_Chip T)).
    assert (HB : B = 8 \/ B = 16).
    { subst B. rewrite struct_align_Header_x64. fold A. lia. }
    assert (Hss : subpool_size T
                  = round_up (16 + chip_count T * chip_size T) B).
    { unfold subpool_size, sizeof_SubPool. rewrite Hoff. reflexivity. }
    assert (HB0 : 0 < B) by lia.
    assert (H4096 : 4096 mod B = 0) by (destruct HB as [-> | ->]; reflexivity).
    unfold chip_size in *.
    pose proof (round_up_bounds (16 + chip_count T * sizeof_Chip T) B HB0)
      as Hssl.
    pose proof (round_up_le_multiple (16 + chip_count T * sizeof_Chip T)
                  B 4096 HB0 ltac:(lia) H4096) as Hssu.
    rewrite <- Hss in Hssl, Hssu.
    unfold layout_ok. rewrite Hoff, Hlb, kInvalidIdx_eq, kPageSize_eq.
    unfold chip_size.
    repeat (apply andb_true_intro; split);
      first [apply Z.eqb_eq | apply Z.leb_le | apply Z.ltb_lt];
      simpl Z.of_nat; nia.
Qed.

(** * Further properties of the code *)

(** ** Layout of a chunk *)

(** The alignments and sizes the constraint lets through. *)
Lemma valid_chip_shape (T : ObjType) :
  cxx_type T -> is_valid_chip_v x64 T = true ->
  (alignT T = 1 \/ alignT T = 2 \/ alignT T = 4 \/ alignT T = 8 \/
   alignT T = 16) /\
  ((sizeT T = 1 /\ alignT T = 1) \/
   (2 <= sizeT T <= 4080 /\ 4080 mod sizeT T = 0)).
Proof.
  intros (Hsz & (k & Hk & Hal) & Hmul) Hv.
  assert (Hal0 : 0 < alignT T) by (rewrite Hal; apply Z.pow_pos_nonneg; lia).
  destruct (Z.eq_dec (sizeT T) 1) as [E1|E1].
  - assert (alignT T = 1).
    { destruct (Z.eq_dec (alignT T) 1) as [|Hne]; [assumption|].
      rewrite E1, Z.mod_1_l in Hmul by lia. discriminate. }
    split; [now left|left; now split].
  - unfold is_valid_chip_v, kUsableSize in Hv.
    rewrite sizeof_Header_x64 in Hv.
    rewrite (proj2 (Z.eqb_neq _ _) E1) in Hv.
    apply Z.eqb_eq in Hv. change (kPageSize - 16) with 4080 in Hv.
    assert (Hd1 : (sizeT T | 4080)) by (apply Z.mod_divide; lia).
    assert (Hd2 : (alignT T | sizeT T)) by (apply Z.mod_divide; lia).
    assert (Hks : k = 0 \/ k = 1 \/ k = 2 \/ k = 3 \/ k = 4).
    { apply pow2_divides_4080; [exact Hk|]. rewrite <- Hal.
      apply Z.divide_trans with (sizeT T); assumption. }
    split.
    + rewrite Hal.
      destruct Hks as [-> | [-> | [-> | [-> | ->]]]]; cbn; lia.
    + right. split; [|exact Hv]. split; [lia|].
      apply Z.divide_pos_le; [lia|exact Hd1].
Qed.

(** A chip holds an object and is a multiple of the object's alignment. *)
Lemma chip_holds_object (T : ObjType) :
  cxx_type T -> is_valid_chip_v x64 T = true ->
  sizeT T <= chip_size T /\ chip_size T mod alignT T = 0 /\
  16 mod alignT T = 0.
Proof.
  intros Hc Hv.
  destruct (valid_chip_shape T Hc Hv) as (Hal & Hsz).
  destruct Hsz as [(E1 & Ea)|(Hsz & _)].
  - destruct T as [sz al]. cbn [sizeT alignT] in *. subst sz al.
    vm_compute. repeat split; congruence.
  - assert (E1 : (sizeT T =? 1) = false) by (apply Z.eqb_neq; lia).
    unfold chip_size, sizeof_Chip, alignof_Chip, link_bytes.
    rewrite E1. change (Z.of_nat 2) with 2.
    rewrite (Z.max_l (sizeT T)) by lia.
    set (A := Z.max (alignT T) 2).
    assert (HA : 0 < A) by (subst A; lia).
    pose proof (round_up_bounds (sizeT T) A HA) as Hb.
    assert (HdA : (alignT T | A)).
    { subst A.
      destruct Hal as [-> | [-> | [-> | [-> | ->]]]];
        [exists 2|exists 1|exists 1|exists 1|exists 1]; reflexivity. }
    split; [lia|]. split.
    + apply Z.mod_divide; [lia|].
      apply Z.divide_trans with A; [exact HdA|].
      unfold round_up. apply Z.divide_factor_r.
    + destruct Hal as [-> | [-> | [-> | [-> | ->]]]]; reflexivity.
Qed.

(** X1.  For every C++ object type that the constraint [is_valid_chip_v]
    accepts, the slot array starts 16 bytes into the chunk, has at least
    one slot and fewer than 65535, so that the sentinel is never the index
    of a slot, and ends inside the chunk, which is no larger than a
    page. *)
Theorem valid_chip_fits_chunk (T : ObjType) :
  cxx_type T -> is_valid_chip_v x64 T = true ->
  offsetof_usable_mems x64 T = 16 /\
  1 <= chip_count T /\ chip_count T < kInvalidIdx /\
  Z.of_nat (link_bytes T) <= chip_size T /\
  16 + chip_count T * chip_size T <= subpool_size T /\
  subpool_size T <= kPageSize.
Proof.
  intros Hc Hv.
  pose proof (layout_facts T (layout_ok_of_valid_chip T Hc Hv))
    as (H1 & H2 & H3 & H4 & H5).
  rewrite kInvalidIdx_eq, kPageSize_eq. repeat split; try assumption; lia.
Qed.

Lemma valid_chip_fits_chunk_witness :
  (cxx_type T_u64 /\ is_valid_chip_v x64 T_u64 = true) /\
  16 + chip_count T_u64 * chip_size T_u64 <= subpool_size T_u64.
Proof.
  assert (Hc : cxx_type T_u64).
  { split; [reflexivity|]. split; [|reflexivity].
    exists 3. split; [discriminate|reflexivity]. }
  assert (Hv : is_valid_chip_v x64 T_u64 = true) by reflexivity.
  split; [exact (conj Hc Hv)|].
  exact (proj1 (proj2 (proj2 (proj2 (proj2
           (valid_chip_fits_chunk T_u64 Hc Hv)))))).
Defined.

(** X2.  The slots of a chunk of a type the constraint accepts lie behind
    the header and inside the chunk, each is large enough for an object,
    two different slots do not overlap, and when the chunk starts at a
    multiple of 16, as pages and the 512-byte chunks inside a page do,
    every slot address is a multiple of the object's alignment. *)
Theorem slots_disjoint_and_aligned (T : ObjType) (X : Z) :
  cxx_type T -> is_valid_chip_v x64 T = true ->
  (forall i, 0 <= i < chip_count T ->
     X + 16 <= usable_mems T X i /\
     usable_mems T X i + sizeT T <= X + subpool_size T /\
     (X mod 16 = 0 -> usable_mems T X i mod alignT T = 0)) /\
  (forall i j, 0 <= i -> i < j -> j < chip_count T ->
     usable_mems T X i + sizeT T <= usable_mems T X j).
Proof.
  intros Hc Hv.
  pose proof (layout_ok_of_valid_chip T Hc Hv) as HT.
  destruct (layout_facts T HT) as (_ & Hcc & _ & Hs & _).
  destruct (chip_holds_object T Hc Hv) as (Hcs & Hmod & H16).
  destruct Hc as (Hsz & _ & _).
  assert (Hal0 : alignT T <> 0).
  { intros E. rewrite E in H16. discriminate H16. }
  split.
  - intros i Hi. rewrite (usable_mems_eq T HT).
    split; [nia|]. split; [nia|].
    intros HX.
    apply Z.mod_divide; [exact Hal0|].
    apply Z.mod_divide in Hmod; [|exact Hal0].
    apply Z.mod_divide in H16; [|exact Hal0].
    apply Z.mod_divide in HX; [|lia].
    repeat apply Z.divide_add_r.
    + apply Z.divide_trans with 16; assumption.
    + exact H16.
    + apply Z.divide_mul_r. exact Hmod.
  - intros i j Hi Hij Hj. rewrite !(usable_mems_eq T HT). nia.
Qed.

Lemma slots_disjoint_and_aligned_witness :
  (cxx_type T_u64 /\ is_valid_chip_v x64 T_u64 = true) /\
  usable_mems T_u64 page0 3 + sizeT T_u64 <= usable_mems T_u64 page0 4.
Proof.
  assert (Hc : cxx_type T_u64).
  { split; [reflexivity|]. split; [|reflexivity].
    exists 3. split; [discriminate|reflexivity]. }
  assert (Hv : is_valid_chip_v x64 T_u64 = true) by reflexivity.
  split; [exact (conj Hc Hv)|].
  apply (proj2 (slots_disjoint_and_aligned T_u64 page0 Hc Hv));
    vm_compute; congruence.
Defined.

(** X3.  For an accepted type with alignment 2 or more a chip is exactly
    one object, the slots use up the 4080 usable bytes and the chunk is
    exactly one page.  The constraint tests the remainder for the object
    size, not the chip size: a 17-byte type of alignment 1 is accepted
    although its 18-byte chips leave 12 usable bytes over. *)
Theorem chunk_fills_page_for_aligned_types (T : ObjType) :
  cxx_type T -> is_valid_chip_v x64 T = true -> 2 <= alignT T ->
  chip_size T = sizeT T /\
  chip_count T * chip_size T = kUsableSize x64 T /\
  kUsableSize x64 T = 4080 /\
  subpool_size T = kPageSize /\
  (is_valid_chip_v x64 T_odd17 = true /\ chip_size T_odd17 = 18 /\
   chip_count T_odd17 * chip_size T_odd17 = kUsableSize x64 T_odd17 - 12).
Proof.
  intros Hc Hv Hal2.
  destruct (valid_chip_shape T Hc Hv) as (Hal & Hsz).
  pose proof (layout_ok_of_valid_chip T Hc Hv) as HT.
  destruct (layout_facts T HT) as (Hoff & _).
  destruct Hc as (Hsz0 & _ & Hmul).
  destruct Hsz as [(E1 & Ea)|(Hsz & Hd)]; [lia|].
  assert (E1 : (sizeT T =? 1) = false) by (apply Z.eqb_neq; lia).
  assert (Hcs : chip_size T = sizeT T).
  { unfold chip_size, sizeof_Chip, alignof_Chip, link_bytes.
    rewrite E1. change (Z.of_nat 2) with 2.
    rewrite (Z.max_l (sizeT T)), (Z.max_l (alignT T)) by lia.
    apply round_up_multiple; [lia|exact Hmul]. }
  assert (Hus : kUsableSize x64 T = 4080).
  { unfold kUsableSize. rewrite E1, sizeof_Header_x64. reflexivity. }
  assert (Hcc : chip_count T * chip_size T = 4080).
  { unfold chip_count, kChipCount. rewrite Hus. fold (chip_size T).
    rewrite Hcs.
    pose proof (Z.div_mod 4080 (sizeT T) ltac:(lia)) as Hdm.
    rewrite Hd in Hdm. lia. }
  split; [exact Hcs|]. split; [now rewrite Hus|]. split; [exact Hus|].
  split; [|repeat split].
  unfold subpool_size, sizeof_SubPool. rewrite Hoff.
  fold (chip_count T) (chip_size T). rewrite Hcc.
  rewrite struct_align_Header_x64.
  unfold alignof_Chip, link_bytes. rewrite E1. change (Z.of_nat 2) with 2.
  destruct Hal as [Ha | [-> | [-> | [-> | ->]]]]; [lia| | | |]; reflexivity.
Qed.

Lemma chunk_fills_page_for_aligned_types_witness :
  (cxx_type T_blob2040 /\ is_valid_chip_v x64 T_blob2040 = true /\
   2 <= alignT T_blob2040) /\
  subpool_size T_blob2040 = kPageSize.
Proof.
  assert (Hc : cxx_type T_blob2040).
  { split; [reflexivity|]. split; [|reflexivity].
    exists 3. split; [discriminate|reflexivity]. }
  assert (Hv : is_valid_chip_v x64 T_blob2040 = true) by reflexivity.
  assert (Ha : 2 <= alignT T_blob2040) by discriminate.
  split; [exact (conj Hc (conj Hv Ha))|].
  exact (proj1 (proj2 (proj2 (proj2
           (chunk_fills_page_for_aligned_types T_blob2040 Hc Hv Ha))))).
Defined.

(** ** Pointers and chunks *)

(** X4.  For a chunk at a page boundary the pointer arithmetic of
    [Deallocate] inverts that of [Allocate]: from the address of slot [i]
    it recovers the chunk and the index [i], and from a slot pointer it
    recovers a chunk and an index that give the pointer back. *)
Theorem slot_pointer_round_trip (T : ObjType) (X : Z) :
  layout_ok T = true -> page_aligned X ->
  (forall i, 0 <= i < chip_count T ->
     pool_of (usable_mems T X i) = X /\
     idx_of T (usable_mems T X i) = i) /\
  (forall p, slot_of T X p ->
     usable_mems T (pool_of p) (idx_of T p) = p).
Proof.
  intros HT HX. split.
  - intros i Hi.
    assert (Hs : slot_at T X i (usable_mems T X i)) by (split; [exact Hi|reflexivity]).
    split; [exact (pool_of_slot T HT X i _ HX Hs)|
            exact (idx_of_slot T HT X i _ HX Hs)].
  - intros p (i & Hs).
    rewrite (pool_of_slot T HT X i p HX Hs), (idx_of_slot T HT X i p HX Hs).
    destruct Hs as (_ & ->). reflexivity.
Qed.

Lemma slot_pointer_round_trip_witness :
  (layout_ok T_u64 = true /\ page_aligned page0) /\
  idx_of T_u64 (usable_mems T_u64 page0 509) = 509.
Proof.
  assert (HT : layout_ok T_u64 = true) by reflexivity.
  assert (H0 : page_aligned page0) by (repeat split; vm_compute; congruence).
  split; [exact (conj HT H0)|].
  apply (proj1 (slot_pointer_round_trip T_u64 page0 HT H0) 509).
  vm_compute. split; congruence.
Defined.

(** ** What one call touches *)

(** X5.  When the Pool has a current chunk that is not full, [Allocate]
    makes no call on the strategy, keeps the chunk current, counts one
    object in, and changes no byte of memory other than the six bytes of
    the [free_idx], [begin_idx] and [used_count] fields of that chunk: it
    never writes into a slot. *)
Theorem Allocate_writes_counters_only (T : ObjType) (allocate_ : AllocFunc)
    (s : Pool) :
  cur_pool_ s <> 0 ->
  used_count (mem s) (cur_pool_ s) <> chip_count T ->
  let c := cur_pool_ s in
  let s' := snd (Allocate T allocate_ s) in
  cur_pool_ s' = c /\ calls s' = calls s /\
  used_count (mem s') c = (used_count (mem s) c + 1) mod 65536 /\
  (forall x, x < c \/ c + 6 <= x -> mem s' x = mem s x).
Proof.
  intros Hc Hu c s'. subst s'. unfold Allocate.
  rewrite (Allocate_ready T allocate_ s Hc Hu). fold c.
  destruct (IsFreeIdxValid _ _); cbn [snd cur_pool_ mem calls].
  - repeat split.
    + fields. mem_simp. reflexivity.
    + intros x Hx. fields. now rewrite !store_outside by lia.
  - repeat split.
    + fields. mem_simp. reflexivity.
    + intros x Hx. fields. now rewrite !store_outside by lia.
Qed.

Lemma Allocate_writes_counters_only_witness :
  let s := ensure_current T_u64 pages (Pool_new zero_mem) in
  (cur_pool_ s <> 0 /\ used_count (mem s) (cur_pool_ s) <> chip_count T_u64) /\
  calls (snd (Allocate T_u64 pages s)) = calls s.
Proof.
  intros s.
  assert (Hc : cur_pool_ s <> 0) by discriminate.
  assert (Hu : used_count (mem s) (cur_pool_ s) <> chip_count T_u64)
    by discriminate.
  split; [exact (conj Hc Hu)|].
  exact (proj1 (proj2 (Allocate_writes_counters_only T_u64 pages s Hc Hu))).
Defined.

Lemma release_chip_frame (T : ObjType) (s : Pool) (X p i : Z) :
  let s' := release_chip T s X p i in
  cur_pool_ s' = cur_pool_ s /\ calls s' = calls s /\
  (forall x, x < X \/ X + 6 <= x ->
             x < p \/ p + Z.of_nat (link_bytes T) <= x ->
             mem s' x = mem s x) /\
  (X + 16 <= p ->
   used_count (mem s') X = (used_count (mem s) X - 1) mod 65536).
Proof.
  unfold release_chip.
  destruct (IsEmpty _ _); cbn [cur_pool_ mem calls]; repeat split.
  - intros x Hx Hx'. fields. now rewrite !store_outside by lia.
  - intros Hp. fields. mem_simp. reflexivity.
  - intros x Hx Hx'. fields. now rewrite !store_outside by lia.
  - intros Hp. fields. mem_simp. reflexivity.
Qed.

(** X6.  [Deallocate] on a slot of a chunk at a page boundary makes no
    call on the strategy, leaves the current chunk as it is or makes the
    slot's chunk current, counts one object out of the slot's chunk, and
    changes no byte of memory outside the 16-byte header of that chunk
    and the link field of the released slot: no other slot is written,
    whatever the state of the chunk. *)
Theorem Deallocate_writes_header_and_link_only (T : ObjType) (s : Pool)
    (X i p : Z) :
  layout_ok T = true -> page_aligned X -> slot_at T X i p ->
  let s' := Deallocate T s p in
  calls s' = calls s /\
  (cur_pool_ s' = cur_pool_ s \/ cur_pool_ s' = X) /\
  used_count (mem s') X = (used_count (mem s) X - 1) mod 65536 /\
  (forall x, x < X \/ X + 16 <= x ->
             x < p \/ p + Z.of_nat (link_bytes T) <= x ->
             mem s' x = mem s x).
Proof.
  intros HT HX Hs s'. subst s'.
  rewrite (Deallocate_slot T HT s X i p HX Hs).
  destruct (splice_fields T s X) as (Hc1 & Hl1 & Hfr1).
  destruct (release_chip_frame T (splice_if_full T s X) X p i)
    as (Hc2 & Hl2 & Hfr2 & Hu2).
  destruct Hs as (Hi & Hpa).
  pose proof (slot_bounds T HT X i Hi) as (Hlo & _). rewrite <- Hpa in Hlo.
  split; [congruence|]. split.
  - rewrite Hc2, Hc1. destruct (used_count (mem s) X =? chip_count T); auto.
  - split.
    + rewrite (Hu2 Hlo). f_equal. f_equal.
      unfold used_count. apply load_ext. intros x Hx. apply Hfr1.
      simpl Z.of_nat in Hx. lia.
    + intros x Hx Hx'. rewrite Hfr2, Hfr1 by lia. reflexivity.
Qed.

Lemma Deallocate_writes_header_and_link_only_witness :
  let s := snd (allocate_n T_u64 pages 3 (Pool_new zero_mem)) in
  let p := usable_mems T_u64 page0 1 in
  (layout_ok T_u64 = true /\ page_aligned page0 /\ slot_at T_u64 page0 1 p) /\
  calls (Deallocate T_u64 s p) = calls s.
Proof.
  intros s p.
  assert (HT : layout_ok T_u64 = true) by reflexivity.
  assert (H0 : page_aligned page0) by (repeat split; vm_compute; congruence).
  assert (Hs : slot_at T_u64 page0 1 p)
    by (split; [vm_compute; split; congruence|reflexivity]).
  split; [exact (conj HT (conj H0 Hs))|].
  exact (proj1 (Deallocate_writes_header_and_link_only T_u64 s page0 1 p
                  HT H0 Hs)).
Defined.

(** ** Chunks filling up *)

(** X7.  For every object type larger than one byte with a good layout, a
    new Pool on distinct zeroed pages serves its first [chip_count]
    allocations from one chunk, slot 0 upwards, with a single call on the
    strategy; the chunk is full after the last of them and not before.
    The next allocation makes the second call, returns slot 0 of the new
    page and leaves the first page as it was. *)
Theorem chunk_capacity (T : ObjType) (allocate_ : AllocFunc) (m0 : Mem) :
  layout_ok T = true -> sizeT T <> 1 ->
  let P0 := allocate_ [] kPageSize in
  let P1 := allocate_ [CallAllocate kPageSize] kPageSize in
  page_aligned P0 -> page_aligned P1 -> P0 <> P1 ->
  zero_page m0 P0 -> zero_page m0 P1 ->
  (forall k : nat, (1 <= k)%nat -> Z.of_nat k <= chip_count T ->
     let r := allocate_n T allocate_ k (Pool_new m0) in
     fst r = slot_range T P0 0 k /\
     cur_pool_ (snd r) = P0 /\
     calls (snd r) = [CallAllocate kPageSize] /\
     used_count (mem (snd r)) P0 = Z.of_nat k /\
     IsFull T (mem (snd r)) P0 = (Z.of_nat k =? chip_count T)) /\
  (let s := snd (allocate_n T allocate_ (Z.to_nat (chip_count T))
                   (Pool_new m0)) in
   let r := Allocate T allocate_ s in
   fst r = usable_mems T P1 0 /\ cur_pool_ (snd r) = P1 /\
   calls (snd r) = [CallAllocate kPageSize; CallAllocate kPageSize] /\
   (forall x, P0 <= x < P0 + 4096 -> mem (snd r) x = mem s x)).
Proof.
  intros HT H1 P0 P1 HP0 HP1 Hne Hz0 Hz1.
  destruct (layout_facts T HT) as (_ & Hcc & _).
  destruct (zero_page_header m0 P0 Hz0) as (_ & Hb0 & Hu0 & Hn0).
  destruct (zero_page_header m0 P1 Hz1) as (_ & Hb1 & Hu1 & _).
  pose proof (pages_apart P0 P1 HP0 HP1 Hne) as Hapart.
  assert (Hfill : forall k : nat, (1 <= k)%nat -> Z.of_nat k <= chip_count T ->
            let r := allocate_n T allocate_ k (Pool_new m0) in
            fst r = slot_range T P0 0 k /\
            cur_pool_ (snd r) = P0 /\
            calls (snd r) = [CallAllocate kPageSize] /\
            used_count (mem (snd r)) P0 = Z.of_nat k /\
            (forall x, ~ (P0 <= x < P0 + 4096) -> mem (snd r) x = m0 x) /\
            next_pool (mem (snd r)) P0 = 0).
  { intros k Hk1 Hk.
    destruct (fill_fresh T allocate_ HT (Pool_new m0) k eq_refl HP0
                Hb0 Hu0 Hk1 Hk)
      as (Hps & Hc & Hl & Hu & _ & _ & Hfr & Hnx).
    specialize (Hnx H1).
    cbn [calls Pool_new mem app] in Hps, Hc, Hl, Hu, Hfr, Hnx.
    fold P0 in Hps, Hc, Hu, Hfr, Hnx.
    cbv zeta. split; [exact Hps|]. split; [exact Hc|]. split; [exact Hl|].
    split; [exact Hu|]. split; [exact Hfr|]. rewrite Hnx. exact Hn0. }
  split.
  - intros k Hk1 Hk. destruct (Hfill k Hk1 Hk) as (Hps & Hc & Hl & Hu & _).
    cbv zeta. split; [exact Hps|]. split; [exact Hc|]. split; [exact Hl|].
    split; [exact Hu|]. unfold IsFull. now rewrite Hu.
  - destruct (Hfill (Z.to_nat (chip_count T)) ltac:(lia) ltac:(lia))
      as (_ & Hc & Hl & Hu & Hfr & Hnx).
    set (s := snd (allocate_n T allocate_ (Z.to_nat (chip_count T))
                     (Pool_new m0))) in *.
    cbv zeta.
    assert (Hp1 : allocate_ (calls s) kPageSize = P1)
      by (rewrite Hl; reflexivity).
    assert (HP0z : P0 <> 0) by (destruct HP0; lia).
    assert (Hb1' : begin_idx (mem s) P1 = 0).
    { rewrite <- Hb1. unfold begin_idx. apply load_ext. intros x Hx.
      apply Hfr. simpl Z.of_nat in Hx. lia. }
    assert (Hu1' : used_count (mem s) P1 = 0).
    { rewrite <- Hu1. unfold used_count. apply load_ext. intros x Hx.
      apply Hfr. simpl Z.of_nat in Hx. lia. }
    destruct (Allocate_new_chunk T allocate_ HT s P0 Hc HP0z
                ltac:(rewrite Hu; lia) Hnx
                ltac:(rewrite Hp1; exact HP1)
                ltac:(rewrite Hp1; exact Hb1')
                ltac:(rewrite Hp1; exact Hu1'))
      as (Hr & Hc' & Hl' & _ & _ & _ & Hfr').
    rewrite Hp1 in Hr, Hc', Hfr'. rewrite Hl in Hl'.
    split; [exact Hr|]. split; [exact Hc'|]. split; [exact Hl'|].
    intros x Hx. apply Hfr'. lia.
Qed.

Lemma chunk_capacity_witness :
  (layout_ok T_blob2040 = true /\ sizeT T_blob2040 <> 1 /\
   page_aligned page0 /\ page_aligned page1 /\ page0 <> page1 /\
   zero_page zero_mem page0 /\ zero_page zero_mem page1) /\
  fst (Allocate T_blob2040 pages
         (snd (allocate_n T_blob2040 pages
                 (Z.to_nat (chip_count T_blob2040)) (Pool_new zero_mem))))
  = usable_mems T_blob2040 page1 0.
Proof.
  assert (HT : layout_ok T_blob2040 = true) by reflexivity.
  assert (H1 : sizeT T_blob2040 <> 1) by discriminate.
  assert (H0 : page_aligned page0) by (repeat split; vm_compute; congruence).
  assert (Hp1 : page_aligned page1) by (repeat split; vm_compute; congruence).
  assert (Hne : page0 <> page1) by discriminate.
  assert (Hz0 : zero_page zero_mem page0) by (intros x _; reflexivity).
  assert (Hz1 : zero_page zero_mem page1) by (intros x _; reflexivity).
  split; [exact (conj HT (conj H1 (conj H0 (conj Hp1 (conj Hne
                   (conj Hz0 Hz1))))))|].
  exact (proj1 (proj2 (chunk_capacity T_blob2040 pages zero_mem HT H1
                         H0 Hp1 Hne Hz0 Hz1))).
Defined.

Lemma Allocate_successor_fields (T : ObjType) (allocate_ : AllocFunc)
    (s : Pool) (n : Z) :
  cur_pool_ s <> 0 ->
  used_count (mem s) (cur_pool_ s) = chip_count T ->
  next_pool (mem s) (cur_pool_ s) = n -> n <> 0 ->
  used_count (mem s) n <> chip_count T ->
  free_idx (mem s) n = kInvalidIdx ->
  let r := Allocate T allocate_ s in
  fst r = usable_mems T n (begin_idx (mem s) n) /\
  cur_pool_ (snd r) = n /\ calls (snd r) = calls s /\
  used_count (mem (snd r)) n = (used_count (mem s) n + 1) mod 65536 /\
  begin_idx (mem (snd r)) n = (begin_idx (mem s) n + 1) mod 65536 /\
  free_idx (mem (snd r)) n = kInvalidIdx /\
  (forall x, x < n + 2 \/ n + 6 <= x -> mem (snd r) x = mem s x).
Proof.
  intros Hc Hu Hn Hn0 Hun Hf r. subst r.
  assert (H1 : ensure_current T allocate_ s = s).
  { unfold ensure_current. apply Z.eqb_neq in Hc. now rewrite Hc. }
  assert (H2 : advance_if_full T allocate_ s = set_cur s n).
  { unfold advance_if_full, IsFull. rewrite Hu, Z.eqb_refl, Hn.
    apply Z.eqb_neq in Hn0. now rewrite Hn0. }
  rewrite (Allocate_prefix T allocate_ s (set_cur s n))
    by (rewrite ?H1; assumption).
  destruct (Allocate_bump_fields T allocate_ (set_cur s n) n
              (used_count (mem s) n) (begin_idx (mem s) n)
              eq_refl Hn0 eq_refl Hun eq_refl Hf)
    as (Hr & Hc' & Hl' & Hu' & Hb' & Hf' & Hfr').
  repeat split; assumption.
Qed.

(** X8.  When the current chunk is full and has a successor that is not
    full and whose free list is empty, [Allocate] makes the successor
    current and bumps its next untouched slot, without a call on the
    strategy and without writing outside the successor's [begin_idx] and
    [used_count]. *)
Theorem Allocate_moves_to_successor (T : ObjType) (allocate_ : AllocFunc)
    (s : Pool) (n : Z) :
  cur_pool_ s <> 0 ->
  used_count (mem s) (cur_pool_ s) = chip_count T ->
  next_pool (mem s) (cur_pool_ s) = n -> n <> 0 ->
  used_count (mem s) n <> chip_count T ->
  free_idx (mem s) n = kInvalidIdx ->
  let r := Allocate T allocate_ s in
  fst r = usable_mems T n (begin_idx (mem s) n) /\
  cur_pool_ (snd r) = n /\ calls (snd r) = calls s /\
  used_count (mem (snd r)) n = (used_count (mem s) n + 1) mod 65536 /\
  begin_idx (mem (snd r)) n = (begin_idx (mem s) n + 1) mod 65536 /\
  (forall x, x < n + 2 \/ n + 6 <= x -> mem (snd r) x = mem s x).
Proof.
  intros Hc Hu Hn Hn0 Hun Hf r.
  destruct (Allocate_successor_fields T allocate_ s n Hc Hu Hn Hn0 Hun Hf)
    as (H1 & H2 & H3 & H4 & H5 & _ & H7).
  repeat split; assumption.
Qed.

Lemma Allocate_moves_to_successor_witness :
  let s := snd (allocate_n T_char pages 496 (Pool_new zero_mem)) in
  (cur_pool_ s <> 0 /\
   used_count (mem s) (cur_pool_ s) = chip_count T_char /\
   next_pool (mem s) (cur_pool_ s) = page0_chunk1 /\ page0_chunk1 <> 0 /\
   used_count (mem s) page0_chunk1 <> chip_count T_char /\
   free_idx (mem s) page0_chunk1 = kInvalidIdx) /\
  calls (snd (Allocate T_char pages s)) = calls s.
Proof.
  intros s.
  assert (Hc : cur_pool_ s <> 0) by (vm_compute; congruence).
  assert (Hu : used_count (mem s) (cur_pool_ s) = chip_count T_char)
    by (vm_compute; reflexivity).
  assert (Hn : next_pool (mem s) (cur_pool_ s) = page0_chunk1)
    by (vm_compute; reflexivity).
  assert (Hn0 : page0_chunk1 <> 0) by discriminate.
  assert (Hun : used_count (mem s) page0_chunk1 <> chip_count T_char)
    by (vm_compute; congruence).
  assert (Hf : free_idx (mem s) page0_chunk1 = kInvalidIdx)
    by (vm_compute; reflexivity).
  split; [exact (conj Hc (conj Hu (conj Hn (conj Hn0 (conj Hun Hf)))))|].
  exact (proj1 (proj2 (proj2
           (Allocate_moves_to_successor T_char pages s page0_chunk1
              Hc Hu Hn Hn0 Hun Hf)))).
Defined.

(** ** Releasing into a full chunk *)

Lemma splice_next_pool (T : ObjType) (s : Pool) (X : Z) :
  next_pool (mem (splice_if_full T s X)) X
  = if (used_count (mem s) X =? chip_count T)
       && negb (used_count (mem s) (cur_pool_ s) =? chip_count T)
    then cur_pool_ s mod uintptr_max
    else next_pool (mem s) X.
Proof.
  unfold splice_if_full, IsFull.
  destruct (used_count (mem s) X =? chip_count T); [|reflexivity].
  destruct (used_count (mem s) (cur_pool_ s) =? chip_count T);
    cbn [negb andb mem]; [reflexivity|].
  fields. mem_simp. reflexivity.
Qed.

(** X9.  Releasing a slot of a full chunk at a page boundary makes that
    chunk current and, when the chunk that was current is not full, links
    it behind the released chunk as its successor; when it is full the
    successor link stays as it was.  No byte outside the page of the
    released chunk changes, and the next [Allocate] returns the released
    slot. *)
Theorem release_into_full_chunk_rotates (T : ObjType)
    (allocate_ : AllocFunc) (s : Pool) (X i p : Z) :
  layout_ok T = true -> page_aligned X -> slot_at T X i p ->
  used_count (mem s) X = chip_count T ->
  0 <= cur_pool_ s < uintptr_max ->
  let s' := Deallocate T s p in
  cur_pool_ s' = X /\
  next_pool (mem s') X
    = (if used_count (mem s) (cur_pool_ s) =? chip_count T
       then next_pool (mem s) X else cur_pool_ s) /\
  used_count (mem s') X = chip_count T - 1 /\
  (forall x, ~ (X <= x < X + 4096) -> mem s' x = mem s x) /\
  fst (Allocate T allocate_ s') = p.
Proof.
  intros HT HX Hs Hu Hcur s'.
  destruct (free_from_full_rotates T allocate_ s X i p HT HX Hs Hu)
    as (Hc & Hu' & Hfr & Hr).
  fold s' in Hc, Hu', Hfr, Hr.
  split; [exact Hc|]. split; [|repeat split; assumption].
  assert (Hd : s' = release_chip T (splice_if_full T s X) X p i)
    by (subst s'; apply (Deallocate_slot T HT s X i p HX Hs)).
  destruct (release_chip_frame T (splice_if_full T s X) X p i)
    as (_ & _ & Hfr2 & _).
  rewrite <- Hd in Hfr2.
  destruct Hs as (Hi & Hpa).
  pose proof (slot_bounds T HT X i Hi) as (Hlo & _). rewrite <- Hpa in Hlo.
  assert (Hnp : next_pool (mem s') X
                = next_pool (mem (splice_if_full T s X)) X).
  { unfold next_pool. apply load_ext. intros x Hx. apply Hfr2;
      simpl Z.of_nat in Hx; lia. }
  rewrite Hnp, splice_next_pool, Hu, Z.eqb_refl. cbn [andb].
  destruct (used_count (mem s) (cur_pool_ s) =? chip_count T);
    cbn [negb]; [reflexivity|].
  apply Z.mod_small. exact Hcur.
Qed.

Lemma release_into_full_chunk_rotates_witness :
  let s := snd (allocate_n T_blob2040 pages 3 (Pool_new zero_mem)) in
  let p := usable_mems T_blob2040 page0 0 in
  (layout_ok T_blob2040 = true /\ page_aligned page0 /\
   slot_at T_blob2040 page0 0 p /\
   used_count (mem s) page0 = chip_count T_blob2040 /\
   0 <= cur_pool_ s < uintptr_max) /\
  cur_pool_ s = page1 /\
  next_pool (mem (Deallocate T_blob2040 s p)) page0 = page1.
Proof.
  intros s p.
  assert (HT : layout_ok T_blob2040 = true) by reflexivity.
  assert (H0 : page_aligned page0) by (repeat split; vm_compute; congruence).
  assert (Hs : slot_at T_blob2040 page0 0 p)
    by (split; [vm_compute; split; congruence|reflexivity]).
  assert (Hu : used_count (mem s) page0 = chip_count T_blob2040)
    by reflexivity.
  assert (Hc : 0 <= cur_pool_ s < uintptr_max)
    by (vm_compute; split; congruence).
  split; [exact (conj HT (conj H0 (conj Hs (conj Hu Hc))))|].
  split; [reflexivity|].
  exact (proj1 (proj2 (release_into_full_chunk_rotates T_blob2040 pages s
                         page0 0 p HT H0 Hs Hu Hc))).
Defined.

(** X10.  Fill the first chunk of a new Pool and release its slots in any
    order: the last release resets the chunk ([used_count] 0, empty free
    list, [begin_idx] 0), the chunk is current, and the next [Allocate]
    bumps slot 0 again.  This holds for every good layout, one-byte
    objects included, as the first chunk of a page starts at the page
    boundary. *)
Theorem first_chunk_resets_when_emptied (T : ObjType)
    (allocate_ : AllocFunc) (m0 : Mem) (ps : list Z) :
  layout_ok T = true ->
  let P := allocate_ [] kPageSize in
  let r := allocate_n T allocate_ (Z.to_nat (chip_count T)) (Pool_new m0) in
  page_aligned P -> zero_page m0 P ->
  Permutation ps (fst r) ->
  let s' := deallocate_all T ps (snd r) in
  used_count (mem (snd r)) P = chip_count T /\
  used_count (mem s') P = 0 /\ free_idx (mem s') P = kInvalidIdx /\
  begin_idx (mem s') P = 0 /\ cur_pool_ s' = P /\
  calls s' = [CallAllocate kPageSize] /\
  fst (Allocate T allocate_ s') = usable_mems T P 0.
Proof.
  intros HT P r HP Hz Hperm s'.
  destruct (layout_facts T HT) as (_ & Hcc & _).
  destruct (zero_page_header m0 P Hz) as (_ & Hb0 & Hu0 & _).
  destruct (fill_fresh T allocate_ HT (Pool_new m0)
              (Z.to_nat (chip_count T)) eq_refl HP Hb0 Hu0
              ltac:(lia) ltac:(lia))
    as (Hps & _ & Hl & _).
  fold r in Hps, Hl.
  assert (Hlen : length ps = Z.to_nat (chip_count T)).
  { rewrite (Permutation_length Hperm), Hps. apply slot_range_length. }
  assert (Hin : forall p, In p ps <-> In p (fst r)).
  { intros p. split; apply Permutation_in;
      [exact Hperm|apply Permutation_sym; exact Hperm]. }
  destruct (fill_then_free_all T allocate_ m0 ps HT HP Hz Hin Hlen)
    as (_ & H1 & H2 & H3 & H4 & H5 & H6 & _).
  fold r in H1. fold s' in H2, H3, H4, H5, H6.
  repeat split; try assumption.
  subst s'. clear - Hl. revert Hl. generalize (snd r). 
  induction ps as [|q ps IH]; intros s0 Hl; [exact Hl|].
  rewrite deallocate_all_cons. apply IH. now rewrite Deallocate_calls.
Qed.

Lemma first_chunk_resets_when_emptied_witness :
  let a0 := usable_mems T_blob2040 page0 0 in
  let a1 := usable_mems T_blob2040 page0 1 in
  (layout_ok T_blob2040 = true /\ page_aligned page0 /\
   zero_page zero_mem page0 /\
   Permutation [a1; a0]
     (fst (allocate_n T_blob2040 pages (Z.to_nat (chip_count T_blob2040))
             (Pool_new zero_mem)))) /\
  begin_idx
    (mem (deallocate_all T_blob2040 [a1; a0]
            (snd (allocate_n T_blob2040 pages
                    (Z.to_nat (chip_count T_blob2040)) (Pool_new zero_mem)))))
    page0 = 0.
Proof.
  intros a0 a1.
  assert (HT : layout_ok T_blob2040 = true) by reflexivity.
  assert (H0 : page_aligned page0) by (repeat split; vm_compute; congruence).
  assert (Hz0 : zero_page zero_mem page0) by (intros x _; reflexivity).
  assert (Hp : Permutation [a1; a0]
                 (fst (allocate_n T_blob2040 pages
                         (Z.to_nat (chip_count T_blob2040))
                         (Pool_new zero_mem)))).
  { change (Permutation [a1; a0] [a0; a1]). apply perm_swap. }
  split; [exact (conj HT (conj H0 (conj Hz0 Hp)))|].
  exact (proj1 (proj2 (proj2 (proj2
           (first_chunk_resets_when_emptied T_blob2040 pages zero_mem
              [a1; a0] HT H0 Hz0 Hp))))).
Defined.

(** ** Outside the precondition *)

(** What the free-list path leaves behind. *)
Lemma Allocate_pop_fields (T : ObjType) (allocate_ : AllocFunc)
    (s : Pool) (c u f : Z) :
  layout_ok T = true ->
  cur_pool_ s = c -> c <> 0 ->
  used_count (mem s) c = u -> u <> chip_count T ->
  free_idx (mem s) c = f -> f <> kInvalidIdx ->
  let s' := snd (Allocate T allocate_ s) in
  fst (Allocate T allocate_ s) = usable_mems T c f /\
  cur_pool_ s' = c /\ calls s' = calls s /\
  used_count (mem s') c = (u + 1) mod 65536 /\
  free_idx (mem s') c = next_idx T (mem s) (usable_mems T c f) /\
  begin_idx (mem s') c = begin_idx (mem s) c /\
  (forall x, x < c \/ c + 6 <= x -> mem s' x = mem s x).
Proof.
  intros HT Hc Hnz Hu Hnf Hf Hfv s'. subst s'.
  rewrite (Allocate_pop T allocate_ HT s)
    by (rewrite ?Hc, ?Hu, ?Hf; assumption).
  rewrite Hc, Hu, Hf. cbn [fst snd cur_pool_ mem calls].
  pose proof (load_range (link_bytes T) (mem s) (usable_mems T c f)) as Hr.
  fold (next_idx T (mem s) (usable_mems T c f)) in Hr.
  pose proof (link_bytes_range T) as Hl.
  assert (256 ^ Z.of_nat (link_bytes T) <= 65536).
  { change 65536 with (256 ^ 2). apply Z.pow_le_mono_r; lia. }
  repeat split.
  - fields. mem_simp. reflexivity.
  - unfold free_idx, set_free_idx. mem_simp. apply Z.mod_small. lia.
  - fields. mem_simp. reflexivity.
  - intros x Hx. fields. now rewrite !store_outside by lia.
Qed.

(** What pushing a slot leaves behind. *)
Lemma Deallocate_push_fields (T : ObjType) (s : Pool) (X i p : Z) :
  layout_ok T = true -> page_aligned X -> slot_at T X i p ->
  2 <= used_count (mem s) X <= chip_count T ->
  used_count (mem s) X = chip_count T \/ cur_pool_ s = X ->
  let s' := Deallocate T s p in
  cur_pool_ s' = X /\ calls s' = calls s /\
  used_count (mem s') X = used_count (mem s) X - 1 /\
  free_idx (mem s') X = i /\
  begin_idx (mem s') X = begin_idx (mem s) X /\
  next_idx T (mem s') p
    = free_idx (mem s) X mod 256 ^ Z.of_nat (link_bytes T) /\
  (forall x, x < X \/ X + 16 <= x ->
             x < p \/ p + Z.of_nat (link_bytes T) <= x ->
             mem s' x = mem s x).
Proof.
  intros HT HX Hs Hu Hcur s'. subst s'.
  rewrite (Deallocate_slot T HT s X i p HX Hs).
  destruct (splice_fields T s X) as (Hc1 & Hl1 & Hfr1).
  set (s1 := splice_if_full T s X) in *.
  assert (Hu1 : used_count (mem s1) X = used_count (mem s) X).
  { unfold used_count. apply load_ext. intros x Hx. apply Hfr1.
    simpl Z.of_nat in Hx. lia. }
  assert (Hf1 : free_idx (mem s1) X = free_idx (mem s) X).
  { unfold free_idx. apply load_ext. intros x Hx. apply Hfr1.
    simpl Z.of_nat in Hx. lia. }
  assert (Hb1 : begin_idx (mem s1) X = begin_idx (mem s) X).
  { unfold begin_idx. apply load_ext. intros x Hx. apply Hfr1.
    simpl Z.of_nat in Hx. lia. }
  assert (HcX : cur_pool_ s1 = X).
  { rewrite Hc1.
    destruct (used_count (mem s) X =? chip_count T) eqn:E; [reflexivity|].
    apply Z.eqb_neq in E. destruct Hcur; [contradiction|assumption]. }
  destruct Hs as (Hi & Hpa).
  pose proof (slot_bounds T HT X i Hi) as (Hlo & Hhi).
  rewrite <- Hpa in Hlo, Hhi.
  destruct (layout_facts T HT) as (_ & Hcc & _).
  destruct (release_push T s1 X p i (used_count (mem s) X) Hlo Hu1
              ltac:(lia) ltac:(lia))
    as (Hc2 & Hl2 & Hu2 & Hf2 & Hb2 & Hn2 & Hfr2).
  repeat split; try congruence.
  intros x Hx Hx'. rewrite Hfr2, Hfr1 by lia. reflexivity.
Qed.



(** X12.  When the current chunk and its successor are both full,
    [Allocate] still adopts the successor: it counts the successor up to
    [chip_count + 1] and, the successor's free list being empty and its
    bump frontier at [chip_count], returns the address one past the last
    slot of the successor. *)
Theorem Allocate_overruns_full_successor (T : ObjType)
    (allocate_ : AllocFunc) (s : Pool) (n : Z) :
  layout_ok T = true ->
  cur_pool_ s <> 0 ->
  used_count (mem s) (cur_pool_ s) = chip_count T ->
  next_pool (mem s) (cur_pool_ s) = n -> n <> 0 ->
  used_count (mem s) n = chip_count T ->
  free_idx (mem s) n = kInvalidIdx ->
  begin_idx (mem s) n = chip_count T ->
  let r := Allocate T allocate_ s in
  cur_pool_ (snd r) = n /\ calls (snd r) = calls s /\
  fst r = usable_mems T n (chip_count T) /\
  (forall i, 0 <= i < chip_count T ->
     usable_mems T n i + chip_size T <= fst r) /\
  used_count (mem (snd r)) n = chip_count T + 1 /\
  begin_idx (mem (snd r)) n = chip_count T + 1.
Proof.
  intros HT Hc Hu Hn Hn0 Hun Hf Hb r. subst r.
  destruct (layout_facts T HT) as (_ & Hcc & _).
  pose proof (chip_size_pos T HT) as Hcs.
  unfold Allocate.
  assert (H1 : ensure_current T allocate_ s = s).
  { unfold ensure_current. apply Z.eqb_neq in Hc. now rewrite Hc. }
  assert (H2 : advance_if_full T allocate_ s = set_cur s n).
  { unfold advance_if_full, IsFull. rewrite Hu, Z.eqb_refl, Hn.
    apply Z.eqb_neq in Hn0. now rewrite Hn0. }
  rewrite H1, H2. cbn [set_cur cur_pool_ mem calls]. rewrite Hun.
  assert (Hv : IsFreeIdxValid
                 (set_used_count (mem s) n (chip_count T + 1)) n = false).
  { fields. mem_simp. rewrite Hf. reflexivity. }
  assert (Hb' : begin_idx (set_used_count (mem s) n (chip_count T + 1)) n
                = chip_count T).
  { rewrite <- Hb. fields. mem_simp. reflexivity. }
  rewrite Hv. unfold BeginMem. rewrite Hb'. cbn [fst snd cur_pool_ mem calls].
  repeat split.
  - intros i Hi. rewrite !(usable_mems_eq T HT). nia.
  - fields. mem_simp. apply Z.mod_small. lia.
  - fields. mem_simp. apply Z.mod_small. lia.
Qed.

Lemma Allocate_overruns_full_successor_witness :
  let s := run T_blob2040 pages
             (overfill 2 (usable_mems T_blob2040 page0 0))
             (Pool_new zero_mem) in
  (layout_ok T_blob2040 = true /\ cur_pool_ s <> 0 /\
   used_count (mem s) (cur_pool_ s) = chip_count T_blob2040 /\
   next_pool (mem s) (cur_pool_ s) = page1 /\ page1 <> 0 /\
   used_count (mem s) page1 = chip_count T_blob2040 /\
   free_idx (mem s) page1 = kInvalidIdx /\
   begin_idx (mem s) page1 = chip_count T_blob2040) /\
  fst (Allocate T_blob2040 pages s)
  = usable_mems T_blob2040 page1 (chip_count T_blob2040).
Proof.
  intros s.
  assert (HT : layout_ok T_blob2040 = true) by reflexivity.
  assert (Hc : cur_pool_ s <> 0) by (vm_compute; congruence).
  assert (Hu : used_count (mem s) (cur_pool_ s) = chip_count T_blob2040)
    by (vm_compute; reflexivity).
  assert (Hn : next_pool (mem s) (cur_pool_ s) = page1)
    by (vm_compute; reflexivity).
  assert (Hn0 : page1 <> 0) by discriminate.
  assert (Hun : used_count (mem s) page1 = chip_count T_blob2040)
    by (vm_compute; reflexivity).
  assert (Hf : free_idx (mem s) page1 = kInvalidIdx)
    by (vm_compute; reflexivity).
  assert (Hb : begin_idx (mem s) page1 = chip_count T_blob2040)
    by (vm_compute; reflexivity).
  split; [exact (conj HT (conj Hc (conj Hu (conj Hn (conj Hn0
                   (conj Hun (conj Hf Hb)))))))|].
  exact (proj1 (proj2 (proj2
           (Allocate_overruns_full_successor T_blob2040 pages s page1
              HT Hc Hu Hn Hn0 Hun Hf Hb)))).
Defined.

(** ** One page for many small chunks *)

Section OneBytePage.

Variable T : ObjType.
Variable allocate_ : AllocFunc.
Hypothesis HT : layout_ok T = true.

Local Abbreviation cc := (chip_count T).
Local Abbreviation ss := (subpool_size T).

Lemma allocate_n_app (a b : nat) : forall s : Pool,
  allocate_n T allocate_ (a + b) s
  = (fst (allocate_n T allocate_ a s)
       ++ fst (allocate_n T allocate_ b (snd (allocate_n T allocate_ a s))),
     snd (allocate_n T allocate_ b (snd (allocate_n T allocate_ a s)))).
Proof.
  induction a as [|a IH]; intros s.
  - cbn [Nat.add allocate_n fst snd app].
    now destruct (allocate_n T allocate_ b s).
  - cbn [Nat.add allocate_n].
    destruct (Allocate T allocate_ s) as [p s1].
    rewrite IH.
    destruct (allocate_n T allocate_ a s1) as [ps s2].
    reflexivity.
Qed.

Lemma allocate_n_ensure (k : nat) (s : Pool) :
  (1 <= k)%nat ->
  cur_pool_ (ensure_current T allocate_ s) <> 0 ->
  used_count (mem (ensure_current T allocate_ s))
    (cur_pool_ (ensure_current T allocate_ s)) <> cc ->
  allocate_n T allocate_ k s
  = allocate_n T allocate_ k (ensure_current T allocate_ s).
Proof.
  intros Hk Hc Hu. destruct k as [|k]; [lia|]. cbn [allocate_n].
  rewrite (Allocate_prefix T allocate_ s (ensure_current T allocate_ s));
    [reflexivity| |assumption|assumption].
  now apply advance_if_full_not_full.
Qed.

Lemma fresh_chain_frame (j : nat) : forall (m m' : Mem) (c : Z),
  (forall x, c + 8 <= x -> m' x = m x) ->
  fresh_chain T m c j -> fresh_chain T m' c j.
Proof.
  pose proof (subpool_size_range T HT) as Hss.
  induction j as [|j IH]; intros m m' c Hfr H; [exact I|].
  cbn [fresh_chain] in *.
  destruct H as (Hn & Hf & Hb & Hu & Hrest).
  assert (Hld : forall k a, c + 8 <= a -> load k m' a = load k m a).
  { intros k a Ha. apply load_ext. intros x Hx. apply Hfr. lia. }
  split; [unfold next_pool; rewrite Hld by lia; exact Hn|].
  split; [unfold free_idx; rewrite Hld by lia; exact Hf|].
  split; [unfold begin_idx; rewrite Hld by lia; exact Hb|].
  split; [unfold used_count; rewrite Hld by lia; exact Hu|].
  apply (IH m m' (c + ss)); [|exact Hrest].
  intros x Hx. apply Hfr. lia.
Qed.

(** A full current chunk with a fresh successor: the next [chip_count]
    allocations fill the successor. *)
Lemma fill_successor (s : Pool) (c n : Z) :
  cur_pool_ s = c -> c <> 0 ->
  used_count (mem s) c = cc -> next_pool (mem s) c = n -> n <> 0 ->
  free_idx (mem s) n = kInvalidIdx ->
  begin_idx (mem s) n = 0 -> used_count (mem s) n = 0 ->
  let r := allocate_n T allocate_ (Z.to_nat cc) s in
  fst r = slot_range T n 0 (Z.to_nat cc) /\
  cur_pool_ (snd r) = n /\ calls (snd r) = calls s /\
  used_count (mem (snd r)) n = cc /\
  (forall x, x < n + 2 \/ n + 6 <= x -> mem (snd r) x = mem s x).
Proof.
  intros Hc Hc0 Hu Hn Hn0 Hf Hb Hun r. subst r.
  destruct (layout_facts T HT) as (_ & Hcc & _).
  destruct (Z.to_nat cc) as [|k] eqn:Ek; [lia|].
  cbn [allocate_n slot_range].
  destruct (Allocate_successor_fields T allocate_ s n
              ltac:(rewrite Hc; exact Hc0) ltac:(rewrite Hc; exact Hu)
              ltac:(rewrite Hc; exact Hn) Hn0 ltac:(rewrite Hun; lia) Hf)
    as (Hr & Hc1 & Hl1 & Hu1 & Hb1 & Hf1 & Hfr1).
  destruct (Allocate T allocate_ s) as [p s1]. cbn [fst snd] in *.
  rewrite Hun in Hu1. rewrite Hb in Hb1, Hr.
  change ((0 + 1) mod 65536) with 1 in Hu1, Hb1.
  destruct (bump_run T allocate_ HT k s1 n 1 1 Hc1 Hn0 Hu1 Hb1 Hf1
              ltac:(lia) ltac:(lia))
    as (Hps & Hc2 & Hl2 & Hu2 & _ & _ & Hfr2).
  destruct (allocate_n T allocate_ k s1) as [ps s2]. cbn [fst snd] in *.
  repeat split.
  - rewrite Hr, Hps. reflexivity.
  - exact Hc2.
  - congruence.
  - lia.
  - intros x Hx. rewrite Hfr2, Hfr1 by assumption. reflexivity.
Qed.

(** A full current chunk followed by [j] fresh chunks: the next
    [j * chip_count] allocations fill them one after the other, without a
    call on the strategy. *)
Lemma fill_chain (j : nat) : forall (s : Pool) (c : Z),
  cur_pool_ s = c -> 0 < c ->
  used_count (mem s) c = cc ->
  fresh_chain T (mem s) c j ->
  let r := allocate_n T allocate_ (j * Z.to_nat cc) s in
  fst r = page_slots T (c + ss) j /\
  cur_pool_ (snd r) = c + Z.of_nat j * ss /\
  calls (snd r) = calls s /\
  used_count (mem (snd r)) (c + Z.of_nat j * ss) = cc /\
  (forall x, x < c + ss \/ c + Z.of_nat j * ss + 6 <= x ->
             mem (snd r) x = mem s x).
Proof.
  pose proof (subpool_size_range T HT) as Hss.
  induction j as [|j IH]; intros s c Hc Hc0 Hu Hch r; subst r.
  - cbn [Nat.mul allocate_n fst snd page_slots Z.of_nat].
    replace (c + 0 * ss) with c by lia.
    repeat split; assumption.
  - cbn [Nat.mul]. rewrite allocate_n_app.
    cbn [fresh_chain] in Hch.
    destruct Hch as (Hn & Hf & Hb & Hun & Hrest).
    destruct (fill_successor s c (c + ss) Hc ltac:(lia) Hu Hn ltac:(lia)
                Hf Hb Hun)
      as (Hps & Hc1 & Hl1 & Hu1 & Hfr1).
    set (r1 := allocate_n T allocate_ (Z.to_nat cc) s) in *.
    assert (Hrest' : fresh_chain T (mem (snd r1)) (c + ss) j).
    { apply (fresh_chain_frame j (mem s)); [|exact Hrest].
      intros x Hx. apply Hfr1. lia. }
    destruct (IH (snd r1) (c + ss) Hc1 ltac:(lia) Hu1 Hrest')
      as (Hps2 & Hc2 & Hl2 & Hu2 & Hfr2).
    cbn [fst snd page_slots].
    replace (c + Z.of_nat (S j) * ss) with (c + ss + Z.of_nat j * ss) by lia.
    repeat split.
    + rewrite Hps, Hps2. reflexivity.
    + exact Hc2.
    + congruence.
    + exact Hu2.
    + intros x Hx. rewrite Hfr2, Hfr1 by lia. reflexivity.
Qed.

Lemma chain_pools_next_pool (n : nat) : forall (m : Mem) (tmp k : Z),
  0 <= k < Z.of_nat n ->
  0 <= tmp -> tmp + Z.of_nat n * ss < uintptr_max ->
  next_pool (fst (chain_pools T n m tmp)) (tmp + k * ss)
  = tmp + (k + 1) * ss.
Proof.
  pose proof (subpool_size_range T HT) as Hss.
  induction n as [|n IH]; intros m tmp k Hk Ht Hmax; [lia|].
  cbn [chain_pools].
  destruct (Z.eq_dec k 0) as [->|Hk0].
  - replace (tmp + 0 * ss) with tmp by lia.
    unfold next_pool.
    rewrite (load_ext 8 _
               (set_next_pool (set_free_idx m tmp kInvalidIdx) tmp (tmp + ss))).
    + fields. mem_simp. rewrite Z.mod_small by nia. lia.
    + intros x Hx. apply chain_pools_frame. intros j Hj.
      change (Z.of_nat 8) with 8 in Hx. nia.
  - replace (tmp + k * ss) with (tmp + ss + (k - 1) * ss) by lia.
    replace (tmp + (k + 1) * ss) with (tmp + ss + (k - 1 + 1) * ss) by lia.
    apply IH; lia.
Qed.

(** The page a Pool of one-byte objects has just acquired, when the
    strategy hands it out zeroed: its chunks are chained and fresh, and
    the last has no successor. *)
Lemma fresh_page_chain (s : Pool) :
  sizeT T = 1 -> cur_pool_ s = 0 ->
  let P := allocate_ (calls s) kPageSize in
  page_aligned P -> zero_page (mem s) P ->
  let s1 := ensure_current T allocate_ s in
  let n := chunks_per_page T in
  cur_pool_ s1 = P /\ calls s1 = calls s ++ [CallAllocate kPageSize] /\
  free_idx (mem s1) P = kInvalidIdx /\
  begin_idx (mem s1) P = 0 /\ used_count (mem s1) P = 0 /\
  fresh_chain T (mem s1) P (Z.to_nat (n - 1)) /\
  next_pool (mem s1) (P + (n - 1) * ss) = 0 /\
  (forall x, ~ (P <= x < P + 4096) -> mem s1 x = mem s x).
Proof.
  intros H1 Hc P HP Hz s1 n.
  pose proof (subpool_size_range T HT) as Hss.
  pose proof (chunks_per_page_range T HT) as Hn. fold n in Hn.
  destruct (ensure_current_fresh T allocate_ HT s Hc)
    as (Hc1 & Hl1 & Hf1 & Hb1 & Hu1 & Hfr1).
  fold P in Hc1, Hf1, Hb1, Hu1, Hfr1. fold s1 in Hc1, Hl1, Hf1, Hb1, Hu1, Hfr1.
  destruct (zero_page_header (mem s) P Hz) as (_ & Hb0 & Hu0 & _).
  destruct HP as (HP0 & HPa & HPm). rewrite kPageSize_eq in HPm.
  unfold zero_page in Hz. rewrite kPageSize_eq in Hz.
  assert (Hmem : mem s1
                 = set_free_idx
                     (fst (chain_pools T (Z.to_nat (n - 1)) (mem s) P))
                     (P + (n - 1) * ss) kInvalidIdx).
  { subst s1. unfold ensure_current. rewrite Hc. cbn [Z.eqb].
    pose proof (AllocSubPool_mem T allocate_ HT s) as Hm.
    fold P in Hm. rewrite (proj2 (Z.eqb_eq _ _) H1) in Hm. fold n in Hm.
    destruct (AllocSubPool T allocate_ s) as [q s']. exact Hm. }
  assert (Hzero : forall k a w, 0 <= k < n ->
            P + k * ss + 2 <= a -> a + Z.of_nat w <= P + k * ss + 6 ->
            load w (mem s1) a = 0).
  { intros k a w Hk Ha Hw. apply load_zero. intros x Hx.
    rewrite Hfr1; [apply Hz; nia|].
    apply (counters_not_link_bytes T HT P k x); [exact Hk|lia]. }
  assert (Hfree : forall k, 0 <= k < n ->
            free_idx (mem s1) (P + k * ss) = kInvalidIdx).
  { intros k Hk. subst s1. unfold ensure_current. rewrite Hc. cbn [Z.eqb].
    destruct (AllocSubPool_spec T allocate_ HT s) as (_ & _ & _ & _ & Hfk).
    fold P in Hfk. specialize (Hfk k Hk).
    destruct (AllocSubPool T allocate_ s) as [q s']. exact Hfk. }
  assert (Hnext : forall k, 0 <= k < n - 1 ->
            next_pool (mem s1) (P + k * ss) = P + (k + 1) * ss).
  { intros k Hk. rewrite Hmem. unfold next_pool at 1, set_free_idx.
    rewrite load_store_other
      by (change (Z.of_nat 8) with 8; change (Z.of_nat 2) with 2; nia).
    apply (chain_pools_next_pool (Z.to_nat (n - 1)));
      rewrite ?Z2Nat.id by lia; first [lia | nia]. }
  assert (Hchain : forall (j : nat) (k0 : Z), 0 <= k0 ->
            k0 + Z.of_nat j <= n - 1 ->
            fresh_chain T (mem s1) (P + k0 * ss) j).
  { induction j as [|j IH]; intros k0 Hk0 Hj; [exact I|].
    cbn [fresh_chain].
    replace (P + k0 * ss + ss) with (P + (k0 + 1) * ss) by lia.
    split; [apply Hnext; lia|]. split; [apply Hfree; lia|].
    split; [apply (Hzero (k0 + 1)); simpl Z.of_nat; lia|].
    split; [apply (Hzero (k0 + 1)); simpl Z.of_nat; lia|].
    apply IH; lia. }
  split; [exact Hc1|]. split; [exact Hl1|]. split; [exact Hf1|].
  split; [congruence|]. split; [congruence|]. split.
  - replace P with (P + 0 * ss) at 1 by lia.
    apply Hchain; [lia|]. rewrite Z2Nat.id by lia. lia.
  - split.
    + unfold next_pool. apply load_zero. intros x Hx.
      change (Z.of_nat 8) with 8 in Hx.
      rewrite Hfr1; [apply Hz; nia|].
      intros (k & Hk & Hin). fold n in Hk, Hin.
      destruct (Z.lt_trichotomy k (n - 1)) as [Hlt|[->|Hgt]]; [|lia|lia].
      assert (k * ss + ss <= (n - 1) * ss) by nia. lia.
    + intros x Hx. apply Hfr1. intros Hin.
      apply (link_byte_in_page T HT) in Hin. lia.
Qed.

Lemma page_slots_in_chunks (j : nat) : forall (c p : Z),
  In p (page_slots T c j) -> c + 16 <= p < c + Z.of_nat j * ss.
Proof.
  pose proof (subpool_size_range T HT) as Hss.
  destruct (layout_facts T HT) as (_ & Hcc & _ & Hs & _).
  pose proof (chip_size_pos T HT) as Hcs.
  induction j as [|j IH]; intros c p Hin; [destruct Hin|].
  cbn [page_slots] in Hin. apply in_app_or in Hin.
  destruct Hin as [Hin|Hin].
  - apply (slot_range_slots T (Z.to_nat cc) c 0 p) in Hin; [|lia|lia].
    destruct Hin as (i & Hi & ->). rewrite (usable_mems_eq T HT). nia.
  - apply IH in Hin. nia.
Qed.

End OneBytePage.

(** X13.  A Pool of one-byte objects amortises one page over all the
    chunks that fit in it: on distinct zeroed pages, the first
    [chunks_per_page * chip_count] allocations (8 * 496 = 3968 for
    [char]) are served chunk after chunk from the first page with a
    single call on the strategy, every returned pointer lies inside that
    page behind the first header, and only the next allocation makes the
    second call and returns slot 0 of the second page. *)
Theorem one_byte_page_serves_all_its_chunks (T : ObjType)
    (allocate_ : AllocFunc) (m0 : Mem) :
  layout_ok T = true -> sizeT T = 1 ->
  let P0 := allocate_ [] kPageSize in
  let P1 := allocate_ [CallAllocate kPageSize] kPageSize in
  page_aligned P0 -> page_aligned P1 -> P0 <> P1 ->
  zero_page m0 P0 -> zero_page m0 P1 ->
  let n := Z.to_nat (chunks_per_page T) in
  let r := allocate_n T allocate_ (n * Z.to_nat (chip_count T))
             (Pool_new m0) in
  fst r = page_slots T P0 n /\
  calls (snd r) = [CallAllocate kPageSize] /\
  (forall p, In p (fst r) -> P0 + 16 <= p < P0 + 4096) /\
  fst (Allocate T allocate_ (snd r)) = usable_mems T P1 0 /\
  calls (snd (Allocate T allocate_ (snd r)))
    = [CallAllocate kPageSize; CallAllocate kPageSize] /\
  (chunks_per_page T_char * chip_count T_char = 3968).
Proof.
  intros HT H1 P0 P1 HP0 HP1 Hne Hz0 Hz1 n r.
  pose proof (subpool_size_range T HT) as Hss.
  pose proof (chunks_per_page_range T HT) as Hn.
  destruct (layout_facts T HT) as (_ & Hcc & _).
  pose proof (pages_apart P0 P1 HP0 HP1 Hne) as Hapart.
  destruct (fresh_page_chain T allocate_ HT (Pool_new m0) H1 eq_refl HP0 Hz0)
    as (Hc1 & Hl1 & Hf1 & Hb1 & Hu1 & Hch1 & Hlast1 & Hfr1).
  cbn [calls mem Pool_new app] in Hc1, Hl1, Hf1, Hb1, Hu1, Hch1, Hlast1, Hfr1.
  fold P0 in Hc1, Hf1, Hb1, Hu1, Hch1, Hlast1, Hfr1.
  set (s1 := ensure_current T allocate_ (Pool_new m0)) in *.
  assert (HP0z : P0 <> 0) by (destruct HP0; lia).
  assert (HP0p : 0 < P0) by (destruct HP0; lia).
  assert (En : n = S (Z.to_nat (chunks_per_page T - 1))) by (subst n; lia).
  assert (Er : r = allocate_n T allocate_
                     (Z.to_nat (chip_count T)
                      + Z.to_nat (chunks_per_page T - 1)
                        * Z.to_nat (chip_count T)) s1).
  { subst r. rewrite En. cbn [Nat.mul].
    apply (allocate_n_ensure T allocate_); [lia| |].
    - fold s1. now rewrite Hc1.
    - fold s1. rewrite Hc1, Hu1. lia. }
  rewrite (allocate_n_app T allocate_) in Er.
  destruct (bump_run T allocate_ HT (Z.to_nat (chip_count T)) s1 P0 0 0
              Hc1 HP0z Hu1 Hb1 Hf1 ltac:(lia) ltac:(lia))
    as (Hps2 & Hc2 & Hl2 & Hu2 & _ & _ & Hfr2).
  set (r2 := allocate_n T allocate_ (Z.to_nat (chip_count T)) s1) in *.
  assert (Hch2 : fresh_chain T (mem (snd r2)) P0
                   (Z.to_nat (chunks_per_page T - 1))).
  { apply (fresh_chain_frame T HT _ (mem s1)); [|exact Hch1].
    intros x Hx. apply Hfr2. lia. }
  destruct (fill_chain T allocate_ HT (Z.to_nat (chunks_per_page T - 1))
              (snd r2) P0 Hc2 HP0p ltac:(lia) Hch2)
    as (Hps3 & Hc3 & Hl3 & Hu3 & Hfr3).
  rewrite Z2Nat.id in Hc3, Hu3, Hfr3 by lia.
  set (r3 := allocate_n T allocate_
               (Z.to_nat (chunks_per_page T - 1) * Z.to_nat (chip_count T))
               (snd r2)) in *.
  assert (Hfst : fst r = page_slots T P0 n).
  { rewrite Er, En. cbn [fst page_slots]. now rewrite Hps2, Hps3. }
  assert (Hsnd : snd r = snd r3) by (rewrite Er; reflexivity).
  set (L := P0 + (chunks_per_page T - 1) * subpool_size T) in *.
  assert (HL : P0 <= L /\ L + subpool_size T <= P0 + 4096) by (subst L; nia).
  assert (Hlast3 : next_pool (mem (snd r3)) L = 0).
  { rewrite <- Hlast1. unfold next_pool. apply load_ext. intros x Hx.
    change (Z.of_nat 8) with 8 in Hx.
    rewrite Hfr3 by lia.
    destruct (Z.eq_dec (chunks_per_page T) 1) as [E|E].
    - subst L. rewrite E in *. apply Hfr2. lia.
    - apply Hfr2. subst L. nia. }
  assert (Hout : forall x, ~ (P0 <= x < P0 + 4096) ->
                           mem (snd r3) x = m0 x).
  { intros x Hx. rewrite Hfr3 by lia. rewrite Hfr2 by lia.
    apply Hfr1. exact Hx. }
  destruct (zero_page_header m0 P1 Hz1) as (_ & Hb1' & Hu1' & _).
  assert (Hcalls : calls (snd r3) = [CallAllocate kPageSize])
    by congruence.
  assert (Hp1 : allocate_ (calls (snd r3)) kPageSize = P1)
    by (rewrite Hcalls; reflexivity).
  assert (Hb3 : begin_idx (mem (snd r3)) P1 = 0).
  { rewrite <- Hb1'. unfold begin_idx. apply load_ext. intros x Hx.
    apply Hout. simpl Z.of_nat in Hx. lia. }
  assert (Hu3' : used_count (mem (snd r3)) P1 = 0).
  { rewrite <- Hu1'. unfold used_count. apply load_ext. intros x Hx.
    apply Hout. simpl Z.of_nat in Hx. lia. }
  destruct (Allocate_new_chunk T allocate_ HT (snd r3) L Hc3 ltac:(lia)
              Hu3 Hlast3
              ltac:(rewrite Hp1; exact HP1)
              ltac:(rewrite Hp1; exact Hb3)
              ltac:(rewrite Hp1; exact Hu3'))
    as (Hr4 & _ & Hl4 & _).
  rewrite Hp1 in Hr4. rewrite Hcalls in Hl4.
  rewrite Hsnd.
  split; [exact Hfst|]. split; [exact Hcalls|]. split.
  - intros p Hin. rewrite Hfst in Hin.
    apply (page_slots_in_chunks T HT) in Hin. subst n.
    rewrite Z2Nat.id in Hin by lia. lia.
  - split; [exact Hr4|]. split; [exact Hl4|reflexivity].
Qed.

Lemma one_byte_page_serves_all_its_chunks_witness :
  (layout_ok T_char = true /\ sizeT T_char = 1 /\
   page_aligned page0 /\ page_aligned page1 /\ page0 <> page1 /\
   zero_page zero_mem page0 /\ zero_page zero_mem page1) /\
  calls (snd (allocate_n T_char pages
                (Z.to_nat (chunks_per_page T_char)
                 * Z.to_nat (chip_count T_char)) (Pool_new zero_mem)))
  = [CallAllocate kPageSize].
Proof.
  assert (HT : layout_ok T_char = true) by reflexivity.
  assert (H1 : sizeT T_char = 1) by reflexivity.
  assert (H0 : page_aligned page0) by (repeat split; vm_compute; congruence).
  assert (Hp1 : page_aligned page1) by (repeat split; vm_compute; congruence).
  assert (Hne : page0 <> page1) by discriminate.
  assert (Hz0 : zero_page zero_mem page0) by (intros x _; reflexivity).
  assert (Hz1 : zero_page zero_mem page1) by (intros x _; reflexivity).
  split; [exact (conj HT (conj H1 (conj H0 (conj Hp1 (conj Hne
                   (conj Hz0 Hz1))))))|].
  exact (proj1 (proj2 (one_byte_page_serves_all_its_chunks T_char pages
                         zero_mem HT H1 H0 Hp1 Hne Hz0 Hz1))).
Defined.

(** ** One chunk as a stack of free slots *)

Lemma remove_perm (i : Z) : forall l : list Z,
  NoDup l -> In i l -> Permutation l (i :: remove Z.eq_dec i l).
Proof.
  induction l as [|a l IH]; intros Hnd Hin; [destruct Hin|].
  inversion Hnd as [|? ? Hna Hnd']; subst.
  cbn [remove]. destruct (Z.eq_dec i a) as [->|Hne].
  - rewrite notin_remove by exact Hna. apply Permutation_refl.
  - destruct Hin as [->|Hin]; [contradiction|].
    apply perm_trans with (a :: i :: remove Z.eq_dec i l).
    + apply perm_skip. apply IH; assumption.
    + apply perm_swap.
Qed.

Lemma load_upd_other (n : nat) (m : Mem) (a v b : Z) :
  a < b \/ b + Z.of_nat n <= a -> load n (upd m a v) b = load n m b.
Proof.
  intros H. apply load_ext. intros x Hx. apply upd_other. lia.
Qed.

Section SingleChunk.

Variable T : ObjType.
Variable allocate_ : AllocFunc.
Variable X : Z.
Hypothesis HT : layout_ok T = true.
Hypothesis H1 : sizeT T <> 1.
Hypothesis HX : page_aligned X.

Local Abbreviation cc := (chip_count T).
Local Abbreviation slot := (usable_mems T X).

Lemma link_two_bytes : link_bytes T = 2%nat.
Proof. unfold link_bytes. now rewrite (proj2 (Z.eqb_neq _ _) H1). Qed.

Lemma chip_two_bytes : 2 <= chip_size T.
Proof.
  destruct (layout_facts T HT) as (_ & _ & Hl & _).
  rewrite link_two_bytes in Hl. exact Hl.
Qed.

(** The links of a free list are read from the link fields of its slots
    only. *)
Lemma linked_frame (l : list Z) : forall (m m' : Mem) (f : Z),
  (forall i x, In i l -> slot i <= x < slot i + 2 -> m' x = m x) ->
  linked T m X f l -> linked T m' X f l.
Proof.
  induction l as [|i l IH]; intros m m' f Hfr H; [exact H|].
  cbn [linked] in *. destruct H as (Hf & Hrest). split; [exact Hf|].
  assert (Hl : next_idx T m' (slot i) = next_idx T m (slot i)).
  { unfold next_idx. rewrite link_two_bytes. apply load_ext.
    intros x Hx. apply (Hfr i x); [now left|].
    change (Z.of_nat 2) with 2 in Hx. lia. }
  rewrite Hl. apply (IH m); [|exact Hrest].
  intros j x Hj Hx. apply (Hfr j x); [now right|exact Hx].
Qed.

Lemma slots_apart (i j : Z) :
  0 <= i -> 0 <= j -> i <> j ->
  slot i + chip_size T <= slot j \/ slot j + chip_size T <= slot i.
Proof.
  intros Hi Hj Hne. rewrite !(usable_mems_eq T HT).
  pose proof chip_two_bytes. nia.
Qed.

Lemma wf_index (a : ChunkModel) (i : Z) :
  model_wf T a -> In i (c_free a ++ c_live a) -> 0 <= i < cc.
Proof.
  intros (_ & Hle & _ & Hin) Hi. specialize (Hin i Hi). lia.
Qed.

Lemma NoDup_app_not_both (l1 l2 : list Z) (x : Z) :
  NoDup (l1 ++ l2) -> In x l1 -> In x l2 -> False.
Proof.
  induction l1 as [|y l1 IH]; intros Hnd H1' H2'; [destruct H1'|].
  cbn [app] in Hnd. inversion Hnd as [|? ? Hn Hnd']; subst.
  destruct H1' as [->|H1'].
  - apply Hn. apply in_or_app. now right.
  - now apply IH.
Qed.

(** [Allocate] follows the model. *)
Lemma sim_alloc (s : Pool) (a : ChunkModel) :
  represents T X s a -> model_wf T a ->
  Z.of_nat (length (c_live a)) < cc ->
  fst (Allocate T allocate_ s) = slot (fst (model_alloc a)) /\
  represents T X (snd (Allocate T allocate_ s)) (snd (model_alloc a)) /\
  model_wf T (snd (model_alloc a)) /\
  calls (snd (Allocate T allocate_ s)) = calls s /\
  0 <= fst (model_alloc a) < cc /\
  ~ In (fst (model_alloc a)) (c_live a).
Proof.
  intros (Hc & Hb & Hu & Hlk) Hwf Hroom.
  assert (Hwf' := Hwf). destruct Hwf' as (Hfr & Hle & Hnd & Hin).
  destruct (layout_facts T HT) as (_ & Hcc & _).
  assert (HX0 : X <> 0) by (destruct HX; lia).
  destruct a as [b fl lv]. unfold model_alloc.
  cbn [c_frontier c_free c_live] in *.
  destruct fl as [|i rest].
  - cbn [linked] in Hlk. cbn [fst snd app length Nat.add] in *.
    destruct (Allocate_bump_fields T allocate_ s X
                (Z.of_nat (length lv)) b Hc HX0 Hu ltac:(lia) Hb Hlk)
      as (Hr & Hc' & Hl' & Hu' & Hb' & Hf' & _).
    rewrite Z.mod_small in Hu', Hb' by lia.
    split; [exact Hr|]. split.
    + split; [exact Hc'|]. cbn [c_frontier c_free c_live length linked].
      split; [exact Hb'|]. split; [rewrite Hu'; lia|exact Hf'].
    + split.
      * split; cbn [c_frontier c_free c_live length app Nat.add]; [lia|].
        split; [lia|]. split.
        -- constructor; [|exact Hnd].
           intros Hi. specialize (Hin _ Hi). lia.
        -- intros j [<-|Hj]; [lia|]. specialize (Hin j Hj). lia.
      * split; [exact Hl'|]. split; [lia|].
        intros Hi. specialize (Hin _ Hi). lia.
  - cbn [linked] in Hlk. destruct Hlk as (Hf & Hrest).
    cbn [fst snd].
    assert (Hi : 0 <= i < cc).
    { specialize (Hin i (or_introl eq_refl)). lia. }
    assert (Hiv : i <> kInvalidIdx) by (rewrite kInvalidIdx_eq; lia).
    destruct (Allocate_pop_fields T allocate_ s X
                (Z.of_nat (length lv)) i HT Hc HX0 Hu ltac:(lia) Hf Hiv)
      as (Hr & Hc' & Hl' & Hu' & Hf' & Hb' & Hfr').
    rewrite Z.mod_small in Hu' by lia.
    assert (Hperm : Permutation ((i :: rest) ++ lv) (rest ++ i :: lv))
      by (cbn [app]; apply Permutation_middle).
    split; [exact Hr|]. split.
    + split; [exact Hc'|]. cbn [c_frontier c_free c_live length].
      split; [congruence|]. split; [rewrite Hu'; lia|].
      rewrite Hf'.
      apply (linked_frame rest (mem s)); [|exact Hrest].
      intros j x Hj Hx. apply Hfr'.
      assert (0 <= j < b).
      { apply Hin. right. apply in_or_app. now left. }
      pose proof (slot_lower T HT X j ltac:(lia)). lia.
    + split.
      * split; cbn [c_frontier c_free c_live].
        { rewrite Hfr. cbn [length]. lia. }
        split; [exact Hle|]. split.
        -- apply (Permutation_NoDup Hperm). exact Hnd.
        -- intros j Hj. apply Hin.
           apply (Permutation_in j (Permutation_sym Hperm)). exact Hj.
      * split; [exact Hl'|]. split; [exact Hi|].
        cbn [app] in Hnd. inversion Hnd as [|? ? Hni _]; subst.
        intros Hil. apply Hni. apply in_or_app. now right.
Qed.

(** [Deallocate] of a slot the client holds follows the model. *)
Lemma sim_release (s : Pool) (a : ChunkModel) (i : Z) :
  represents T X s a -> model_wf T a -> In i (c_live a) ->
  represents T X (Deallocate T s (slot i)) (model_release a i) /\
  model_wf T (model_release a i) /\
  calls (Deallocate T s (slot i)) = calls s.
Proof.
  intros (Hc & Hb & Hu & Hlk) Hwf Hil.
  assert (Hwf' := Hwf). destruct Hwf' as (Hfr & Hle & Hnd & Hin).
  destruct (layout_facts T HT) as (_ & Hcc & _).
  destruct a as [b fl lv]. unfold model_release.
  cbn [c_frontier c_free c_live] in *.
  assert (Hi : 0 <= i < cc).
  { specialize (Hin i (in_or_app _ _ _ (or_intror Hil))). lia. }
  assert (Hs : slot_at T X i (slot i)) by (split; [exact Hi|reflexivity]).
  assert (Hlen : (1 <= length lv)%nat).
  { destruct lv; [destruct Hil|cbn; lia]. }
  assert (Hndl : NoDup lv) by (apply NoDup_app_remove_l in Hnd; exact Hnd).
  split; [|split; [|apply Deallocate_calls]].
  - destruct (Nat.eqb_spec (length lv) 1) as [E|E].
    + rewrite (Deallocate_slot T HT s X i (slot i) HX Hs).
      destruct (splice_fields T s X) as (Hc1 & _ & Hfr1).
      assert (Hu1 : used_count (mem (splice_if_full T s X)) X = 1).
      { transitivity (used_count (mem s) X);
          [|rewrite Hu, E; reflexivity].
        unfold used_count. apply load_ext. intros x Hx. apply Hfr1.
        simpl Z.of_nat in Hx. lia. }
      destruct (release_last T (splice_if_full T s X) X (slot i) i Hu1)
        as (Hc2 & _ & Hu2 & Hf2 & Hb2 & _).
      split.
      * rewrite Hc2, Hc1, Hc. now destruct (_ =? _).
      * cbn [c_frontier c_free c_live length linked Z.of_nat].
        repeat split; assumption.
    + destruct (Deallocate_push_fields T s X i (slot i) HT HX Hs
                  ltac:(lia) ltac:(right; exact Hc))
        as (Hc' & _ & Hu' & Hf' & Hb' & Hn' & Hfr').
      rewrite link_two_bytes in Hn', Hfr'. change (Z.of_nat 2) with 2 in *.
      pose proof (load2_range (mem s) X) as Hrf.
      fold (free_idx (mem s) X) in Hrf.
      rewrite Z.mod_small in Hn' by (change (256 ^ 2) with 65536; lia).
      split; [exact Hc'|]. cbn [c_frontier c_free c_live].
      split; [congruence|]. split.
      * rewrite Hu', Hu.
        pose proof (Permutation_length (remove_perm i _ Hndl Hil)) as Hpl.
        cbn [length] in Hpl. lia.
      * cbn [linked]. split; [exact Hf'|]. rewrite Hn'.
        apply (linked_frame fl (mem s)); [|exact Hlk].
        intros j x Hj Hx.
        assert (Hj' : 0 <= j < b).
        { apply Hin. apply in_or_app. now left. }
        assert (Hji : j <> i).
        { intros ->. exact (NoDup_app_not_both fl lv i Hnd Hj Hil). }
        pose proof (slot_lower T HT X j ltac:(lia)).
        pose proof (slots_apart i j ltac:(lia) ltac:(lia) ltac:(congruence)).
        pose proof chip_two_bytes.
        apply Hfr'; lia.
  - destruct (Nat.eqb_spec (length lv) 1) as [E|E].
    + split; cbn [c_frontier c_free c_live length app Nat.add Z.of_nat];
        [reflexivity|]. split; [lia|]. split; [constructor|].
      intros j [].
    + pose proof (remove_perm i _ Hndl Hil) as Hp.
      assert (Hperm : Permutation (fl ++ lv)
                        ((i :: fl) ++ remove Z.eq_dec i lv)).
      { apply perm_trans with (fl ++ i :: remove Z.eq_dec i lv).
        - apply Permutation_app_head. exact Hp.
        - cbn [app]. apply Permutation_sym, Permutation_middle. }
      split; cbn [c_frontier c_free c_live].
      { rewrite Hfr. pose proof (Permutation_length Hp) as Hpl.
        cbn [length] in *. lia. }
      split; [exact Hle|]. split.
      * apply (Permutation_NoDup Hperm). exact Hnd.
      * intros j Hj. apply Hin.
        apply (Permutation_in j (Permutation_sym Hperm)). exact Hj.
Qed.

(** A byte the client stores into a slot it holds does not disturb the
    bookkeeping. *)
Lemma sim_write (s : Pool) (a : ChunkModel) (i off v : Z) :
  represents T X s a -> model_wf T a -> In i (c_live a) ->
  0 <= off < chip_size T ->
  represents T X (client_write s (slot i + off) v) a.
Proof.
  intros (Hc & Hb & Hu & Hlk) Hwf Hil Hoff.
  assert (Hwf' := Hwf). destruct Hwf' as (Hfr & Hle & Hnd & Hin).
  destruct (layout_facts T HT) as (_ & Hcc & _).
  destruct a as [b fl lv]. cbn [c_frontier c_free c_live] in *.
  assert (Hi : 0 <= i < b).
  { apply Hin. apply in_or_app. now right. }
  pose proof (slot_lower T HT X i ltac:(lia)) as Hlo.
  unfold client_write. split; [exact Hc|]. cbn [mem c_frontier c_free c_live].
  assert (Hld : forall n b', b' + Z.of_nat n <= X + 16 ->
            load n (upd (mem s) (slot i + off) v) b' = load n (mem s) b').
  { intros n b' Hn. apply load_upd_other. lia. }
  split; [unfold begin_idx; rewrite Hld by (simpl Z.of_nat; lia); exact Hb|].
  split; [unfold used_count; rewrite Hld by (simpl Z.of_nat; lia); exact Hu|].
  unfold free_idx at 1. rewrite Hld by (simpl Z.of_nat; lia).
  apply (linked_frame fl (mem s)); [|exact Hlk].
  intros j x Hj Hx. apply upd_other.
  assert (Hj' : 0 <= j < b).
  { apply Hin. apply in_or_app. now left. }
  assert (Hji : j <> i).
  { intros ->. exact (NoDup_app_not_both fl lv i Hnd Hj Hil). }
  pose proof (slots_apart i j ltac:(lia) ltac:(lia) ltac:(congruence)).
  pose proof chip_two_bytes. lia.
Qed.

(** Releasing several held slots, fewer than the client holds, stacks
    them on the free list. *)
Lemma release_run (l : list Z) : forall (s : Pool) (a : ChunkModel),
  represents T X s a -> model_wf T a ->
  NoDup l -> (forall i, In i l -> In i (c_live a)) ->
  (length l < length (c_live a))%nat ->
  exists a',
    represents T X (deallocate_all T (map slot l) s) a' /\
    model_wf T a' /\
    c_free a' = rev l ++ c_free a /\
    (length (c_live a') + length l = length (c_live a))%nat.
Proof.
  induction l as [|i l IH]; intros s a Hrep Hwf Hnd Hin Hlen.
  - exists a. cbn [map rev app length]. unfold deallocate_all.
    cbn [fold_left]. split; [exact Hrep|]. split; [exact Hwf|].
    split; [reflexivity|lia].
  - cbn [map]. rewrite deallocate_all_cons.
    inversion Hnd as [|? ? Hni Hnd']; subst.
    assert (Hil : In i (c_live a)) by (apply Hin; now left).
    destruct (sim_release s a i Hrep Hwf Hil) as (Hrep1 & Hwf1 & _).
    assert (Hndl : NoDup (c_live a)).
    { destruct Hwf as (_ & _ & Hn & _).
      apply NoDup_app_remove_l in Hn. exact Hn. }
    pose proof (Permutation_length (remove_perm i _ Hndl Hil)) as Hpl.
    cbn [length] in Hpl, Hlen.
    assert (Ea : model_release a i
                 = mkChunkModel (c_frontier a) (i :: c_free a)
                     (remove Z.eq_dec i (c_live a))).
    { unfold model_release.
      destruct (Nat.eqb_spec (length (c_live a)) 1); [lia|reflexivity]. }
    rewrite Ea in Hrep1, Hwf1.
    destruct (IH _ _ Hrep1 Hwf1 Hnd') as (a' & Hrep' & Hwf' & Hfree' & Hlen').
    + cbn [c_live]. intros j Hj. apply in_in_remove.
      * intros ->. contradiction.
      * apply Hin. now right.
    + cbn [c_live]. lia.
    + exists a'. cbn [c_free c_live] in Hfree', Hlen'.
      split; [exact Hrep'|]. split; [exact Hwf'|]. split.
      * rewrite Hfree'. cbn [rev]. rewrite <- app_assoc. reflexivity.
      * cbn [length]. lia.
Qed.

(** Allocating as many slots as are stacked in front of the free list
    returns them from the front. *)
Lemma alloc_run (l : list Z) : forall (s : Pool) (a : ChunkModel)
    (rest : list Z),
  represents T X s a -> model_wf T a ->
  c_free a = l ++ rest ->
  Z.of_nat (length (c_live a) + length l) <= cc ->
  fst (allocate_n T allocate_ (length l) s) = map slot l.
Proof.
  induction l as [|i l IH]; intros s a rest Hrep Hwf Hfree Hroom;
    [reflexivity|].
  cbn [length allocate_n map].
  destruct (sim_alloc s a Hrep Hwf ltac:(cbn [length] in Hroom; lia))
    as (Hr & Hrep1 & Hwf1 & _).
  assert (Ea : model_alloc a
               = (i, mkChunkModel (c_frontier a) (l ++ rest)
                       (i :: c_live a))).
  { unfold model_alloc. rewrite Hfree. reflexivity. }
  rewrite Ea in Hr, Hrep1, Hwf1. cbn [fst snd] in Hr, Hrep1, Hwf1.
  destruct (Allocate T allocate_ s) as [p s1]. cbn [fst snd] in *.
  specialize (IH s1 _ rest Hrep1 Hwf1 eq_refl).
  cbn [c_live length] in IH.
  rewrite <- IH by (cbn [length] in Hroom; lia).
  destruct (allocate_n T allocate_ (length l) s1). cbn [fst].
  now rewrite Hr.
Qed.

End SingleChunk.

(** In the single-chunk regime the Pool holds the model. *)
Lemma reach_invariant (T : ObjType) (allocate_ : AllocFunc) (m0 : Mem) :
  layout_ok T = true -> sizeT T <> 1 ->
  page_aligned (allocate_ [] kPageSize) ->
  zero_page m0 (allocate_ [] kPageSize) ->
  forall s a, reach T allocate_ m0 s a ->
    model_wf T a /\ represents T (allocate_ [] kPageSize) s a /\
    calls s = [CallAllocate kPageSize].
Proof.
  intros HT H1 HX Hz s a Hreach.
  set (X := allocate_ [] kPageSize) in *.
  destruct (layout_facts T HT) as (_ & Hcc & _).
  induction Hreach as [|s a Hr IH Hroom|s a i Hr IH Hil|s a i off v Hr IH Hil Hoff].
  - destruct (ensure_current_fresh T allocate_ HT (Pool_new m0) eq_refl)
      as (Hc1 & Hl1 & Hf1 & Hb1 & Hu1 & _).
    cbn [calls mem Pool_new app] in Hc1, Hl1, Hf1, Hb1, Hu1.
    fold X in Hc1, Hf1, Hb1, Hu1.
    destruct (zero_page_header m0 X Hz) as (_ & Hb0 & Hu0 & _).
    set (s1 := ensure_current T allocate_ (Pool_new m0)) in *.
    assert (HX0 : X <> 0) by (destruct HX; lia).
    assert (Hpre : Allocate T allocate_ (Pool_new m0)
                   = Allocate T allocate_ s1).
    { apply (Allocate_prefix T allocate_).
      - apply advance_if_full_not_full. fold s1.
        rewrite Hc1, Hu1, Hu0. lia.
      - now rewrite Hc1.
      - rewrite Hc1, Hu1, Hu0. lia. }
    rewrite Hpre.
    assert (Hrep0 : represents T X s1 (mkChunkModel 0 [] [])).
    { split; [exact Hc1|]. cbn [c_frontier c_free c_live length linked].
      split; [congruence|]. split; [rewrite Hu1, Hu0; reflexivity|exact Hf1]. }
    assert (Hwf0 : model_wf T (mkChunkModel 0 [] [])).
    { split; cbn [c_frontier c_free c_live length app Nat.add];
        [reflexivity|]. split; [lia|]. split; [constructor|]. intros j []. }
    destruct (sim_alloc T allocate_ X HT H1 HX s1 _ Hrep0 Hwf0
                ltac:(cbn [c_live length]; lia))
      as (_ & Hrep & Hwf & Hl & _).
    cbn [model_alloc c_free c_frontier c_live snd Z.add] in Hrep, Hwf.
    split; [exact Hwf|]. split; [exact Hrep|]. congruence.
  - destruct IH as (Hwf & Hrep & Hl).
    destruct (sim_alloc T allocate_ X HT H1 HX s a Hrep Hwf Hroom)
      as (_ & Hrep' & Hwf' & Hl' & _).
    split; [exact Hwf'|]. split; [exact Hrep'|]. congruence.
  - destruct IH as (Hwf & Hrep & Hl).
    destruct (sim_release T X HT H1 HX s a i Hrep Hwf Hil)
      as (Hrep' & Hwf' & Hl').
    split; [exact Hwf'|]. split; [exact Hrep'|]. exact (eq_trans Hl' Hl).
  - destruct IH as (Hwf & Hrep & Hl).
    split; [exact Hwf|]. split; [|exact Hl].
    exact (sim_write T X HT H1 s a i off v Hrep Hwf Hil Hoff).
Qed.

(** X14.  As long as the client never holds more than [chip_count]
    objects of a type larger than one byte, releases only slots it holds
    and writes only into slots it holds, the Pool stays within its first
    chunk: one call on the strategy, [used_count] equal to the number of
    slots held, and every [Allocate] returns a slot of the chunk that does
    not overlap any slot the client holds. *)
Theorem single_chunk_never_serves_held_slot (T : ObjType)
    (allocate_ : AllocFunc) (m0 : Mem) :
  layout_ok T = true -> sizeT T <> 1 ->
  let X := allocate_ [] kPageSize in
  page_aligned X -> zero_page m0 X ->
  forall s a, reach T allocate_ m0 s a ->
    calls s = [CallAllocate kPageSize] /\
    cur_pool_ s = X /\
    used_count (mem s) X = Z.of_nat (length (c_live a)) /\
    NoDup (c_live a) /\
    (forall j, In j (c_live a) -> 0 <= j < chip_count T) /\
    (Z.of_nat (length (c_live a)) < chip_count T ->
     exists i,
       fst (Allocate T allocate_ s) = usable_mems T X i /\
       0 <= i < chip_count T /\ ~ In i (c_live a) /\
       forall j, In j (c_live a) ->
         usable_mems T X j + chip_size T <= fst (Allocate T allocate_ s) \/
         fst (Allocate T allocate_ s) + chip_size T <= usable_mems T X j).
Proof.
  intros HT H1 X HX Hz s a Hreach.
  destruct (reach_invariant T allocate_ m0 HT H1 HX Hz s a Hreach)
    as (Hwf & Hrep & Hl).
  fold X in Hrep.
  assert (Hrep' := Hrep). destruct Hrep' as (Hc & _ & Hu & _).
  assert (Hwf' := Hwf). destruct Hwf' as (_ & Hle & Hnd & Hin).
  assert (Hlive : forall j, In j (c_live a) -> 0 <= j < chip_count T).
  { intros j Hj. specialize (Hin j (in_or_app _ _ _ (or_intror Hj))). lia. }
  split; [exact Hl|]. split; [exact Hc|]. split; [exact Hu|].
  split; [apply NoDup_app_remove_l in Hnd; exact Hnd|].
  split; [exact Hlive|].
  intros Hroom.
  destruct (sim_alloc T allocate_ X HT H1 HX s a Hrep Hwf Hroom)
    as (Hr & _ & _ & _ & Hi & Hni).
  exists (fst (model_alloc a)).
  split; [exact Hr|]. split; [exact Hi|]. split; [exact Hni|].
  intros j Hj. rewrite Hr.
  specialize (Hlive j Hj).
  apply (slots_apart T X HT H1); try lia.
  intros ->. contradiction.
Qed.

Lemma single_chunk_never_serves_held_slot_witness :
  (layout_ok T_u64 = true /\ sizeT T_u64 <> 1 /\ page_aligned page0 /\
   zero_page zero_mem page0 /\
   reach T_u64 pages zero_mem
     (snd (Allocate T_u64 pages (Pool_new zero_mem)))
     (mkChunkModel 1 [] [0])) /\
  calls (snd (Allocate T_u64 pages (Pool_new zero_mem)))
  = [CallAllocate kPageSize].
Proof.
  assert (HT : layout_ok T_u64 = true) by reflexivity.
  assert (H1 : sizeT T_u64 <> 1) by discriminate.
  assert (H0 : page_aligned page0) by (repeat split; vm_compute; congruence).
  assert (Hz0 : zero_page zero_mem page0) by (intros x _; reflexivity).
  assert (Hr : reach T_u64 pages zero_mem
                 (snd (Allocate T_u64 pages (Pool_new zero_mem)))
                 (mkChunkModel 1 [] [0])) by apply reach_first.
  split; [exact (conj HT (conj H1 (conj H0 (conj Hz0 Hr))))|].
  exact (proj1 (single_chunk_never_serves_held_slot T_u64 pages zero_mem
                  HT H1 H0 Hz0 _ _ Hr)).
Defined.

(** X15.  In that regime the free list is a stack: after the client
    releases some of the slots it holds, but not all, the next
    allocations return exactly those slots, the one released last
    first. *)
Theorem released_slots_come_back_in_reverse (T : ObjType)
    (allocate_ : AllocFunc) (m0 : Mem) :
  layout_ok T = true -> sizeT T <> 1 ->
  let X := allocate_ [] kPageSize in
  page_aligned X -> zero_page m0 X ->
  forall s a l, reach T allocate_ m0 s a ->
    NoDup l -> (forall i, In i l -> In i (c_live a)) ->
    (length l < length (c_live a))%nat ->
    fst (allocate_n T allocate_ (length l)
           (deallocate_all T (map (usable_mems T X) l) s))
    = map (usable_mems T X) (rev l).
Proof.
  intros HT H1 X HX Hz s a l Hreach Hnd Hin Hlen.
  destruct (reach_invariant T allocate_ m0 HT H1 HX Hz s a Hreach)
    as (Hwf & Hrep & _).
  fold X in Hrep.
  destruct (release_run T X HT H1 HX l s a Hrep Hwf Hnd Hin Hlen)
    as (a' & Hrep' & Hwf' & Hfree' & Hlen').
  assert (Hle : Z.of_nat (length (c_live a)) <= chip_count T).
  { destruct Hwf as (Hfr & Hle & _). lia. }
  rewrite <- (length_rev l).
  apply (alloc_run T allocate_ X HT H1 HX (rev l) _ a' (c_free a)
           Hrep' Hwf' Hfree').
  rewrite length_rev. lia.
Qed.

Lemma released_slots_come_back_in_reverse_witness :
  let s := snd (allocate_n T_u64 pages 4 (Pool_new zero_mem)) in
  let a := mkChunkModel 4 [] [3; 2; 1; 0] in
  (layout_ok T_u64 = true /\ sizeT T_u64 <> 1 /\ page_aligned page0 /\
   zero_page zero_mem page0 /\ reach T_u64 pages zero_mem s a /\
   NoDup [1; 2] /\ (forall i, In i [1; 2] -> In i (c_live a)) /\
   (length [1; 2] < length (c_live a))%nat) /\
  fst (allocate_n T_u64 pages 2
         (deallocate_all T_u64
            [usable_mems T_u64 page0 1; usable_mems T_u64 page0 2] s))
  = [usable_mems T_u64 page0 2; usable_mems T_u64 page0 1].
Proof.
  intros s a.
  assert (HT : layout_ok T_u64 = true) by reflexivity.
  assert (H1 : sizeT T_u64 <> 1) by discriminate.
  assert (H0 : page_aligned page0) by (repeat split; vm_compute; congruence).
  assert (Hz0 : zero_page zero_mem page0) by (intros x _; reflexivity).
  assert (Hr : reach T_u64 pages zero_mem s a).
  { assert (Hroom : forall n : nat, (n <= 3)%nat ->
              Z.of_nat n < chip_count T_u64).
    { intros n Hn. change (chip_count T_u64) with 510. lia. }
    pose proof (reach_first T_u64 pages zero_mem) as R1.
    pose proof (reach_alloc _ _ _ _ _ R1 (Hroom 1%nat ltac:(lia))) as R2.
    pose proof (reach_alloc _ _ _ _ _ R2 (Hroom 2%nat ltac:(lia))) as R3.
    pose proof (reach_alloc _ _ _ _ _ R3 (Hroom 3%nat ltac:(lia))) as R4.
    exact R4. }
  assert (Hnd : NoDup [1; 2]).
  { constructor; [intros [E|[]]; discriminate E|].
    constructor; [intros []|constructor]. }
  assert (Hin : forall i, In i [1; 2] -> In i (c_live a)).
  { intros i [<-|[<-|[]]]; cbn; auto. }
  assert (Hlen : (length [1; 2] < length (c_live a))%nat) by (cbn; lia).
  split; [exact (conj HT (conj H1 (conj H0 (conj Hz0 (conj Hr
                   (conj Hnd (conj Hin Hlen)))))))|].
  exact (released_slots_come_back_in_reverse T_u64 pages zero_mem
           HT H1 H0 Hz0 s a [1; 2] Hr Hnd Hin Hlen).
Defined.

(** ** The constraint on 32-bit targets *)

(** X16.  On a 32-bit target other than Windows the header has 12 bytes,
    and no object type whose size is a multiple of 8 passes
    [is_valid_chip_v]; on 32-bit Windows the extra [reserve2] member pads
    the header to 16 bytes and the constraint accepts such a type exactly
    when it does on the 64-bit target. *)
Theorem multiples_of_eight_rejected_on_ilp32 (T : ObjType) :
  0 < sizeT T -> sizeT T mod 8 = 0 ->
  sizeof_Header ilp32 T = 12 /\ is_valid_chip_v ilp32 T = false /\
  sizeof_Header win32 T = 16 /\
  is_valid_chip_v win32 T = is_valid_chip_v x64 T.
Proof.
  intros Hsz H8.
  assert (Hge : 8 <= sizeT T).
  { pose proof (Z.div_mod (sizeT T) 8 ltac:(lia)). lia. }
  assert (E1 : (sizeT T =? 1) = false) by (apply Z.eqb_neq; lia).
  assert (H12 : sizeof_Header ilp32 T = 12).
  { unfold sizeof_Header, Header. rewrite E1. reflexivity. }
  assert (H16 : sizeof_Header win32 T = 16).
  { unfold sizeof_Header, Header. rewrite E1. reflexivity. }
  split; [exact H12|]. split; [|split; [exact H16|]].
  - unfold is_valid_chip_v, kUsableSize. rewrite E1, H12.
    change (kPageSize - 12) with 4084.
    apply Z.eqb_neq. intros Hm.
    apply Z.mod_divide in Hm; [|lia].
    apply Z.mod_divide in H8; [|lia].
    pose proof (Z.divide_trans _ _ _ H8 Hm) as (q & Hq). lia.
  - unfold is_valid_chip_v, kUsableSize.
    now rewrite E1, H16, sizeof_Header_x64.
Qed.

Lemma multiples_of_eight_rejected_on_ilp32_witness :
  (0 < sizeT T_u64 /\ sizeT T_u64 mod 8 = 0) /\
  is_valid_chip_v ilp32 T_u64 = false.
Proof.
  assert (Hs : 0 < sizeT T_u64) by reflexivity.
  assert (H8 : sizeT T_u64 mod 8 = 0) by reflexivity.
  split; [exact (conj Hs H8)|].
  exact (proj1 (proj2 (multiples_of_eight_rejected_on_ilp32 T_u64 Hs H8))).
Defined.

(** ** Chunks inside a page *)

(** X17.  For the chunks that [AllocSubPool] sets up behind the first one
    in a page, the mask of [Deallocate] does not give the chunk back: a
    slot pointer of the [k]-th chunk, [k] from 1 on, masks to the first
    chunk of the page, and the index computed for it, counted in chips
    from the first chunk's slot array, is not below [chip_count]. *)
Theorem slot_of_later_chunk_masks_to_first (T : ObjType) (P k i : Z) :
  layout_ok T = true -> page_aligned P ->
  1 <= k < chunks_per_page T -> 0 <= i < chip_count T ->
  let X := P + k * subpool_size T in
  pool_of (usable_mems T X i) = P /\ pool_of (usable_mems T X i) <> X /\
  chip_count T <= idx_of T (usable_mems T X i).
Proof.
  intros HT HP Hk Hi X.
  pose proof (subpool_size_range T HT) as Hss.
  pose proof (chunks_per_page_range T HT) as Hn.
  destruct (layout_facts T HT) as (_ & Hcc & _ & Hs & _).
  pose proof (chip_size_pos T HT) as Hcs.
  assert (Hoff : 0 <= k * subpool_size T + 16 + i * chip_size T < 4096).
  { assert (k * subpool_size T + subpool_size T
            <= chunks_per_page T * subpool_size T) by nia.
    nia. }
  assert (Hmask : pool_of (usable_mems T X i) = P).
  { subst X. rewrite (usable_mems_eq T HT).
    replace (P + k * subpool_size T + 16 + i * chip_size T)
      with (P + (k * subpool_size T + 16 + i * chip_size T)) by lia.
    apply pool_of_in_page; [exact HP|rewrite kPageSize_eq; exact Hoff]. }
  split; [exact Hmask|]. split; [rewrite Hmask; subst X; nia|].
  unfold idx_of. rewrite Hmask. subst X. rewrite !(usable_mems_eq T HT).
  replace (P + k * subpool_size T + 16 + i * chip_size T
           - (P + 16 + 0 * chip_size T))
    with (k * subpool_size T + i * chip_size T) by lia.
  rewrite Z.mod_small by (rewrite uintptr_max_eq; lia).
  apply Z.div_le_lower_bound; [lia|]. nia.
Qed.

Lemma slot_of_later_chunk_masks_to_first_witness :
  (layout_ok T_char = true /\ page_aligned page0 /\
   1 <= 1 < chunks_per_page T_char /\ 0 <= 0 < chip_count T_char) /\
  pool_of (usable_mems T_char page0_chunk1 0) = page0.
Proof.
  assert (HT : layout_ok T_char = true) by reflexivity.
  assert (H0 : page_aligned page0) by (repeat split; vm_compute; congruence).
  assert (Hk : 1 <= 1 < chunks_per_page T_char)
    by (vm_compute; split; congruence).
  assert (Hi : 0 <= 0 < chip_count T_char)
    by (vm_compute; split; congruence).
  split; [exact (conj HT (conj H0 (conj Hk Hi)))|].
  exact (proj1 (slot_of_later_chunk_masks_to_first T_char page0 1 0
                  HT H0 Hk Hi)).
Defined.
